(** * Artifact assembly pipeline of builder-playground (internal/artifacts.go)

    A shallow embedding of the parts of [internal/artifacts.go] that the
    specification talks about: the JSON patch engine ([mergeMap],
    [overrideJSON]), the builder record and its setters, the clamp of the
    genesis delay in [Build], the genesis allocation merge, the L2 genesis and
    rollup configuration derivation, the artifact writer ([output.WriteFile],
    [output.Exists]) and the lighthouse keystore encoder. *)

From Stdlib Require Import String Ascii List ZArith Lia Bool.
From Stdlib Require Import DecimalN HexadecimalN.
From stdpp Require Import base gmap strings.
Import ListNotations.
#[local] Set Warnings "-register-all".

Open Scope Z_scope.

(* ================================================================== *)
(** ** Go values produced by [encoding/json] *)

(** A value of static type [interface{}] as it appears in the maps handled by
    [overrideJSON]: [nil], [bool], a number, [string], [[]interface{}] and
    [map[string]interface{}].  Numbers are kept as integers: every number this
    pipeline writes is an integer (timestamps, block numbers, fee constants).
    A map is an association list whose keys are pairwise distinct (a Go map
    has unique keys); its order is not observable. *)
Inductive gval : Type :=
| GNull
| GBool (b : bool)
| GNum (n : Z)
| GStr (s : string)
| GArr (l : list gval)
| GMap (m : list (string * gval)).

Abbreviation gomap := (list (string * gval)).

(** [v, ok := m[k]] *)
Fixpoint map_get (k : string) (m : gomap) : option gval :=
  match m with
  | [] => None
  | (k', v) :: m' => if String.eqb k k' then Some v else map_get k m'
  end.

(** [m[k] = v]: replace the entry of [k], or add a new one. *)
Fixpoint map_set (k : string) (v : gval) (m : gomap) : gomap :=
  match m with
  | [] => [(k, v)]
  | (k', v') :: m' =>
      if String.eqb k k' then (k, v) :: m' else (k', v') :: map_set k v m'
  end.

(* ================================================================== *)
(** ** JSON patch engine: [mergeMap] and [overrideJSON] *)

(** The loop of [mergeMap]:
<<
    for key, srcVal := range src {
        if dstVal, exists := dst[key]; exists {
            if dstMap, ok := dstVal.(map[string]interface{}); ok {
                if srcMap, ok := srcVal.(map[string]interface{}); ok {
                    mergeMap(dstMap, srcMap)
                    continue
                }
            }
        }
        dst[key] = srcVal
    }
>>
    The map is updated in place in Go; here the updated map is returned.
    [merge_value] is the body for one key: given [dst[key]] (if present) and
    [srcVal] it yields the value stored under [key] afterwards.  The range
    over [src] is taken in list order: its keys are distinct, so each key is
    handled once and the order does not change the result. *)
Fixpoint merge_loop (merge_value : option gval -> gval -> gval)
    (dst src : gomap) : gomap :=
  match src with
  | [] => dst
  | (key, srcVal) :: src' =>
      merge_loop merge_value
        (map_set key (merge_value (map_get key dst) srcVal) dst) src'
  end.

Fixpoint merge_value (dstVal : option gval) (srcVal : gval) : gval :=
  match dstVal, srcVal with
  | Some (GMap dstMap), GMap srcMap => GMap (merge_loop merge_value dstMap srcMap)
  | _, _ => srcVal
  end.

(** [func mergeMap(dst, src map[string]interface{})] *)
Definition mergeMap (dst src : gomap) : gomap := merge_loop merge_value dst src.

(* ================================================================== *)
(** ** The JSON codec ([encoding/json]'s [Marshal] and [Unmarshal])

    [json.Marshal] and [json.Unmarshal] belong to Go's standard library.  They
    are modelled by a concrete printer and parser on the values above: the
    printer emits no white space, escapes ["], [\], newline, carriage return
    and tab, prints a map's entries in the map's own order (Go sorts them,
    which is not observable once the text is parsed again) and prints
    numbers in decimal; the parser accepts white space between tokens, the
    escapes [\" \\ \/ \n \r \t \b \f], integers with an optional minus sign,
    and on a repeated object key keeps the last value, as Go does. *)

Definition c_quote : ascii := ascii_of_nat 34.
Definition c_bslash : ascii := ascii_of_nat 92.
Definition c_nl : ascii := ascii_of_nat 10.
Definition c_cr : ascii := ascii_of_nat 13.
Definition c_tab : ascii := ascii_of_nat 9.
Definition c_space : ascii := ascii_of_nat 32.

Definition escape_char (c : ascii) : list ascii :=
  if Ascii.eqb c c_quote then [c_bslash; c_quote]
  else if Ascii.eqb c c_bslash then [c_bslash; c_bslash]
  else if Ascii.eqb c c_nl then [c_bslash; "n"%char]
  else if Ascii.eqb c c_cr then [c_bslash; "r"%char]
  else if Ascii.eqb c c_tab then [c_bslash; "t"%char]
  else [c].

Fixpoint escape_chars (s : list ascii) : list ascii :=
  match s with
  | [] => []
  | c :: s' => escape_char c ++ escape_chars s'
  end.

(** A string literal: the quotes around the escaped characters. *)
Definition print_string (s : string) : list ascii :=
  c_quote :: escape_chars (list_ascii_of_string s) ++ [c_quote].

Fixpoint print_uint (u : Decimal.uint) : list ascii :=
  match u with
  | Decimal.Nil => []
  | Decimal.D0 u => "0"%char :: print_uint u
  | Decimal.D1 u => "1"%char :: print_uint u
  | Decimal.D2 u => "2"%char :: print_uint u
  | Decimal.D3 u => "3"%char :: print_uint u
  | Decimal.D4 u => "4"%char :: print_uint u
  | Decimal.D5 u => "5"%char :: print_uint u
  | Decimal.D6 u => "6"%char :: print_uint u
  | Decimal.D7 u => "7"%char :: print_uint u
  | Decimal.D8 u => "8"%char :: print_uint u
  | Decimal.D9 u => "9"%char :: print_uint u
  end.

Definition print_number (z : Z) : list ascii :=
  if z <? 0 then "-"%char :: print_uint (N.to_uint (Z.to_N (- z)))
  else print_uint (N.to_uint (Z.to_N z)).

(** The elements of an array, or the members of an object, separated by
    commas. *)
Fixpoint print_elems (pv : gval -> list ascii) (l : list gval) : list ascii :=
  match l with
  | [] => []
  | [v] => pv v
  | v :: l' => pv v ++ ","%char :: print_elems pv l'
  end.

Fixpoint print_members (pv : gval -> list ascii) (m : gomap) : list ascii :=
  match m with
  | [] => []
  | [(k, v)] => print_string k ++ ":"%char :: pv v
  | (k, v) :: m' => print_string k ++ ":"%char :: pv v ++ ","%char :: print_members pv m'
  end.

Fixpoint print_value (v : gval) : list ascii :=
  match v with
  | GNull => list_ascii_of_string "null"
  | GBool true => list_ascii_of_string "true"
  | GBool false => list_ascii_of_string "false"
  | GNum n => print_number n
  | GStr s => print_string s
  | GArr l => "["%char :: print_elems print_value l ++ ["]"%char]
  | GMap m => "{"%char :: print_members print_value m ++ ["}"%char]
  end.

(** [json.Marshal(v)]; marshalling never fails on these values. *)
Definition json_Marshal (v : gval) : string := string_of_list_ascii (print_value v).

Definition is_ws (c : ascii) : bool :=
  Ascii.eqb c c_space || Ascii.eqb c c_tab || Ascii.eqb c c_nl || Ascii.eqb c c_cr.

Fixpoint skip_ws (s : list ascii) : list ascii :=
  match s with
  | c :: s' => if is_ws c then skip_ws s' else s
  | [] => []
  end.

Definition unescape (e : ascii) : option ascii :=
  if Ascii.eqb e c_quote then Some c_quote
  else if Ascii.eqb e c_bslash then Some c_bslash
  else if Ascii.eqb e "/"%char then Some "/"%char
  else if Ascii.eqb e "n"%char then Some c_nl
  else if Ascii.eqb e "r"%char then Some c_cr
  else if Ascii.eqb e "t"%char then Some c_tab
  else if Ascii.eqb e "b"%char then Some (ascii_of_nat 8)
  else if Ascii.eqb e "f"%char then Some (ascii_of_nat 12)
  else None.

(** The characters of a string literal after its opening quote, up to and
    including the closing quote. *)
Fixpoint parse_chars (s : list ascii) : option (list ascii * list ascii) :=
  match s with
  | [] => None
  | c :: s' =>
      if Ascii.eqb c c_quote then Some ([], s')
      else if Ascii.eqb c c_bslash then
        match s' with
        | [] => None
        | e :: s'' =>
            match unescape e, parse_chars s'' with
            | Some c', Some (cs, r) => Some (c' :: cs, r)
            | _, _ => None
            end
        end
      else
        match parse_chars s' with
        | Some (cs, r) => Some (c :: cs, r)
        | None => None
        end
  end.

Definition digit_of (c : ascii) : option (Decimal.uint -> Decimal.uint) :=
  if Ascii.eqb c "0"%char then Some Decimal.D0
  else if Ascii.eqb c "1"%char then Some Decimal.D1
  else if Ascii.eqb c "2"%char then Some Decimal.D2
  else if Ascii.eqb c "3"%char then Some Decimal.D3
  else if Ascii.eqb c "4"%char then Some Decimal.D4
  else if Ascii.eqb c "5"%char then Some Decimal.D5
  else if Ascii.eqb c "6"%char then Some Decimal.D6
  else if Ascii.eqb c "7"%char then Some Decimal.D7
  else if Ascii.eqb c "8"%char then Some Decimal.D8
  else if Ascii.eqb c "9"%char then Some Decimal.D9
  else None.

Fixpoint parse_digits (s : list ascii) : Decimal.uint * list ascii :=
  match s with
  | [] => (Decimal.Nil, [])
  | c :: s' =>
      match digit_of c with
      | Some d => let (u, r) := parse_digits s' in (d u, r)
      | None => (Decimal.Nil, s)
      end
  end.

Definition parse_natural (s : list ascii) : option (N * list ascii) :=
  match parse_digits s with
  | (Decimal.Nil, _) => None
  | (u, r) => Some (N.of_uint u, r)
  end.

Definition parse_number (s : list ascii) : option (gval * list ascii) :=
  match s with
  | "-"%char :: s' =>
      match parse_natural s' with
      | Some (n, r) => Some (GNum (- Z.of_N n), r)
      | None => None
      end
  | _ =>
      match parse_natural s with
      | Some (n, r) => Some (GNum (Z.of_N n), r)
      | None => None
      end
  end.

Fixpoint strip_prefix (p s : list ascii) : option (list ascii) :=
  match p, s with
  | [], _ => Some s
  | c :: p', c' :: s' => if Ascii.eqb c c' then strip_prefix p' s' else None
  | _ :: _, [] => None
  end.

Definition parse_literal (word : string) (v : gval) (s : list ascii)
    : option (gval * list ascii) :=
  match strip_prefix (list_ascii_of_string word) s with
  | Some r => Some (v, r)
  | None => None
  end.

(** Recursive descent; [fuel] bounds the nesting and the number of elements
    and is taken from the length of the input. *)
Fixpoint parse_value (fuel : nat) (s : list ascii) : option (gval * list ascii) :=
  match fuel with
  | O => None
  | S fuel' =>
      match skip_ws s with
      | [] => None
      | c :: r =>
          if Ascii.eqb c "["%char then
            match skip_ws r with
            | c' :: r' => if Ascii.eqb c' "]"%char then Some (GArr [], r')
                          else parse_elems fuel' [] r
            | [] => None
            end
          else if Ascii.eqb c "{"%char then
            match skip_ws r with
            | c' :: r' => if Ascii.eqb c' "}"%char then Some (GMap [], r')
                          else parse_members fuel' [] r
            | [] => None
            end
          else if Ascii.eqb c c_quote then
            match parse_chars r with
            | Some (cs, r') => Some (GStr (string_of_list_ascii cs), r')
            | None => None
            end
          else if Ascii.eqb c "n"%char then parse_literal "null" GNull (c :: r)
          else if Ascii.eqb c "t"%char then parse_literal "true" (GBool true) (c :: r)
          else if Ascii.eqb c "f"%char then parse_literal "false" (GBool false) (c :: r)
          else parse_number (c :: r)
      end
  end
with parse_elems (fuel : nat) (acc : list gval) (s : list ascii)
    : option (gval * list ascii) :=
  match fuel with
  | O => None
  | S fuel' =>
      match parse_value fuel' s with
      | None => None
      | Some (v, r) =>
          match skip_ws r with
          | c :: r' =>
              if Ascii.eqb c ","%char then parse_elems fuel' (acc ++ [v]) r'
              else if Ascii.eqb c "]"%char then Some (GArr (acc ++ [v]), r')
              else None
          | [] => None
          end
      end
  end
with parse_members (fuel : nat) (acc : gomap) (s : list ascii)
    : option (gval * list ascii) :=
  match fuel with
  | O => None
  | S fuel' =>
      match skip_ws s with
      | c :: r =>
          if Ascii.eqb c c_quote then
            match parse_chars r with
            | None => None
            | Some (kcs, r1) =>
                match skip_ws r1 with
                | c1 :: r2 =>
                    if Ascii.eqb c1 ":"%char then
                      match parse_value fuel' r2 with
                      | None => None
                      | Some (v, r3) =>
                          let acc' := map_set (string_of_list_ascii kcs) v acc in
                          match skip_ws r3 with
                          | c3 :: r4 =>
                              if Ascii.eqb c3 ","%char then parse_members fuel' acc' r4
                              else if Ascii.eqb c3 "}"%char then Some (GMap acc', r4)
                              else None
                          | [] => None
                          end
                      end
                    else None
                | [] => None
                end
            end
          else None
      | [] => None
      end
  end.

(** The syntax step of [json.Unmarshal]: a whole text holding one value. *)
Definition json_parse (text : string) : option gval :=
  let s := list_ascii_of_string text in
  match parse_value (length s) s with
  | Some (v, r) => match skip_ws r with [] => Some v | _ => None end
  | None => None
  end.


(** Values as Go builds them: every map has pairwise distinct keys. *)
Fixpoint distinct_keys (m : gomap) : bool :=
  match m with
  | [] => true
  | (k, _) :: m' =>
      match map_get k m' with
      | None => distinct_keys m'
      | Some _ => false
      end
  end.

Fixpoint wf_value (v : gval) : bool :=
  match v with
  | GArr l => forallb wf_value l
  | GMap m => distinct_keys m && forallb (fun '(_, v') => wf_value v') m
  | _ => true
  end.

(* ================================================================== *)
(** ** Lemmas on the codec *)

(** An induction principle for [gval] that goes through its lists. *)
Section gval_induction.
Variable P : gval -> Prop.
Hypothesis P_null : P GNull.
Hypothesis P_bool : forall b, P (GBool b).
Hypothesis P_num : forall n, P (GNum n).
Hypothesis P_str : forall s, P (GStr s).
Hypothesis P_arr : forall l, Forall P l -> P (GArr l).
Hypothesis P_map : forall m, Forall (fun kv => P (snd kv)) m -> P (GMap m).

Fixpoint gval_rect' (v : gval) : P v :=
  match v with
  | GNull => P_null
  | GBool b => P_bool b
  | GNum n => P_num n
  | GStr s => P_str s
  | GArr l =>
      P_arr l ((fix go (l : list gval) : Forall P l :=
                  match l with
                  | [] => List.Forall_nil _
                  | x :: l' => @List.Forall_cons _ P x l' (gval_rect' x) (go l')
                  end) l)
  | GMap m =>
      P_map m ((fix go (m : gomap) : Forall (fun kv => P (snd kv)) m :=
                  match m with
                  | [] => List.Forall_nil _
                  | (k, x) :: m' => @List.Forall_cons _ (fun kv => P (snd kv)) (k, x) m' (gval_rect' x) (go m')
                  end) m)
  end.
End gval_induction.

Lemma parse_chars_escape (cs rest : list ascii) :
  parse_chars (escape_chars cs ++ c_quote :: rest) = Some (cs, rest).
Proof.
  induction cs as [|a cs IH]; [reflexivity|].
  cbn [escape_chars]. unfold escape_char.
  destruct (Ascii.eqb_spec a c_quote) as [->|Hq]; [cbn; now rewrite IH|].
  destruct (Ascii.eqb_spec a c_bslash) as [->|Hb]; [cbn; now rewrite IH|].
  destruct (Ascii.eqb_spec a c_nl) as [->|Hn]; [cbn; now rewrite IH|].
  destruct (Ascii.eqb_spec a c_cr) as [->|Hr]; [cbn; now rewrite IH|].
  destruct (Ascii.eqb_spec a c_tab) as [->|Ht]; [cbn; now rewrite IH|].
  cbn [app parse_chars].
  destruct (Ascii.eqb_spec a c_quote); [contradiction|].
  destruct (Ascii.eqb_spec a c_bslash); [contradiction|].
  now rewrite IH.
Qed.

Definition delimited (rest : list ascii) : Prop :=
  match rest with
  | [] => True
  | c :: _ => digit_of c = None
  end.

Lemma parse_digits_print (u : Decimal.uint) (rest : list ascii) :
  delimited rest -> parse_digits (print_uint u ++ rest) = (u, rest).
Proof.
  intros Hd.
  induction u; cbn [print_uint app parse_digits];
    try (cbn - [parse_digits]; rewrite IHu; reflexivity).
  destruct rest as [|c rest]; [reflexivity|].
  cbn in Hd. cbn [parse_digits]. now rewrite Hd.
Qed.

Lemma to_uint_not_nil (n : N) : N.to_uint n <> Decimal.Nil.
Proof.
  intros H. pose proof (DecimalN.Unsigned.of_to n) as E.
  rewrite H in E. cbn in E. subst n. discriminate H.
Qed.

Definition digit_chars : list ascii :=
  ["0"; "1"; "2"; "3"; "4"; "5"; "6"; "7"; "8"; "9"]%char.

Lemma print_uint_head (n : N) :
  exists c cs, print_uint (N.to_uint n) = c :: cs /\ In c digit_chars.
Proof.
  pose proof (to_uint_not_nil n) as H.
  destruct (N.to_uint n); [contradiction| ..];
    do 2 eexists; split; first [reflexivity | cbn; tauto].
Qed.

Lemma parse_natural_print (n : N) (rest : list ascii) :
  delimited rest -> parse_natural (print_uint (N.to_uint n) ++ rest) = Some (n, rest).
Proof.
  intros Hd. unfold parse_natural. rewrite parse_digits_print by exact Hd.
  pose proof (to_uint_not_nil n) as H.
  destruct (N.to_uint n) eqn:E; [contradiction| ..];
    rewrite <- E, DecimalN.Unsigned.of_to; reflexivity.
Qed.

Lemma parse_number_print (z : Z) (rest : list ascii) :
  delimited rest -> parse_number (print_number z ++ rest) = Some (GNum z, rest).
Proof.
  intros Hd. unfold print_number. destruct (Z.ltb_spec z 0) as [Hz|Hz].
  - cbn [app parse_number]. rewrite parse_natural_print by exact Hd.
    f_equal. f_equal. f_equal. rewrite Z2N.id; lia.
  - destruct (print_uint_head (Z.to_N z)) as (c & cs & E & Hin).
    assert (parse_number (print_uint (N.to_uint (Z.to_N z)) ++ rest)
            = match parse_natural (print_uint (N.to_uint (Z.to_N z)) ++ rest) with
              | Some (n, r) => Some (GNum (Z.of_N n), r)
              | None => None
              end) as ->.
    { rewrite E. cbn in Hin.
      repeat (destruct Hin as [<-|Hin]; [reflexivity|]); contradiction. }
    rewrite parse_natural_print by exact Hd. rewrite Z2N.id; [reflexivity|lia].
Qed.

Definition head_chars : list ascii :=
  ["n"; "t"; "f"; "["; "{"; "-"]%char ++ digit_chars ++ [c_quote].

Lemma head_chars_spec (c : ascii) :
  In c head_chars ->
  is_ws c = false /\ Ascii.eqb c "]"%char = false /\ Ascii.eqb c "}"%char = false.
Proof.
  intros H. cbn in H.
  repeat (destruct H as [<-|H]; [repeat split; reflexivity|]). contradiction.
Qed.

Lemma print_number_head (z : Z) :
  exists c cs, print_number z = c :: cs /\ In c ("-"%char :: digit_chars).
Proof.
  unfold print_number. destruct (z <? 0).
  - do 2 eexists. split; [reflexivity|left; reflexivity].
  - destruct (print_uint_head (Z.to_N z)) as (c & cs & -> & H).
    exists c, cs. split; [reflexivity|right; exact H].
Qed.

Lemma print_value_head (v : gval) :
  exists c cs, print_value v = c :: cs /\ In c head_chars.
Proof.
  destruct v as [| [|] |z|s|l|m]; cbn [print_value];
    try (do 2 eexists; split; [reflexivity|cbn; tauto]).
  destruct (print_number_head z) as (c & cs & -> & H).
  exists c, cs. split; [reflexivity|]. unfold head_chars. cbn in H |- *. tauto.
Qed.

Lemma print_elems_cons (pv : gval -> list ascii) (v : gval) (l : list gval) :
  l <> [] -> print_elems pv (v :: l) = pv v ++ ","%char :: print_elems pv l.
Proof. destruct l; [contradiction|reflexivity]. Qed.

Lemma print_members_cons (pv : gval -> list ascii) (k : string) (v : gval) (m : gomap) :
  m <> [] ->
  print_members pv ((k, v) :: m) = print_string k ++ ":"%char :: pv v ++ ","%char :: print_members pv m.
Proof. destruct m; [contradiction|reflexivity]. Qed.

Lemma print_elems_head (l : list gval) :
  l <> [] -> exists c cs, print_elems print_value l = c :: cs /\ In c head_chars.
Proof.
  intros Hl. destruct l as [|v l]; [contradiction|].
  destruct (print_value_head v) as (c & cs & E & H).
  destruct l as [|v2 l].
  - exists c, cs. split; [exact E|exact H].
  - rewrite print_elems_cons by discriminate. rewrite E.
    do 2 eexists. split; [reflexivity|exact H].
Qed.

Lemma length_print_value (v : gval) : (1 <= length (print_value v))%nat.
Proof. destruct (print_value_head v) as (c & cs & -> & _). cbn. lia. Qed.

Lemma map_set_fresh (k : string) (v : gval) (m : gomap) :
  map_get k m = None -> map_set k v m = m ++ [(k, v)].
Proof.
  induction m as [|[k' v'] m IH]; [reflexivity|]. cbn.
  destruct (String.eqb k k'); [discriminate|]. intros H. now rewrite IH.
Qed.

Lemma distinct_keys_fresh (acc m : gomap) (k : string) (v : gval) :
  distinct_keys (acc ++ (k, v) :: m) = true -> map_get k acc = None.
Proof.
  induction acc as [|[k' v'] acc IH]; [reflexivity|]. cbn.
  destruct (map_get k' (acc ++ (k, v) :: m)) eqn:E; [discriminate|].
  intros H. destruct (String.eqb_spec k k') as [->|Hne]; [|now apply IH].
  exfalso. clear -E. induction acc as [|[k2 v2] acc IH]; cbn in E.
  - now rewrite String.eqb_refl in E.
  - destruct (String.eqb k' k2); [discriminate|auto].
Qed.

Definition roundtrips (v : gval) : Prop :=
  wf_value v = true -> forall fuel rest,
  (length (print_value v) <= fuel)%nat -> delimited rest ->
  parse_value fuel (print_value v ++ rest) = Some (v, rest).

Lemma parse_print_elems (l : list gval) :
  Forall roundtrips l -> forallb wf_value l = true -> l <> [] ->
  forall fuel acc rest, (length (print_elems print_value l) < fuel)%nat ->
  parse_elems fuel acc (print_elems print_value l ++ "]"%char :: rest)
  = Some (GArr (acc ++ l), rest).
Proof.
  induction 1 as [|v l Hv Hl IH]; intros Hwf Hne fuel acc rest Hlen; [contradiction|].
  cbn [forallb] in Hwf. apply andb_prop in Hwf as [Hwv Hwl].
  destruct fuel as [|fuel]; [lia|].
  destruct l as [|v2 l].
  - cbn [print_elems] in Hlen |- *. cbn [parse_elems].
    rewrite Hv by (cbn; auto; lia). reflexivity.
  - rewrite print_elems_cons in Hlen |- * by discriminate.
    rewrite <- app_assoc. cbn [app]. cbn [parse_elems].
    rewrite length_app in Hlen. cbn [length] in Hlen.
    rewrite Hv by (cbn; auto; lia). cbn [skip_ws].
    change (is_ws ","%char) with false. change (Ascii.eqb "," ",")%char with true.
    cbv iota beta zeta.
    rewrite IH by (auto; try discriminate; pose proof (length_print_value v); lia).
    now rewrite <- app_assoc.
Qed.

Lemma skip_ws_nonws (c : ascii) (s : list ascii) :
  is_ws c = false -> skip_ws (c :: s) = c :: s.
Proof. intros H. cbn. now rewrite H. Qed.

(** One member of an object: the key, the colon and the value. *)
Lemma parse_members_key (fuel : nat) (acc : gomap) (k : string) (s : list ascii) :
  parse_members (S fuel) acc (print_string k ++ ":"%char :: s) =
  match parse_value fuel s with
  | None => None
  | Some (v, r3) =>
      match skip_ws r3 with
      | c3 :: r4 =>
          if Ascii.eqb c3 ","%char then parse_members fuel (map_set k v acc) r4
          else if Ascii.eqb c3 "}"%char then Some (GMap (map_set k v acc), r4)
          else None
      | [] => None
      end
  end.
Proof.
  unfold print_string. cbn [app]. rewrite <- app_assoc. cbn [app].
  cbn [parse_members]. rewrite skip_ws_nonws by reflexivity. rewrite Ascii.eqb_refl.
  rewrite parse_chars_escape, skip_ws_nonws by reflexivity.
  rewrite Ascii.eqb_refl, string_of_list_ascii_of_string. reflexivity.
Qed.

Lemma parse_print_members (m : gomap) :
  Forall (fun kv => roundtrips (snd kv)) m ->
  forallb (fun '(_, v') => wf_value v') m = true -> m <> [] ->
  forall fuel acc rest, distinct_keys (acc ++ m) = true ->
  (length (print_members print_value m) < fuel)%nat ->
  parse_members fuel acc (print_members print_value m ++ "}"%char :: rest)
  = Some (GMap (acc ++ m), rest).
Proof.
  induction 1 as [|[k v] m Hv Hm IH]; intros Hwf Hne fuel acc rest Hd Hlen; [contradiction|].
  cbn [forallb] in Hwf. apply andb_prop in Hwf as [Hwv Hwm]. cbn [snd] in Hv.
  destruct fuel as [|fuel]; [lia|].
  pose proof (distinct_keys_fresh acc m k v Hd) as Hfresh.
  destruct m as [|kv2 m].
  - cbn [print_members] in Hlen |- *. rewrite length_app in Hlen. cbn [length] in Hlen.
    rewrite <- app_assoc. cbn [app]. rewrite parse_members_key.
    rewrite Hv by (cbn; auto; lia). rewrite skip_ws_nonws by reflexivity.
    cbn -[map_set]. now rewrite map_set_fresh by exact Hfresh.
  - rewrite print_members_cons in Hlen |- * by discriminate.
    repeat (rewrite length_app in Hlen; cbn [length] in Hlen).
    rewrite <- app_assoc. cbn [app]. rewrite parse_members_key.
    rewrite <- app_assoc. cbn [app].
    rewrite Hv by (cbn; auto; lia). rewrite skip_ws_nonws by reflexivity.
    cbn -[map_set parse_members print_members].
    rewrite map_set_fresh by exact Hfresh.
    rewrite IH; [now rewrite <- app_assoc|auto|discriminate|now rewrite <- app_assoc|].
    pose proof (length_print_value v). lia.
Qed.

Lemma parse_value_number (fuel : nat) (c : ascii) (s : list ascii) :
  In c ("-"%char :: digit_chars) -> parse_value (S fuel) (c :: s) = parse_number (c :: s).
Proof.
  intros H. cbn in H. repeat (destruct H as [<-|H]; [reflexivity|]). contradiction.
Qed.

Lemma parse_value_string (fuel : nat) (s : list ascii) :
  parse_value (S fuel) (c_quote :: s)
  = match parse_chars s with
    | Some (cs, r') => Some (GStr (string_of_list_ascii cs), r')
    | None => None
    end.
Proof. reflexivity. Qed.

Lemma parse_value_array (fuel : nat) (s r : list ascii) (c : ascii) :
  skip_ws s = c :: r -> Ascii.eqb c "]"%char = false ->
  parse_value (S fuel) ("["%char :: s) = parse_elems fuel [] s.
Proof.
  intros H1 H2. cbn [parse_value]. rewrite skip_ws_nonws by reflexivity.
  rewrite H1, H2. reflexivity.
Qed.

Lemma parse_value_object (fuel : nat) (s r : list ascii) (c : ascii) :
  skip_ws s = c :: r -> Ascii.eqb c "}"%char = false ->
  parse_value (S fuel) ("{"%char :: s) = parse_members fuel [] s.
Proof.
  intros H1 H2. cbn [parse_value]. rewrite skip_ws_nonws by reflexivity.
  rewrite H1, H2. reflexivity.
Qed.

Lemma parse_print_value (v : gval) : roundtrips v.
Proof.
  induction v as [| b | z | s | l IH | m IH] using gval_rect';
    intros Hwf fuel rest Hlen Hd; destruct fuel as [|fuel];
    try (match goal with
         | H : (length (print_value ?v) <= 0)%nat |- _ =>
             pose proof (length_print_value v); lia
         end).
  - reflexivity.
  - destruct b; reflexivity.
  - cbn [print_value]. destruct (print_number_head z) as (c & cs & E & Hin).
    rewrite E. cbn [app]. rewrite parse_value_number by exact Hin.
    change (c :: cs ++ rest) with ((c :: cs) ++ rest). rewrite <- E.
    now apply parse_number_print.
  - cbn [print_value]. unfold print_string. cbn [app]. rewrite <- app_assoc. cbn [app].
    rewrite parse_value_string, parse_chars_escape, string_of_list_ascii_of_string.
    reflexivity.
  - destruct l as [|v l]; [reflexivity|].
    cbn [print_value] in Hlen |- *. cbn [length] in Hlen. rewrite length_app in Hlen.
    cbn [length] in Hlen. cbn [wf_value] in Hwf. cbn [app]. rewrite <- app_assoc. cbn [app].
    destruct (print_elems_head (v :: l)) as (c & cs & E & Hin); [discriminate|].
    destruct (head_chars_spec c Hin) as (Hws & Hb & _).
    rewrite (parse_value_array fuel _ (cs ++ "]"%char :: rest) c);
      [| rewrite E; cbn [app]; now apply skip_ws_nonws | exact Hb].
    rewrite parse_print_elems by (auto; try discriminate; lia). reflexivity.
  - destruct m as [|[k v] m]; [reflexivity|].
    cbn [print_value] in Hlen |- *. cbn [length] in Hlen. rewrite length_app in Hlen.
    cbn [length] in Hlen. cbn [wf_value] in Hwf. apply andb_prop in Hwf as [Hdk Hwm].
    cbn [app]. rewrite <- app_assoc. cbn [app].
    assert (exists cs, print_members print_value ((k, v) :: m) = c_quote :: cs) as [cs E].
    { destruct m; cbn; eexists; reflexivity. }
    rewrite (parse_value_object fuel _ (cs ++ "}"%char :: rest) c_quote);
      [| rewrite E; cbn [app]; now apply skip_ws_nonws | reflexivity].
    rewrite parse_print_members by (auto; try discriminate; lia). reflexivity.
Qed.

(** The codec round trip: [json.Unmarshal] reads back what [json.Marshal]
    wrote. *)
Lemma json_parse_Marshal (v : gval) :
  wf_value v = true -> json_parse (json_Marshal v) = Some v.
Proof.
  intros Hwf. unfold json_parse, json_Marshal.
  rewrite list_ascii_of_string_of_list_ascii.
  rewrite <- (app_nil_r (print_value v)) at 2.
  rewrite parse_print_value by (auto; exact I).
  reflexivity.
Qed.

Lemma map_get_set (k k' : string) (v : gval) (m : gomap) :
  map_get k (map_set k' v m) = if String.eqb k k' then Some v else map_get k m.
Proof.
  induction m as [|[k2 v2] m IH]; cbn.
  - reflexivity.
  - destruct (String.eqb_spec k' k2) as [->|Hne]; cbn.
    + destruct (String.eqb k k2); reflexivity.
    + rewrite IH. destruct (String.eqb_spec k k') as [->|]; [|reflexivity].
      destruct (String.eqb_spec k' k2); [contradiction|reflexivity].
Qed.

Lemma distinct_keys_set (k : string) (v : gval) (m : gomap) :
  distinct_keys m = true -> distinct_keys (map_set k v m) = true.
Proof.
  induction m as [|[k2 v2] m IH]; cbn; [reflexivity|].
  destruct (map_get k2 m) eqn:E; [discriminate|]. intros H.
  destruct (String.eqb_spec k k2) as [->|Hne]; cbn.
  - now rewrite E.
  - rewrite map_get_set. destruct (String.eqb_spec k2 k) as [->|]; [contradiction|].
    rewrite E. now apply IH.
Qed.

Lemma values_wf_set (k : string) (v : gval) (m : gomap) :
  forallb (fun '(_, v') => wf_value v') m = true -> wf_value v = true ->
  forallb (fun '(_, v') => wf_value v') (map_set k v m) = true.
Proof.
  induction m as [|[k2 v2] m IH]; cbn; intros Hm Hv; [now rewrite Hv|].
  apply andb_prop in Hm as [H2 Hm].
  destruct (String.eqb k k2); cbn; rewrite ?Hv, ?H2, ?Hm; auto.
Qed.

Lemma parse_number_num (s r : list ascii) (v : gval) :
  parse_number s = Some (v, r) -> wf_value v = true.
Proof.
  unfold parse_number. intros H.
  repeat match goal with
         | H : match ?x with _ => _ end = Some _ |- _ => destruct x
         | H : Some _ = Some _ |- _ => injection H as <- <-; reflexivity
         | H : None = Some _ |- _ => discriminate H
         end.
Qed.

Lemma parse_literal_val (w : string) (v0 v : gval) (s r : list ascii) :
  parse_literal w v0 s = Some (v, r) -> v = v0.
Proof. unfold parse_literal. destruct (strip_prefix _ s); congruence. Qed.

(** Every value the parser produces is well formed: [map_set] keeps the keys
    of an object distinct. *)
Lemma parse_wf (fuel : nat) :
  (forall s v r, parse_value fuel s = Some (v, r) -> wf_value v = true) /\
  (forall acc s v r, forallb wf_value acc = true ->
     parse_elems fuel acc s = Some (v, r) -> wf_value v = true) /\
  (forall acc s v r, distinct_keys acc = true ->
     forallb (fun '(_, v') => wf_value v') acc = true ->
     parse_members fuel acc s = Some (v, r) -> wf_value v = true).
Proof.
  induction fuel as [|fuel (IHv & IHe & IHm)];
    [repeat split; intros; discriminate|].
  repeat split.
  - intros s v r H. cbn [parse_value] in H.
    destruct (skip_ws s) as [|c r0]; [discriminate|].
    destruct (Ascii.eqb c "["%char).
    { destruct (skip_ws r0) as [|c' r']; [discriminate|].
      destruct (Ascii.eqb c' "]"%char); [now injection H as <- <-|].
      exact (IHe [] _ _ _ eq_refl H). }
    destruct (Ascii.eqb c "{"%char).
    { destruct (skip_ws r0) as [|c' r']; [discriminate|].
      destruct (Ascii.eqb c' "}"%char); [now injection H as <- <-|].
      exact (IHm [] _ _ _ eq_refl eq_refl H). }
    destruct (Ascii.eqb c c_quote).
    { destruct (parse_chars r0) as [[cs r']|]; [|discriminate].
      now injection H as <- <-. }
    destruct (Ascii.eqb c "n"%char); [now apply parse_literal_val in H as ->|].
    destruct (Ascii.eqb c "t"%char); [now apply parse_literal_val in H as ->|].
    destruct (Ascii.eqb c "f"%char); [now apply parse_literal_val in H as ->|].
    now apply parse_number_num in H.
  - intros acc s v r Hacc H. cbn [parse_elems] in H.
    destruct (parse_value fuel s) as [[v1 r1]|] eqn:E1; [|discriminate].
    apply IHv in E1.
    assert (forallb wf_value (acc ++ [v1]) = true) as Hacc'.
    { rewrite forallb_app. cbn. now rewrite Hacc, E1. }
    destruct (skip_ws r1) as [|c r2]; [discriminate|].
    destruct (Ascii.eqb c ","%char); [eapply IHe; [exact Hacc'|exact H]|].
    destruct (Ascii.eqb c "]"%char); [|discriminate].
    injection H as <- <-. exact Hacc'.
  - intros acc s v r Hd Hacc H. cbn [parse_members] in H.
    destruct (skip_ws s) as [|c r0]; [discriminate|].
    destruct (Ascii.eqb c c_quote); [|discriminate].
    destruct (parse_chars r0) as [[kcs r1]|]; [|discriminate].
    destruct (skip_ws r1) as [|c1 r2]; [discriminate|].
    destruct (Ascii.eqb c1 ":"%char); [|discriminate].
    destruct (parse_value fuel r2) as [[v1 r3]|] eqn:E1; [|discriminate].
    apply IHv in E1.
    pose proof (distinct_keys_set (string_of_list_ascii kcs) v1 acc Hd) as Hd'.
    pose proof (values_wf_set (string_of_list_ascii kcs) v1 acc Hacc E1) as Hacc'.
    destruct (skip_ws r3) as [|c3 r4]; [discriminate|].
    destruct (Ascii.eqb c3 ","%char); [eapply IHm; [exact Hd'|exact Hacc'|exact H]|].
    destruct (Ascii.eqb c3 "}"%char); [|discriminate].
    injection H as <- <-. cbn. now rewrite Hd', Hacc'.
Qed.

Lemma json_parse_wf (text : string) (v : gval) :
  json_parse text = Some v -> wf_value v = true.
Proof.
  unfold json_parse. intros H.
  destruct (parse_value _ _) as [[v' r]|] eqn:E; [|discriminate].
  destruct (skip_ws r); [|discriminate]. injection H as <-.
  exact (proj1 (parse_wf _) _ _ _ E).
Qed.

(* ================================================================== *)
(** ** [overrideJSON] *)

(** Outcome of a Go call: a value, a returned [error], or a run-time panic. *)
Inductive go_result (A : Type) : Type :=
| Ok (a : A)
| Err (msg : string)
| Panic (msg : string).
Arguments Ok {A} a.
Arguments Err {A} msg.
Arguments Panic {A} msg.

(** [var original map[string]interface{}; json.Unmarshal(jsonData, &original)]:
    a syntax error or a value of another type is an error; JSON [null] leaves
    [original] as the nil map ([None]); an object gives a map. *)
Definition unmarshal_map (jsonData : string) : go_result (option gomap) :=
  match json_parse jsonData with
  | None => Err "invalid character"
  | Some GNull => Ok None
  | Some (GMap m) => Ok (Some m)
  | Some _ => Err "cannot unmarshal into Go value of type map[string]interface {}"
  end.

(** [mergeMap] on a nil [dst] map: reading a nil map is allowed, writing an
    entry panics, so any key in [src] panics. *)
Definition mergeMap_nil (src : gomap) : go_result unit :=
  match src with
  | [] => Ok tt
  | _ :: _ => Panic "assignment to entry in nil map"
  end.

(** [func overrideJSON(jsonData []byte, overrides map[string]interface{}) ([]byte, error)] *)
Definition overrideJSON (jsonData : string) (overrides : gomap) : go_result string :=
  match unmarshal_map jsonData with
  | Err e => Err ("failed to unmarshal original JSON: " ++ e)
  | Panic p => Panic p
  | Ok None =>
      match mergeMap_nil overrides with
      | Ok _ => Ok (json_Marshal GNull)
      | Err e => Err e
      | Panic p => Panic p
      end
  | Ok (Some original) => Ok (json_Marshal (GMap (mergeMap original overrides)))
  end.

(* ================================================================== *)
(** ** Lemmas on [mergeMap] *)

Lemma merge_value_eq (dstVal : option gval) (srcVal : gval) :
  merge_value dstVal srcVal =
  match srcVal, dstVal with
  | GMap srcMap, Some (GMap dstMap) => GMap (mergeMap dstMap srcMap)
  | _, _ => srcVal
  end.
Proof. destruct dstVal as [[]|], srcVal; reflexivity. Qed.

Lemma mergeMap_cons (dst src : gomap) (key : string) (srcVal : gval) :
  mergeMap dst ((key, srcVal) :: src) =
  mergeMap (map_set key (merge_value (map_get key dst) srcVal) dst) src.
Proof. reflexivity. Qed.

(** Lookup in a merged map, key by key. *)
Lemma mergeMap_lookup (dst src : gomap) (k : string) :
  distinct_keys src = true ->
  map_get k (mergeMap dst src) =
  match map_get k src with
  | None => map_get k dst
  | Some srcVal => Some (merge_value (map_get k dst) srcVal)
  end.
Proof.
  revert dst. induction src as [|[k' sv] src IH]; intros dst Hd; [reflexivity|].
  cbn [distinct_keys] in Hd. destruct (map_get k' src) eqn:Ek'; [discriminate|].
  rewrite mergeMap_cons, IH by exact Hd. cbn [map_get].
  rewrite map_get_set. destruct (String.eqb_spec k k') as [->|Hne].
  - now rewrite Ek'.
  - destruct (map_get k src); reflexivity.
Qed.

Lemma map_get_wf (k : string) (m : gomap) (v : gval) :
  forallb (fun '(_, v') => wf_value v') m = true -> map_get k m = Some v -> wf_value v = true.
Proof.
  induction m as [|[k' v'] m IH]; cbn; [discriminate|].
  intros H. apply andb_prop in H as [H1 H2].
  destruct (String.eqb k k'); [congruence|auto].
Qed.

Definition opt_wf (o : option gval) : bool :=
  match o with Some v => wf_value v | None => true end.

Lemma merge_value_wf (sv : gval) :
  forall dv, opt_wf dv = true -> wf_value sv = true -> wf_value (merge_value dv sv) = true.
Proof.
  induction sv as [| | | | l _ | src IH] using gval_rect'; intros dv Hdv Hsv;
    rewrite merge_value_eq; auto.
  destruct dv as [[| | | | |dst]|]; auto. cbn in Hdv, Hsv |- *.
  apply andb_prop in Hdv as [Hdd Hdvs]. apply andb_prop in Hsv as [Hsd Hsvs].
  clear Hsd. unfold mergeMap.
  revert dst Hdd Hdvs. induction IH as [|[k v] src Hv _ IHs]; intros dst Hdd Hdvs;
    cbn [merge_loop]; [now rewrite Hdd, Hdvs|].
  cbn in Hsvs. apply andb_prop in Hsvs as [Hwv Hsvs]. apply IHs; auto.
  - now apply distinct_keys_set.
  - apply values_wf_set; [exact Hdvs|]. apply Hv; [|exact Hwv].
    destruct (map_get k dst) eqn:E; [|reflexivity]. cbn. exact (map_get_wf _ _ _ Hdvs E).
Qed.

Lemma mergeMap_wf (dst src : gomap) :
  wf_value (GMap dst) = true -> wf_value (GMap src) = true ->
  wf_value (GMap (mergeMap dst src)) = true.
Proof.
  intros Hd Hs.
  pose proof (merge_value_wf (GMap src) (Some (GMap dst)) Hd Hs) as H.
  exact H.
Qed.

(** The one-character string made of a double quote. *)
Definition dq : string := String c_quote EmptyString.

(* ================================================================== *)
(** ** [path/filepath] (Unix separator) *)

Definition c_slash : ascii := "/"%char.
Definition c_dot : ascii := "."%char.

(** Split a path at every separator. *)
Fixpoint split_slash (cur : list ascii) (p : list ascii) : list (list ascii) :=
  match p with
  | [] => [rev cur]
  | c :: p' => if Ascii.eqb c c_slash then rev cur :: split_slash [] p'
               else split_slash (c :: cur) p'
  end.

Definition dotdot : list ascii := [c_dot; c_dot].

Definition list_ascii_eqb (a b : list ascii) : bool :=
  String.eqb (string_of_list_ascii a) (string_of_list_ascii b).

(** One path element of [Clean]'s loop, on the stack of elements already
    written (last written first): empty and "." elements are dropped; ".."
    removes the last element unless it is "..", and past the root of a
    rooted path it is dropped, otherwise it is kept. *)
Definition clean_step (rooted : bool) (out : list (list ascii)) (elem : list ascii)
  : list (list ascii) :=
  if list_ascii_eqb elem [] || list_ascii_eqb elem [c_dot] then out
  else if list_ascii_eqb elem dotdot then
    match out with
    | e :: out' => if list_ascii_eqb e dotdot then dotdot :: out else out'
    | [] => if rooted then [] else [dotdot]
    end
  else elem :: out.

Fixpoint join_slash (l : list (list ascii)) : list ascii :=
  match l with
  | [] => []
  | [e] => e
  | e :: l' => e ++ c_slash :: join_slash l'
  end.

(** [filepath.Clean] *)
Definition filepath_Clean (path : string) : string :=
  let p := list_ascii_of_string path in
  match p with
  | [] => "."
  | c0 :: _ =>
      let rooted := Ascii.eqb c0 c_slash in
      let elems := rev (fold_left (clean_step rooted) (split_slash [] p) []) in
      let out := (if rooted then [c_slash] else []) ++ join_slash elems in
      match out with
      | [] => "."
      | _ => string_of_list_ascii out
      end
  end.

Fixpoint join_sep (l : list string) : string :=
  match l with
  | [] => ""
  | [e] => e
  | e :: l' => e ++ "/" ++ join_sep l'
  end.

(** [filepath.Join(elem...)]: the elements from the first non-empty one,
    joined by separators, then cleaned; "" when all are empty. *)
Fixpoint filepath_Join (elem : list string) : string :=
  match elem with
  | [] => ""
  | e :: rest => if String.eqb e "" then filepath_Join rest
                 else filepath_Clean (join_sep (e :: rest))
  end.

(** [filepath.Ext]: the suffix from the last dot of the final element, or "". *)
Fixpoint ext_rev (rp : list ascii) (acc : list ascii) : list ascii :=
  match rp with
  | [] => []
  | c :: rp' => if Ascii.eqb c c_slash then []
                else if Ascii.eqb c c_dot then c :: acc
                else ext_rev rp' (c :: acc)
  end.

Definition filepath_Ext (path : string) : string :=
  string_of_list_ascii (ext_rev (rev (list_ascii_of_string path)) []).

(* ================================================================== *)
(** ** File output *)

(** The files written so far, in order: (path, contents). *)
Definition fs_log := list (string * string).

(** Computations that write files and may return an error or panic. *)
Definition M (A : Type) : Type := fs_log -> go_result A * fs_log.

#[global] Instance M_ret : MRet M := fun A a fs => (Ok a, fs).
#[global] Instance M_bind : MBind M := fun A B k m fs =>
  match m fs with
  | (Ok a, fs') => k a fs'
  | (Err e, fs') => (Err e, fs')
  | (Panic p, fs') => (Panic p, fs')
  end.

Definition fail {A} (e : string) : M A := fun fs => (Err e, fs).
Definition panic {A} (p : string) : M A := fun fs => (Panic p, fs).

Definition lift {A} (r : go_result A) : M A :=
  match r with Ok a => mret a | Err e => fail e | Panic p => panic p end.

(** [os.MkdirAll(filepath.Dir(dst), 0755)] then [os.WriteFile(dst, data, 0644)];
    file-system failures are not modelled, the write is recorded. *)
Definition os_WriteFile (path data : string) : M unit :=
  fun fs => (Ok tt, fs ++ [(path, data)]).

(** [type output struct { dst string; ... }] *)
Record output := { dst : string }.

(* ================================================================== *)
(** ** [json.MarshalIndent(v, "", "\t")] *)

(** Newline followed by [depth] copies of the indent (prefix is empty). *)
Definition newline_indent (depth : nat) : list ascii := c_nl :: repeat c_tab depth.

(** [json.Indent]'s pass over compact JSON: bytes inside strings are copied,
    an opening brace or bracket delays its newline so that empty objects and
    arrays stay [{}] and [[]], a comma is followed by a newline, a colon by a
    space, and a closing brace or bracket goes on its own line. *)
Fixpoint appendIndent (depth : nat) (needIndent inStr esc : bool) (src : list ascii)
  : list ascii :=
  match src with
  | [] => []
  | c :: rest =>
      if inStr then
        c :: (if esc then appendIndent depth needIndent true false rest
              else if Ascii.eqb c c_bslash then appendIndent depth needIndent true true rest
              else if Ascii.eqb c c_quote then appendIndent depth needIndent false false rest
              else appendIndent depth needIndent true false rest)
      else
        let isClose := Ascii.eqb c "}"%char || Ascii.eqb c "]"%char in
        let '(pre, d, need) :=
          if needIndent && negb isClose then (newline_indent (S depth), S depth, false)
          else ([], depth, needIndent) in
        if Ascii.eqb c c_quote then pre ++ c :: appendIndent d need true false rest
        else if Ascii.eqb c "{"%char || Ascii.eqb c "["%char then
          pre ++ c :: appendIndent d true false false rest
        else if Ascii.eqb c ","%char then
          pre ++ c :: newline_indent d ++ appendIndent d need false false rest
        else if Ascii.eqb c ":"%char then
          pre ++ c :: c_space :: appendIndent d need false false rest
        else if isClose then
          if need then c :: appendIndent d false false false rest
          else newline_indent (pred d) ++ c :: appendIndent (pred d) false false false rest
        else pre ++ c :: appendIndent d need false false rest
  end.

(** [json.MarshalIndent(v, "", "\t")]: [json.Marshal] then the indent pass. *)
Definition json_MarshalIndent (v : gval) : string :=
  string_of_list_ascii (appendIndent 0 false false false (print_value v)).

(* ================================================================== *)
(** ** [output.WriteFile], [output.WriteBatch], [output.Exists] *)

(** The dynamic type of [data] in [WriteFile], tested in the source's order:
    [[]byte], [string], [sszObject] (the result of its [MarshalSSZ]),
    [encObject] (its [Encode] method), [func() ([]byte, error)] (the result of
    calling it), and any other value, here a JSON-like value. *)
Inductive artifact : Type :=
| ABytes (raw : string)
| AString (raw : string)
| ASSZ (marshalSSZ : go_result string)
| AEnc (encode : output -> M unit)
| AFunc (encFn : go_result string)
| AValue (v : gval).

Section Output.

(** [yaml.Marshal] (gopkg.in/yaml.v2), an external library. *)
Variable yaml_Marshal : gval -> go_result string.

(** [func (o *output) WriteFile(dst string, data interface{}) error] *)
Definition WriteFile (o : output) (dst0 : string) (data : artifact) : M unit :=
  let dst := filepath_Join [o.(dst); dst0] in
  match data with
  | ABytes raw => os_WriteFile dst raw
  | AString raw => os_WriteFile dst raw
  | ASSZ r => dataRaw ← lift r; os_WriteFile dst dataRaw
  | AEnc encode => encode {| dst := dst |}
  | AFunc r => dataRaw ← lift r; os_WriteFile dst dataRaw
  | AValue v =>
      let ext := filepath_Ext dst in
      if String.eqb ext ".json" then os_WriteFile dst (json_MarshalIndent v)
      else if String.eqb ext ".yaml" then
        dataRaw ← lift (yaml_Marshal v); os_WriteFile dst dataRaw
      else fail ("unsupported file extension: " ++ ext)
  end.

(** [func (o *output) WriteBatch(data map[string]interface{}) error]; the
    entries are written in the list's order (Go's map order is unspecified),
    stopping at the first error. *)
Fixpoint WriteBatch (o : output) (data : list (string * artifact)) : M unit :=
  match data with
  | [] => mret tt
  | (dst0, d) :: rest => WriteFile o dst0 d;; WriteBatch o rest
  end.

End Output.

(** [func (o *output) Exists(path string) bool]: [os.Stat(filepath.Join(o.dst))]
    succeeds; [stat] says which paths exist on the file system. *)
Definition Exists (stat : string -> bool) (o : output) (path : string) : bool :=
  stat (filepath_Join [o.(dst)]).

(** [func (o *output) Remove(path string) error]: [os.RemoveAll(filepath.Join(o.dst, path))],
    with [removeAll] the file system's outcome. *)
Definition Remove (removeAll : string -> go_result unit) (o : output) (path : string)
  : go_result unit :=
  removeAll (filepath_Join [o.(dst); path]).

(* ================================================================== *)
(** ** [lighthouseKeystore.Encode] *)

(** [hex.EncodeToString]: two lowercase hex digits per byte. *)
Definition hex_digit (n : nat) : ascii := nth n (list_ascii_of_string "0123456789abcdef") "0"%char.

Fixpoint hex_EncodeToString (b : string) : string :=
  match b with
  | EmptyString => EmptyString
  | String c b' =>
      String (hex_digit (nat_of_ascii c / 16))
        (String (hex_digit (nat_of_ascii c mod 16)) (hex_EncodeToString b'))
  end.

(** [s[n:]] *)
Fixpoint string_drop (n : nat) (s : string) : string :=
  match n, s with
  | O, _ => s
  | S n', String _ s' => string_drop n' s'
  | S _, EmptyString => EmptyString
  end.

(** [var secret = "secret"] *)
Definition secret : string := "secret".

Section Keystore.

Variable yaml_Marshal : gval -> go_result string.
(** BLS secret keys with [key.Marshal()] and [key.PublicKey().Marshal()]. *)
Variable SecretKey : Type.
Variable key_Marshal : SecretKey -> string.
Variable pubkey_Marshal : SecretKey -> string.
(** [keystorev4.New().Encrypt(secret, passphrase)] for the [i]-th key (its
    salt and IV are random), and [uuid.GenerateUUID()] for the [i]-th key
    (its error is discarded, so any string, "" included). *)
Variable Encrypt : nat -> string -> string -> go_result gomap.
Variable GenerateUUID : nat -> string.

(** One iteration of the loop over [l.privKeys], for the [i]-th key. *)
Definition encode_key (o : output) (i : nat) (key : SecretKey) : M unit :=
  cryptoFields ← lift (Encrypt i (key_Marshal key) secret);
  let id := GenerateUUID i in
  let pubKeyHex := ("0x" ++ hex_EncodeToString (pubkey_Marshal key))%string in
  let item := [("crypto", GMap cryptoFields);
               ("uuid", GStr id);
               ("pubkey", GStr (string_drop 2 pubKeyHex));
               ("version", GNum 4);
               ("description", GStr "")] in
  let valJSON := json_MarshalIndent (GMap item) in
  WriteBatch yaml_Marshal o
    [(("validators/" ++ pubKeyHex ++ "/voting-keystore.json")%string, ABytes valJSON);
     (("secrets/" ++ pubKeyHex)%string, AString secret)].

Fixpoint encode_keys (o : output) (i : nat) (privKeys : list SecretKey) : M unit :=
  match privKeys with
  | [] => mret tt
  | key :: rest => encode_key o i key;; encode_keys o (S i) rest
  end.

(** [func (l *lighthouseKeystore) Encode(o *output) error] *)
Definition lighthouseKeystore_Encode (privKeys : list SecretKey) (o : output) : M unit :=
  encode_keys o 0 privKeys.

(** The keystore document as the amended claim describes it. *)
Definition keystore_document (cryptoFields : gomap) (id pubkey : string) : gomap :=
  [("crypto", GMap cryptoFields); ("uuid", GStr id); ("pubkey", GStr pubkey);
   ("version", GNum 4); ("description", GStr "")].

(** The two files the amended claim expects for the [i]-th key. *)
Definition keystore_files (o : output) (i : nat) (key : SecretKey) : fs_log :=
  let pk := hex_EncodeToString (pubkey_Marshal key) in
  match Encrypt i (key_Marshal key) secret with
  | Ok cryptoFields =>
      [(filepath_Join [o.(dst); ("validators/0x" ++ pk ++ "/voting-keystore.json")%string],
        json_MarshalIndent (GMap (keystore_document cryptoFields (GenerateUUID i) pk)));
       (filepath_Join [o.(dst); ("secrets/0x" ++ pk)%string], "secret")]
  | _ => []
  end.

Lemma encode_keys_files (o : output) (privKeys : list SecretKey) :
  forall i fs fs', encode_keys o i privKeys fs = (Ok tt, fs') ->
  fs' = fs ++ concat (imap (fun j key => keystore_files o (i + j) key) privKeys).
Proof.
  induction privKeys as [|key rest IH]; intros i fs fs' H.
  - cbn in H. injection H as ->. now rewrite app_nil_r.
  - cbn [encode_keys] in H. unfold encode_key, mbind, M_bind, lift in H.
    unfold keystore_files at 1. rewrite imap_cons. cbn [concat]. rewrite Nat.add_0_r.
    destruct (Encrypt i (key_Marshal key) secret) as [cf|e|p]; cbn in H |- *;
      try discriminate.
    apply IH in H. rewrite H.
    rewrite (imap_ext (fun j key => keystore_files o (i + S j) key)
                      (fun j key => keystore_files o (S i + j) key))
      by (intros; now rewrite Nat.add_succ_r).
    rewrite <- !app_assoc. reflexivity.
Qed.

Lemma encode_keys_encrypt (o : output) (privKeys : list SecretKey) :
  forall i fs fs', encode_keys o i privKeys fs = (Ok tt, fs') ->
  forall j key, privKeys !! j = Some key ->
  exists cryptoFields, Encrypt (i + j) (key_Marshal key) secret = Ok cryptoFields.
Proof.
  induction privKeys as [|key0 rest IH]; intros i fs fs' H j key Hj; [discriminate|].
  cbn [encode_keys] in H. unfold encode_key, mbind, M_bind, lift in H.
  destruct (Encrypt i (key_Marshal key0) secret) as [cf|e|p] eqn:E; cbn in H;
    try discriminate.
  destruct j as [|j]; cbn in Hj.
  - injection Hj as <-. rewrite Nat.add_0_r. eauto.
  - rewrite Nat.add_succ_r. exact (IH (S i) _ _ H j key Hj).
Qed.

End Keystore.

(** A top-level field of a JSON document, if the document is an object. *)
Definition top_field (doc : string) (k : string) : option gval :=
  match json_parse doc with
  | Some (GMap m) => map_get k m
  | _ => None
  end.

(** A run of [Encode] on the one key "k" (public key bytes "k", so
    [pubKeyHex] is "0x6b"), with encryption giving [{"cipher": "c"}] and the
    identifier "u", into the directory "out". *)
Definition keystore_example_run : go_result unit * fs_log :=
  lighthouseKeystore_Encode (fun _ => Err "yaml") string (fun k => k) (fun k => k)
    (fun _ _ _ => Ok [("cipher", GStr "c")]) (fun _ => "u") ["k"] {| dst := "out" |} [].

(* ================================================================== *)
(** ** [ArtifactsBuilder] *)

(** [var MinimumGenesisDelay uint64 = 10] (never reassigned in the program) *)
Definition MinimumGenesisDelay : Z := 10.

Definition wrap_uint64 (x : Z) : Z := x mod 2 ^ 64.
Definition wrap_int64 (x : Z) : Z := (x + 2 ^ 63) mod 2 ^ 64 - 2 ^ 63.

(** [type ArtifactsBuilder struct]; [genesisDelay] is a [uint64]. *)
Record ArtifactsBuilder := {
  outputDir : string;
  applyLatestL1Fork : bool;
  genesisDelay : Z
}.

(** [func NewArtifactsBuilder() *ArtifactsBuilder] *)
Definition NewArtifactsBuilder : ArtifactsBuilder :=
  {| outputDir := ""; applyLatestL1Fork := false; genesisDelay := MinimumGenesisDelay |}.

(** The setters assign one field of [*b] and return [b]. *)
Definition OutputDir (b : ArtifactsBuilder) (outputDir0 : string) : ArtifactsBuilder :=
  {| outputDir := outputDir0; applyLatestL1Fork := b.(applyLatestL1Fork);
     genesisDelay := b.(genesisDelay) |}.

Definition ApplyLatestL1Fork (b : ArtifactsBuilder) (applyLatestL1Fork0 : bool)
  : ArtifactsBuilder :=
  {| outputDir := b.(outputDir); applyLatestL1Fork := applyLatestL1Fork0;
     genesisDelay := b.(genesisDelay) |}.

Definition GenesisDelay (b : ArtifactsBuilder) (genesisDelaySeconds : Z) : ArtifactsBuilder :=
  {| outputDir := b.(outputDir); applyLatestL1Fork := b.(applyLatestL1Fork);
     genesisDelay := genesisDelaySeconds |}.

(** What [Build] reads from its environment before computing the genesis
    time: [GetHomeDir()], which paths exist ([os.Stat]), the outcome of
    [os.RemoveAll], loading and activating the consensus config
    ([params.UnmarshalConfig] and [params.SetActive], given
    [applyLatestL1Fork]), and [time.Now()] as Unix seconds and nanoseconds. *)
Record BuildEnv := {
  env_GetHomeDir : go_result string;
  env_stat : string -> bool;
  env_RemoveAll : string -> go_result unit;
  env_loadConfig : bool -> go_result unit;
  env_now_sec : Z;
  env_now_nsec : Z
}.

(** [uint64(time.Now().Add(time.Duration(delay) * time.Second).Unix())]:
    the [uint64] converts to [int64], the product wraps in [int64], and
    [Time.Add] splits the duration into seconds and nanoseconds (truncating
    division), carrying the nanoseconds. *)
Definition genesis_time (env : BuildEnv) (delay : Z) : Z :=
  let d := wrap_int64 (wrap_int64 delay * 1000000000) in
  let dsec := Z.quot d 1000000000 in
  let nsec := env.(env_now_nsec) + Z.rem d 1000000000 in
  let dsec' := if 1000000000 <=? nsec then dsec + 1
               else if nsec <? 0 then dsec - 1 else dsec in
  wrap_uint64 (env.(env_now_sec) + dsec').

(** [Build] from its start to the computation of [genesisTime] (lines
    94-136): the builder as [Build] leaves it, and on success the output
    and the genesis time. *)
Definition Build_prelude (env : BuildEnv) (b : ArtifactsBuilder)
  : ArtifactsBuilder * go_result (output * Z) :=
  match env.(env_GetHomeDir) with
  | Err e => (b, Err e)
  | Panic p => (b, Panic p)
  | Ok homeDir =>
      let b1 := if String.eqb b.(outputDir) "" then OutputDir b (filepath_Join [homeDir; "devnet"])
                else b in
      let out := {| dst := b1.(outputDir) |} in
      let removed := if Exists env.(env_stat) out "" then Remove env.(env_RemoveAll) out ""
                     else Ok tt in
      match removed with
      | Err e => (b1, Err e)
      | Panic p => (b1, Panic p)
      | Ok _ =>
          let b2 := if b1.(genesisDelay) <? MinimumGenesisDelay
                    then GenesisDelay b1 MinimumGenesisDelay else b1 in
          match env.(env_loadConfig) b2.(applyLatestL1Fork) with
          | Err e => (b2, Err e)
          | Panic p => (b2, Panic p)
          | Ok _ => (b2, Ok (out, genesis_time env b2.(genesisDelay)))
          end
      end
  end.

(** Without overflow, the genesis time is the current second plus the delay. *)
Lemma genesis_time_no_overflow (env : BuildEnv) (delay : Z) :
  0 <= delay <= 9223372036 -> 0 <= env.(env_now_nsec) < 1000000000 ->
  genesis_time env delay = wrap_uint64 (env.(env_now_sec) + delay).
Proof.
  intros Hd Hn. unfold genesis_time, wrap_int64.
  rewrite (Z.mod_small (delay + 2 ^ 63)) by lia.
  replace (delay + 2 ^ 63 - 2 ^ 63) with delay by lia.
  rewrite (Z.mod_small (delay * 1000000000 + 2 ^ 63)) by lia.
  replace (delay * 1000000000 + 2 ^ 63 - 2 ^ 63) with (delay * 1000000000) by lia.
  rewrite Z.quot_mul, Z.rem_mul by lia.
  rewrite Z.add_0_r.
  destruct (Z.leb_spec 1000000000 (env_now_nsec env)); [lia|].
  destruct (Z.ltb_spec (env_now_nsec env) 0); [lia|]. reflexivity.
Qed.

Lemma Build_prelude_ok (env : BuildEnv) (b b' : ArtifactsBuilder) (out : output) (gt : Z) :
  Build_prelude env b = (b', Ok (out, gt)) ->
  b'.(genesisDelay) = (if b.(genesisDelay) <? MinimumGenesisDelay then MinimumGenesisDelay
                       else b.(genesisDelay)) /\
  gt = genesis_time env b'.(genesisDelay).
Proof.
  unfold Build_prelude. intros H.
  destruct (env_GetHomeDir env) as [homeDir| |]; try discriminate.
  set (b1 := if String.eqb (outputDir b) "" then _ else b) in H.
  assert (Hb1 : genesisDelay b1 = genesisDelay b)
    by (unfold b1; destruct (String.eqb (outputDir b) ""); reflexivity).
  destruct (if Exists _ _ _ then _ else _); try discriminate.
  rewrite Hb1 in H.
  destruct (genesisDelay b <? MinimumGenesisDelay);
    destruct (env_loadConfig env _); try discriminate;
    injection H as <- <- <-; auto.
Qed.

Lemma Build_prelude_delay (env : BuildEnv) (b : ArtifactsBuilder) :
  (fst (Build_prelude env b)).(genesisDelay) = b.(genesisDelay) \/
  (fst (Build_prelude env b)).(genesisDelay) = MinimumGenesisDelay /\
  b.(genesisDelay) < MinimumGenesisDelay.
Proof.
  unfold Build_prelude.
  destruct (env_GetHomeDir env) as [homeDir| |]; [|left; reflexivity..].
  set (b1 := if String.eqb (outputDir b) "" then _ else b).
  assert (Hb1 : genesisDelay b1 = genesisDelay b)
    by (unfold b1; destruct (String.eqb (outputDir b) ""); reflexivity).
  destruct (if Exists _ _ _ then _ else _); [|left; exact Hb1..].
  rewrite Hb1. destruct (Z.ltb_spec (genesisDelay b) MinimumGenesisDelay) as [Hlt|Hge];
    destruct (env_loadConfig env _); cbn; auto.
Qed.

(* ================================================================== *)
(** ** [Build]: the execution-genesis allocation (lines 144-192) *)

(** [types.Account]; [Code] and [PrivateKey] are byte strings, [Storage]
    maps 32-byte hashes (as numbers) to hashes, [Balance] is a [*big.Int]. *)
Record Account := {
  Code : string;
  Storage : gmap Z Z;
  Balance : Z;
  Nonce : Z;
  PrivateKey : string
}.

(** [types.GenesisAlloc], a Go map from 20-byte addresses (as numbers). *)
Abbreviation GenesisAlloc := (gmap Z Account).

(** [var prefundedAccounts = []string{...}] *)
Definition prefundedAccounts : list string := [
  "0xac0974bec39a17e36ba4a6b4d238ff944bacb478cbed5efcae784d7bf4f2ff80";
  "0x59c6995e998f97a5a0044966f0945389dc9e86dae88c7a8412f4603b6b78690d";
  "0x5de4111afa1a4b94908f83103eb1f1706367c2e68ca870fc3fb9a804cdab365a";
  "0x7c852118294e51e653712a81e05800f419141751be58f605c371e15141b007a6";
  "0x47e179ec197488593b187f80a00eb0da91f1b9d0b13f8733639f19c30a34926a";
  "0x8b3a350cf5c34c9194ca85829a2df0ec3153be0318b5e2d3348e872092edffba";
  "0x92db14e403b83dfe3df233f83dfa3a0d7096f21ca9b0d6d6b8d88b2b4ec1564e";
  "0x4bbbf85ce3377467afe5d46f804f221813b2bb87f24d81f60f1fcdbf7cbf4356";
  "0xdbda1821b80551c9d65939329250298aa3472ba22feea921c0cf5d620ea67b97";
  "0x2a871d0798f97d79848a013d4936a73bf4cc922c825d33c1cf7073dff6d409c6"].

(** [new(big.Int).SetString("10000000000000000000000", 16)]: a one and 22
    hex zeros. *)
Definition prefundedBalance : Z := 16 ^ 22.

(** [types.Account{Balance: prefundedBalance, Nonce: 1}] *)
Definition prefundedAccount : Account :=
  {| Code := ""; Storage := ∅; Balance := prefundedBalance; Nonce := 1; PrivateKey := "" |}.

Section Alloc.

(** [getPrivKey(privStr)] followed by [ecrypto.PubkeyToAddress(priv.PublicKey)]
    (hex decoding and secp256k1, external); [getPrivKey]'s error is returned. *)
Variable keyAddress : string -> go_result Z.

(** [for _, privStr := range prefundedAccounts { ...; gen.Alloc[addr] = ... }] *)
Fixpoint prefund (privStrs : list string) (alloc : GenesisAlloc) : go_result GenesisAlloc :=
  match privStrs with
  | [] => Ok alloc
  | privStr :: rest =>
      match keyAddress privStr with
      | Ok addr => prefund rest (<[addr := prefundedAccount]> alloc)
      | Err e => Err e
      | Panic p => Panic p
      end
  end.

(** [for addr, account := range alloc { gen.Alloc[addr] = account }] *)
Definition apply_dump (dump alloc : GenesisAlloc) : GenesisAlloc :=
  map_fold (fun addr account m => <[addr := account]> m) alloc dump.

(** Lines 144-192 of [Build]: [alloc0] is [gen.Alloc] as
    [interop.GethTestnetGenesis] returns it, [dump] the outcome of decoding
    [opState] (JSON, base64, gzip, JSON; external). *)
Definition Build_alloc (alloc0 : GenesisAlloc) (dump : go_result GenesisAlloc)
  : go_result GenesisAlloc :=
  match prefund prefundedAccounts alloc0 with
  | Err e => Err e
  | Panic p => Panic p
  | Ok alloc1 =>
      match dump with
      | Ok d => Ok (apply_dump d alloc1)
      | Err e => Err ("failed to unmarshal opState: " ++ e)
      | Panic p => Panic p
      end
  end.

Lemma apply_dump_lookup (dump alloc : GenesisAlloc) (addr : Z) :
  apply_dump dump alloc !! addr =
  match dump !! addr with Some account => Some account | None => alloc !! addr end.
Proof.
  unfold apply_dump. induction dump as [|i x m Hi IH] using map_ind.
  - rewrite map_fold_empty, lookup_empty. reflexivity.
  - rewrite map_fold_insert_L; [|intros; apply insert_insert_ne; congruence|exact Hi].
    destruct (decide (i = addr)) as [->|Hne].
    + rewrite !lookup_insert_eq. reflexivity.
    + rewrite !lookup_insert_ne by exact Hne. exact IH.
Qed.

Lemma prefund_keeps (privStrs : list string) :
  forall alloc alloc1 addr, prefund privStrs alloc = Ok alloc1 ->
  alloc !! addr = Some prefundedAccount -> alloc1 !! addr = Some prefundedAccount.
Proof.
  induction privStrs as [|privStr rest IH]; intros alloc alloc1 addr H Ha; cbn in H.
  - injection H as <-. exact Ha.
  - destruct (keyAddress privStr) as [a| |]; try discriminate.
    apply (IH _ _ _ H). destruct (decide (a = addr)) as [->|Hne].
    + apply lookup_insert_eq.
    + rewrite lookup_insert_ne by exact Hne. exact Ha.
Qed.

Lemma prefund_lookup (privStrs : list string) :
  forall alloc alloc1 privStr addr, prefund privStrs alloc = Ok alloc1 ->
  In privStr privStrs -> keyAddress privStr = Ok addr ->
  alloc1 !! addr = Some prefundedAccount.
Proof.
  induction privStrs as [|k rest IH]; intros alloc alloc1 privStr addr H Hin Hk;
    [destruct Hin|].
  cbn in H. destruct Hin as [<-|Hin].
  - rewrite Hk in H. apply (prefund_keeps _ _ _ _ H). apply lookup_insert_eq.
  - destruct (keyAddress k) as [a| |]; try discriminate. exact (IH _ _ _ _ H Hin Hk).
Qed.

End Alloc.

(* ================================================================== *)
(** ** [Build]: the L2 genesis and rollup configuration (lines 238-286) *)

(** Lowercase hex digits of a [Hexadecimal.uint], most significant first. *)
Fixpoint print_hex (u : Hexadecimal.uint) : list ascii :=
  match u with
  | Hexadecimal.Nil => []
  | Hexadecimal.D0 u => "0"%char :: print_hex u
  | Hexadecimal.D1 u => "1"%char :: print_hex u
  | Hexadecimal.D2 u => "2"%char :: print_hex u
  | Hexadecimal.D3 u => "3"%char :: print_hex u
  | Hexadecimal.D4 u => "4"%char :: print_hex u
  | Hexadecimal.D5 u => "5"%char :: print_hex u
  | Hexadecimal.D6 u => "6"%char :: print_hex u
  | Hexadecimal.D7 u => "7"%char :: print_hex u
  | Hexadecimal.D8 u => "8"%char :: print_hex u
  | Hexadecimal.D9 u => "9"%char :: print_hex u
  | Hexadecimal.Da u => "a"%char :: print_hex u
  | Hexadecimal.Db u => "b"%char :: print_hex u
  | Hexadecimal.Dc u => "c"%char :: print_hex u
  | Hexadecimal.Dd u => "d"%char :: print_hex u
  | Hexadecimal.De u => "e"%char :: print_hex u
  | Hexadecimal.Df u => "f"%char :: print_hex u
  end.

(** [hexutil.Uint64(x).String()]: "0x" and [strconv.FormatUint(x, 16)]. *)
Definition hexutil_Uint64 (x : Z) : string :=
  ("0x" ++ string_of_list_ascii (print_hex (N.to_hex_uint (Z.to_N x))))%string.

(** The value at a path of object keys. *)
Fixpoint path_get (ks : list string) (v : gval) : option gval :=
  match ks with
  | [] => Some v
  | k :: ks' =>
      match v with
      | GMap m => match map_get k m with Some v' => path_get ks' v' | None => None end
      | _ => None
      end
  end.

Section L2.

Variable yaml_Marshal : gval -> go_result string.
(** [core.Genesis], decoded by [json.Unmarshal], and
    [opGenesisObj.ToBlock().Hash().String()] (go-ethereum, external). *)
Variable Genesis : Type.
Variable genesis_Unmarshal : string -> go_result Genesis.
Variable ToBlock_Hash : Genesis -> string.
(** The embedded templates [utils/genesis.json] and [utils/rollup.json], and
    [block.Hash().String()] of the L1 genesis block. *)
Variable opGenesis opRollupConfig : string.
Variable l1BlockHash : string.

Definition Build_l2 (out : output) (genesisTime : Z) : M unit :=
  let opTimestamp := wrap_uint64 (genesisTime + 2) in
  newOpGenesis ← lift (overrideJSON opGenesis [("timestamp", GStr (hexutil_Uint64 opTimestamp))]);
  opGenesisObj ←
    match genesis_Unmarshal newOpGenesis with
    | Ok g => mret g
    | Err e => fail ("failed to unmarshal opGenesis: " ++ e)
    | Panic p => panic p
    end;
  let opGenesisHash := ToBlock_Hash opGenesisObj in
  newOpRollup ← lift (overrideJSON opRollupConfig
    [("genesis", GMap [("l2_time", GNum opTimestamp);
                       ("l1", GMap [("hash", GStr l1BlockHash); ("number", GNum 0)]);
                       ("l2", GMap [("hash", GStr opGenesisHash); ("number", GNum 0)])]);
     ("chain_op_config", GMap [("eip1559Elasticity", GNum 6);
                               ("eip1559Denominator", GNum 50);
                               ("eip1559DenominatorCanyon", GNum 250)])]);
  WriteFile yaml_Marshal out "l2-genesis.json" (ABytes newOpGenesis);;
  WriteFile yaml_Marshal out "rollup.json" (ABytes newOpRollup).

End L2.

Lemma overrideJSON_ok_object (doc : string) (overrides : gomap) (r : string) :
  overrideJSON doc overrides = Ok r -> overrides <> [] ->
  exists m, json_parse doc = Some (GMap m) /\ r = json_Marshal (GMap (mergeMap m overrides)).
Proof.
  unfold overrideJSON, unmarshal_map. intros H Hne.
  destruct (json_parse doc) as [[| | | | |m]|]; try discriminate.
  - destruct overrides; [congruence|discriminate].
  - injection H as <-. eauto.
Qed.

(** A non-object value at a path of the overrides is at the same path of
    the merged map. *)
Lemma path_get_mergeMap (ks : list string) :
  forall dst src v, wf_value (GMap src) = true ->
  path_get ks (GMap src) = Some v -> (forall m, v <> GMap m) ->
  path_get ks (GMap (mergeMap dst src)) = Some v.
Proof.
  induction ks as [|k ks IH]; intros dst src v Hwf Hp Hv.
  - injection Hp as <-. exfalso. exact (Hv src eq_refl).
  - cbn in Hp |- *. cbn in Hwf. apply andb_prop in Hwf as [Hd Hvs].
    rewrite mergeMap_lookup by exact Hd.
    destruct (map_get k src) as [v1|] eqn:E1; [|discriminate].
    rewrite merge_value_eq.
    destruct ks as [|k' ks'].
    + injection Hp as <-. destruct v1; try reflexivity. exfalso. exact (Hv _ eq_refl).
    + destruct v1 as [| | | | |s1]; try discriminate.
      pose proof (map_get_wf _ _ _ Hvs E1) as Hw1.
      destruct (map_get k dst) as [[| | | | |d1]|]; try exact Hp.
      exact (IH d1 s1 v Hw1 Hp Hv).
Qed.

(* ------------------------------------------------------------------ *)
(** A concrete instance of the external L2 genesis functions, used to
    exercise [Build_l2]: the decoded genesis is the JSON object itself, its
    timestamp is read from the "timestamp" field as [hexutil.Uint64], and the
    stand-in block hash is derived from that field. *)

Definition hex_constructor (c : ascii) : option (Hexadecimal.uint -> Hexadecimal.uint) :=
  if Ascii.eqb c "0"%char then Some Hexadecimal.D0
  else if Ascii.eqb c "1"%char then Some Hexadecimal.D1
  else if Ascii.eqb c "2"%char then Some Hexadecimal.D2
  else if Ascii.eqb c "3"%char then Some Hexadecimal.D3
  else if Ascii.eqb c "4"%char then Some Hexadecimal.D4
  else if Ascii.eqb c "5"%char then Some Hexadecimal.D5
  else if Ascii.eqb c "6"%char then Some Hexadecimal.D6
  else if Ascii.eqb c "7"%char then Some Hexadecimal.D7
  else if Ascii.eqb c "8"%char then Some Hexadecimal.D8
  else if Ascii.eqb c "9"%char then Some Hexadecimal.D9
  else if Ascii.eqb c "a"%char then Some Hexadecimal.Da
  else if Ascii.eqb c "b"%char then Some Hexadecimal.Db
  else if Ascii.eqb c "c"%char then Some Hexadecimal.Dc
  else if Ascii.eqb c "d"%char then Some Hexadecimal.Dd
  else if Ascii.eqb c "e"%char then Some Hexadecimal.De
  else if Ascii.eqb c "f"%char then Some Hexadecimal.Df
  else None.

Fixpoint parse_hex (l : list ascii) : option Hexadecimal.uint :=
  match l with
  | [] => Some Hexadecimal.Nil
  | c :: l' =>
      match hex_constructor c, parse_hex l' with
      | Some d, Some u => Some (d u)
      | _, _ => None
      end
  end.

(** The number a "0x..." string denotes, or -1. *)
Definition hex_value (s : string) : Z :=
  match strip_prefix ["0"%char; "x"%char] (list_ascii_of_string s) with
  | Some ds => match parse_hex ds with Some u => Z.of_N (N.of_hex_uint u) | None => -1 end
  | None => -1
  end.

Lemma parse_hex_print (u : Hexadecimal.uint) : parse_hex (print_hex u) = Some u.
Proof. induction u; cbn; rewrite ?IHu; reflexivity. Qed.

Lemma hex_value_Uint64 (t : Z) : 0 <= t -> hex_value (hexutil_Uint64 t) = t.
Proof.
  intros Ht. unfold hex_value, hexutil_Uint64, String.append. cbn [list_ascii_of_string].
  rewrite list_ascii_of_string_of_list_ascii. cbn [strip_prefix Ascii.eqb Bool.eqb].
  rewrite parse_hex_print, HexadecimalN.Unsigned.of_to. apply Z2N.id. exact Ht.
Qed.

Definition example_genesis_Unmarshal (s : string) : go_result gomap :=
  match json_parse s with
  | Some (GMap m) => Ok m
  | _ => Err "cannot unmarshal into core.Genesis"
  end.

Definition example_genesis_timestamp (g : gomap) : Z :=
  match map_get "timestamp" g with Some (GStr s) => hex_value s | _ => -1 end.

Definition example_ToBlock_Hash (g : gomap) : string :=
  match map_get "timestamp" g with Some (GStr s) => ("hash:" ++ s)%string | _ => "" end.

(** {"config": {}, "timestamp": "0x0"} *)
Definition example_opGenesis : string :=
  ("{" ++ dq ++ "config" ++ dq ++ ": {}, " ++ dq ++ "timestamp" ++ dq ++ ": "
   ++ dq ++ "0x0" ++ dq ++ "}")%string.

(** {"genesis": {"l2": {"hash": "0xold"}}} *)
Definition example_opRollupConfig : string :=
  ("{" ++ dq ++ "genesis" ++ dq ++ ": {" ++ dq ++ "l2" ++ dq ++ ": {" ++ dq ++ "hash" ++ dq
   ++ ": " ++ dq ++ "0xold" ++ dq ++ "}}}")%string.

Lemma example_genesis_timestamp_read (m : gomap) (g : gomap) (t : Z) :
  wf_value (GMap m) = true -> 0 <= t ->
  example_genesis_Unmarshal (json_Marshal (GMap m)) = Ok g ->
  map_get "timestamp" m = Some (GStr (hexutil_Uint64 t)) -> example_genesis_timestamp g = t.
Proof.
  intros Hwf Ht Hg Hget. unfold example_genesis_Unmarshal in Hg.
  rewrite json_parse_Marshal in Hg by exact Hwf. injection Hg as <-.
  unfold example_genesis_timestamp. rewrite Hget. apply hex_value_Uint64. exact Ht.
Qed.

Lemma example_ToBlock_Hash_sensitive (g1 g2 : gomap) :
  example_genesis_timestamp g1 <> example_genesis_timestamp g2 ->
  example_ToBlock_Hash g1 <> example_ToBlock_Hash g2.
Proof.
  unfold example_genesis_timestamp, example_ToBlock_Hash. intros Hne Heq. apply Hne.
  destruct (map_get "timestamp" g1) as [[| | | s1 | |]|], (map_get "timestamp" g2) as [[| | | s2 | |]|];
    unfold String.append in Heq; cbn in Heq; try discriminate; try reflexivity;
    inversion Heq; subst; reflexivity.
Qed.

(* ================================================================== *)
(** ** More lemmas on [mergeMap] *)

Lemma map_set_same (k : string) (v : gval) (m : gomap) :
  distinct_keys m = true -> map_get k m = Some v -> map_set k v m = m.
Proof.
  induction m as [|[k' v'] m IH]; cbn; [discriminate|].
  destruct (map_get k' m) eqn:E'; [discriminate|]. intros Hd.
  destruct (String.eqb_spec k k') as [->|Hne].
  - intros H. injection H as ->. reflexivity.
  - intros H. now rewrite IH.
Qed.

Lemma In_map_get (k : string) (v : gval) (m : gomap) :
  distinct_keys m = true -> In (k, v) m -> map_get k m = Some v.
Proof.
  induction m as [|[k' v'] m IH]; cbn; [intros _ []|].
  destruct (map_get k' m) eqn:E'; [discriminate|]. intros Hd [H|H].
  - injection H as -> ->. now rewrite String.eqb_refl.
  - destruct (String.eqb_spec k k') as [->|Hne].
    + rewrite (IH Hd H) in E'. discriminate.
    + exact (IH Hd H).
Qed.

(** A merge whose every key already holds its merged value changes nothing. *)
Lemma merge_loop_fixed (src : gomap) :
  forall R, distinct_keys R = true ->
  (forall k v, In (k, v) src ->
     exists w, map_get k R = Some w /\ merge_value (Some w) v = w) ->
  merge_loop merge_value R src = R.
Proof.
  induction src as [|[k v] src IH]; intros R Hd Hall; [reflexivity|].
  cbn [merge_loop]. destruct (Hall k v (or_introl eq_refl)) as (w & Hw & Hmw).
  rewrite Hw, Hmw, map_set_same by assumption.
  apply IH; [exact Hd|]. intros k' v' Hin. exact (Hall k' v' (or_intror Hin)).
Qed.

Lemma merge_value_idem (sv : gval) :
  forall dv, opt_wf dv = true -> wf_value sv = true ->
  merge_value (Some (merge_value dv sv)) sv = merge_value dv sv.
Proof.
  induction sv as [| | | | l _ | src IH] using gval_rect'; intros dv Hdv Hsv;
    rewrite ?(merge_value_eq dv); try reflexivity.
  rewrite List.Forall_forall in IH.
  assert (Hs := Hsv). cbn in Hs. apply andb_prop in Hs as [Hsd Hsvs].
  assert (Hfix : forall R, distinct_keys R = true ->
            (forall k v, In (k, v) src -> exists w, map_get k R = Some w /\
               merge_value (Some w) v = w) ->
            merge_value (Some (GMap R)) (GMap src) = GMap R).
  { intros R HR Hall. rewrite merge_value_eq. f_equal. exact (merge_loop_fixed src R HR Hall). }
  assert (Hv : forall k v, In (k, v) src -> wf_value v = true /\ map_get k src = Some v).
  { intros k v Hin. pose proof (In_map_get _ _ _ Hsd Hin) as Hg.
    split; [exact (map_get_wf _ _ _ Hsvs Hg)|exact Hg]. }
  destruct dv as [[| | | | |dm]|]; try (apply Hfix; [exact Hsd|];
    intros k v Hin; destruct (Hv k v Hin) as [Hwv Hg]; exists v; split; [exact Hg|];
    pose proof (IH (k, v) Hin None eq_refl Hwv) as H; cbn [snd] in H;
    rewrite (merge_value_eq None v) in H; destruct v; exact H).
  cbn in Hdv. pose proof (mergeMap_wf dm src Hdv Hsv) as Hwf.
  cbn in Hwf. apply andb_prop in Hwf as [Hmd _]. apply andb_prop in Hdv as [_ Hdvs].
  apply Hfix; [exact Hmd|]. intros k v Hin. destruct (Hv k v Hin) as [Hwv Hg].
  rewrite mergeMap_lookup, Hg by exact Hsd. eexists; split; [reflexivity|].
  apply (IH (k, v) Hin); [|exact Hwv].
  destruct (map_get k dm) eqn:E; [exact (map_get_wf _ _ _ Hdvs E)|reflexivity].
Qed.

Lemma merge_value_idem_map (dst src : gomap) :
  wf_value (GMap dst) = true -> wf_value (GMap src) = true ->
  mergeMap (mergeMap dst src) src = mergeMap dst src.
Proof.
  intros Hd Hs. pose proof (merge_value_idem (GMap src) (Some (GMap dst)) Hd Hs) as H.
  rewrite !merge_value_eq in H. injection H as H. exact H.
Qed.

(* ================================================================== *)
(** ** More lemmas on paths and on the writer *)

Lemma list_ascii_of_string_append (a b : string) :
  list_ascii_of_string (a ++ b) = list_ascii_of_string a ++ list_ascii_of_string b.
Proof. induction a as [|c a IH]; [reflexivity|]. simpl. f_equal. exact IH. Qed.

Lemma split_slash_trailing (p : list ascii) :
  forall cur, split_slash cur (p ++ [c_slash]) = split_slash cur p ++ [[]].
Proof.
  induction p as [|c p IH]; intros cur; [reflexivity|]. cbn.
  destruct (Ascii.eqb c c_slash); rewrite IH; reflexivity.
Qed.

(** A trailing separator does not change the cleaned path. *)
Lemma filepath_Clean_trailing (d : string) :
  d <> "" -> filepath_Clean (d ++ "/") = filepath_Clean d.
Proof.
  intros Hd. unfold filepath_Clean. rewrite list_ascii_of_string_append.
  destruct (list_ascii_of_string d) as [|c0 p] eqn:E.
  - destruct d; [contradiction|discriminate].
  - change ((c0 :: p) ++ list_ascii_of_string "/") with ((c0 :: p) ++ [c_slash]).
    cbn [app]. change (c0 :: p ++ [c_slash]) with ((c0 :: p) ++ [c_slash]).
    rewrite split_slash_trailing, fold_left_app. reflexivity.
Qed.

(** [filepath.Join(d, "")] is [filepath.Join(d)]. *)
Lemma filepath_Join_empty_last (d : string) :
  filepath_Join [d; ""] = filepath_Join [d].
Proof.
  cbn [filepath_Join]. destruct (String.eqb_spec d "") as [->|Hne]; [reflexivity|].
  cbn [join_sep]. change ("/" ++ "")%string with "/"%string.
  apply filepath_Clean_trailing, Hne.
Qed.

(** The kinds of data [WriteFile] writes itself, as one file. *)
Definition writes_one_file (data : artifact) : bool :=
  match data with AEnc _ => false | _ => true end.

(** For data other than an encoder, [WriteFile] has one outcome whatever
    was written before; on success it appends one file at the joined path,
    otherwise it writes nothing. *)
Lemma WriteFile_single (yaml_Marshal : gval -> go_result string) (o : output)
    (dst0 : string) (data : artifact) :
  writes_one_file data = true ->
  exists (r : go_result unit) contents, forall fs,
    WriteFile yaml_Marshal o dst0 data fs =
    (r, match r with Ok _ => fs ++ [(filepath_Join [o.(dst); dst0], contents)] | _ => fs end).
Proof.
  intros Hd. destruct data as [raw|raw|r| |r|v]; try discriminate; cbn [WriteFile].
  - exists (Ok tt), raw. reflexivity.
  - exists (Ok tt), raw. reflexivity.
  - destruct r as [a|e|p]; [exists (Ok tt), a|exists (Err e), ""|exists (Panic p), ""];
      reflexivity.
  - destruct r as [a|e|p]; [exists (Ok tt), a|exists (Err e), ""|exists (Panic p), ""];
      reflexivity.
  - destruct (String.eqb _ ".json"); [eexists (Ok tt), _; reflexivity|].
    destruct (String.eqb _ ".yaml").
    + destruct (yaml_Marshal v) as [a|e|p];
        [exists (Ok tt), a|exists (Err e), ""|exists (Panic p), ""]; reflexivity.
    + eexists (Err _), "". reflexivity.
Qed.

(* ================================================================== *)
(** ** More lemmas on [lighthouseKeystore.Encode] *)

(** The same failure: an error with the same message, or a panic with the
    same value. *)
Definition same_failure {A B} (x : go_result A) (r : go_result B) : Prop :=
  match x, r with
  | Err e, Err e' => e = e'
  | Panic p, Panic p' => p = p'
  | _, _ => False
  end.

Section KeystoreRun.

Variable yaml_Marshal : gval -> go_result string.
Variable SecretKey : Type.
Variable key_Marshal : SecretKey -> string.
Variable pubkey_Marshal : SecretKey -> string.
Variable Encrypt : nat -> string -> string -> go_result gomap.
Variable GenerateUUID : nat -> string.

(** One key: its two files on success, nothing when encryption fails. *)
Lemma encode_key_run (o : output) (i : nat) (key : SecretKey) (fs : fs_log) :
  encode_key yaml_Marshal SecretKey key_Marshal pubkey_Marshal Encrypt GenerateUUID o i key fs =
  match Encrypt i (key_Marshal key) secret with
  | Ok _ => (Ok tt, fs ++ keystore_files SecretKey key_Marshal pubkey_Marshal Encrypt
                                         GenerateUUID o i key)
  | Err e => (Err e, fs)
  | Panic p => (Panic p, fs)
  end.
Proof.
  unfold encode_key, keystore_files, mbind, M_bind, lift.
  destruct (Encrypt i (key_Marshal key) secret) as [cf|e|p]; [|reflexivity..].
  unfold WriteBatch, WriteFile, mbind, M_bind, os_WriteFile, mret, M_ret.
  rewrite <- app_assoc. reflexivity.
Qed.

Lemma encode_keys_first_error (o : output) (privKeys : list SecretKey) :
  forall i fs fs' (r : go_result unit),
  encode_keys yaml_Marshal SecretKey key_Marshal pubkey_Marshal Encrypt GenerateUUID
    o i privKeys fs = (r, fs') -> r <> Ok tt ->
  exists j key, privKeys !! j = Some key /\
    same_failure (Encrypt (i + j) (key_Marshal key) secret) r /\
    fs' = fs ++ concat (imap (fun j' key' => keystore_files SecretKey key_Marshal
                               pubkey_Marshal Encrypt GenerateUUID o (i + j') key')
                             (take j privKeys)).
Proof.
  induction privKeys as [|key rest IH]; intros i fs fs' r H Hr.
  - cbn in H. injection H as <- <-. contradiction.
  - cbn [encode_keys] in H. unfold mbind at 1, M_bind at 1 in H. rewrite encode_key_run in H.
    destruct (Encrypt i (key_Marshal key) secret) as [cf|e|p] eqn:E.
    + destruct (IH (S i) _ _ _ H Hr) as (j & key' & Hj & Hf & ->).
      exists (S j), key'. split; [exact Hj|].
      split; [replace (i + S j)%nat with (S i + j)%nat by lia; exact Hf|].
      cbn [take]. rewrite imap_cons. cbn [concat]. rewrite Nat.add_0_r, <- app_assoc.
      rewrite (imap_ext (fun j' key' => keystore_files SecretKey key_Marshal pubkey_Marshal
                           Encrypt GenerateUUID o (i + S j') key')
                        (fun j' key' => keystore_files SecretKey key_Marshal pubkey_Marshal
                           Encrypt GenerateUUID o (S i + j') key'))
        by (intros; now rewrite Nat.add_succ_r).
      reflexivity.
    + injection H as <- <-. exists 0%nat, key. rewrite Nat.add_0_r, E.
      cbn. rewrite app_nil_r. auto.
    + injection H as <- <-. exists 0%nat, key. rewrite Nat.add_0_r, E.
      cbn. rewrite app_nil_r. auto.
Qed.

End KeystoreRun.

(* ================================================================== *)
(** ** More lemmas on the genesis allocation *)

Lemma prefund_other (keyAddress : string -> go_result Z) (privStrs : list string) :
  forall alloc alloc1 addr, prefund keyAddress privStrs alloc = Ok alloc1 ->
  (forall privStr, In privStr privStrs -> keyAddress privStr <> Ok addr) ->
  alloc1 !! addr = alloc !! addr.
Proof.
  induction privStrs as [|ps rest IH]; intros alloc alloc1 addr H Hno; cbn in H.
  - injection H as <-. reflexivity.
  - destruct (keyAddress ps) as [a| |] eqn:E; try discriminate.
    rewrite (IH _ _ _ H) by (intros; apply Hno; right; assumption).
    apply lookup_insert_ne. intros ->. exact (Hno ps (or_introl eq_refl) E).
Qed.

(* ================================================================== *)
(** ** More lemmas on the L2 step of [Build] *)

Section L2Run.

Variable yaml_Marshal : gval -> go_result string.
Variable Genesis : Type.
Variable genesis_Unmarshal : string -> go_result Genesis.
Variable ToBlock_Hash : Genesis -> string.
Variable opGenesis opRollupConfig : string.
Variable l1BlockHash : string.

(** The overrides of l2-genesis.json and of rollup.json. *)
Definition l2_genesis_overrides (genesisTime : Z) : gomap :=
  [("timestamp", GStr (hexutil_Uint64 (wrap_uint64 (genesisTime + 2))))].

Definition rollup_overrides (genesisTime : Z) (opGenesisHash : string) : gomap :=
  [("genesis", GMap [("l2_time", GNum (wrap_uint64 (genesisTime + 2)));
                     ("l1", GMap [("hash", GStr l1BlockHash); ("number", GNum 0)]);
                     ("l2", GMap [("hash", GStr opGenesisHash); ("number", GNum 0)])]);
   ("chain_op_config", GMap [("eip1559Elasticity", GNum 6);
                             ("eip1559Denominator", GNum 50);
                             ("eip1559DenominatorCanyon", GNum 250)])].

(** A run of the L2 step: both documents are patched, the patched genesis
    decodes, and then (only then) the two files are written; on any
    failure nothing is written. *)
Lemma Build_l2_run (out : output) (genesisTime : Z) (fs fs' : fs_log) (r : go_result unit) :
  Build_l2 yaml_Marshal Genesis genesis_Unmarshal ToBlock_Hash opGenesis opRollupConfig
    l1BlockHash out genesisTime fs = (r, fs') ->
  (r = Ok tt /\
   exists newOpGenesis newOpRollup g,
     overrideJSON opGenesis (l2_genesis_overrides genesisTime) = Ok newOpGenesis /\
     genesis_Unmarshal newOpGenesis = Ok g /\
     overrideJSON opRollupConfig (rollup_overrides genesisTime (ToBlock_Hash g)) = Ok newOpRollup /\
     fs' = fs ++ [(filepath_Join [out.(dst); "l2-genesis.json"], newOpGenesis);
                  (filepath_Join [out.(dst); "rollup.json"], newOpRollup)]) \/
  (r <> Ok tt /\ fs' = fs).
Proof.
  intros H. unfold Build_l2, mbind, M_bind, lift in H.
  destruct (overrideJSON opGenesis _) as [newG|e|p] eqn:E1; cbn in H;
    [|injection H as <- <-; right; split; [discriminate|reflexivity]..].
  destruct (genesis_Unmarshal newG) as [g|e|p] eqn:Eg; cbn in H;
    [|injection H as <- <-; right; split; [discriminate|reflexivity]..].
  destruct (overrideJSON opRollupConfig _) as [newR|e|p] eqn:E2; cbn in H;
    [|injection H as <- <-; right; split; [discriminate|reflexivity]..].
  injection H as <- <-. left. split; [reflexivity|].
  exists newG, newR, g. repeat split; try assumption. rewrite <- app_assoc. reflexivity.
Qed.

End L2Run.

(** A key that no override names keeps its value. *)
Lemma mergeMap_untouched (dst src : gomap) (k : string) :
  distinct_keys src = true -> map_get k src = None ->
  map_get k (mergeMap dst src) = map_get k dst.
Proof. intros Hd Hk. rewrite mergeMap_lookup, Hk by exact Hd. reflexivity. Qed.

(* ================================================================== *)
(** ** More lemmas on the genesis time *)
Lemma genesis_time_overflow_range (env : BuildEnv) (delay : Z) :
  9223372037 <= delay <= 18446744073 -> 0 <= env.(env_now_nsec) < 1000000000 ->
  exists s, -9223372037 <= s <= 0 /\ genesis_time env delay = wrap_uint64 (env.(env_now_sec) + s).
Proof.
  intros Hd Hn. unfold genesis_time, wrap_int64.
  rewrite (Z.mod_small (delay + 2 ^ 63)) by lia.
  replace (delay + 2 ^ 63 - 2 ^ 63) with delay by lia.
  replace (delay * 1000000000 + 2 ^ 63)
    with ((delay * 1000000000 + 2 ^ 63 - 2 ^ 64) + 1 * 2 ^ 64) by lia.
  rewrite Z.mod_add, Z.mod_small by lia.
  set (d := delay * 1000000000 + 2 ^ 63 - 2 ^ 64 - 2 ^ 63).
  assert (Hdr : -9223372036709551616 <= d <= -709551616) by (unfold d; lia).
  pose proof (Z.quot_rem' d 1000000000) as Hqr.
  pose proof (Z.rem_opp_l d 1000000000 ltac:(lia)) as Hopp.
  pose proof (Z.rem_bound_pos (- d) 1000000000 ltac:(lia) ltac:(lia)) as Hb.
  set (q := Z.quot d 1000000000) in *. set (r := Z.rem d 1000000000) in *.
  destruct (Z.leb_spec 1000000000 (env_now_nsec env + r)); [lia|].
  destruct (Z.ltb_spec (env_now_nsec env + r) 0).
  - exists (q - 1). split; [lia|reflexivity].
  - exists q. split; [lia|reflexivity].
Qed.

Lemma wrap_uint64_ne (a b : Z) : 0 < a - b < 2 ^ 64 -> wrap_uint64 a <> wrap_uint64 b.
Proof.
  intros H E. unfold wrap_uint64 in E.
  rewrite !Z.mod_eq in E by lia.
  assert (2 ^ 64 * (a / 2 ^ 64 - b / 2 ^ 64) = a - b) by lia.
  set (k := a / 2 ^ 64 - b / 2 ^ 64) in *. change (2 ^ 64) with 18446744073709551616 in *.
  lia.
Qed.

(* ================================================================== *)
(** ** [getPrivKey]: [hex.DecodeString(strings.TrimPrefix(privStr, "0x"))] *)

(** [strings.TrimPrefix(s, prefix)] *)
Definition strings_TrimPrefix (s prefix : string) : string :=
  if String.prefix prefix s then string_drop (String.length prefix) s else s.

(** [fromHexChar]: the value of a hex digit, either case. *)
Definition fromHexChar (c : ascii) : option nat :=
  let n := nat_of_ascii c in
  if (48 <=? n)%nat && (n <=? 57)%nat then Some (n - 48)%nat
  else if (97 <=? n)%nat && (n <=? 102)%nat then Some (n - 87)%nat
  else if (65 <=? n)%nat && (n <=? 70)%nat then Some (n - 55)%nat
  else None.

(** Uppercase hex digit, for [%X]. *)
Definition hex_digit_upper (n : nat) : ascii :=
  nth n (list_ascii_of_string "0123456789ABCDEF") "0"%char.

(** [strconv.IsPrint] on the code points U+0000 to U+00FF. *)
Definition is_print_latin1 (n : nat) : bool :=
  ((32 <=? n)%nat && (n <=? 126)%nat) || ((161 <=? n)%nat && (n <=? 255)%nat && negb (n =? 173)%nat).

(** The UTF-8 encoding of a code point below U+0100. *)
Definition utf8_latin1 (n : nat) : list ascii :=
  if (n <? 128)%nat then [ascii_of_nat n]
  else [ascii_of_nat (192 + n / 64); ascii_of_nat (128 + n mod 64)].

(** [InvalidByteError(b).Error()]: [fmt.Sprintf("encoding/hex: invalid byte: %#U", rune(b))],
    where [%#U] prints [U+00XX], then the quoted character if it is printable. *)
Definition InvalidByteError (c : ascii) : string :=
  let n := nat_of_ascii c in
  ("encoding/hex: invalid byte: U+00" ++
   string_of_list_ascii [hex_digit_upper (n / 16); hex_digit_upper (n mod 16)] ++
   (if is_print_latin1 n
    then " '" ++ string_of_list_ascii (utf8_latin1 n) ++ "'" else ""))%string.

(** [hex.ErrLength] *)
Definition ErrLength : string := "encoding/hex: odd length hex string".

(** [hex.Decode]'s loop over the pairs [src[j-1], src[j]], then its check of
    a last odd byte (an invalid byte is reported before the odd length).  On
    an error the bytes decoded so far are dropped: the only caller discards
    them. *)
Fixpoint hex_Decode (src : list ascii) : go_result (list ascii) :=
  match src with
  | [] => Ok []
  | [p] => match fromHexChar p with
           | None => Err (InvalidByteError p)
           | Some _ => Err ErrLength
           end
  | p :: q :: rest =>
      match fromHexChar p, fromHexChar q with
      | None, _ => Err (InvalidByteError p)
      | Some _, None => Err (InvalidByteError q)
      | Some a, Some b =>
          match hex_Decode rest with
          | Ok l => Ok (ascii_of_nat (a * 16 + b) :: l)
          | Err e => Err e
          | Panic p => Panic p
          end
      end
  end.

(** [hex.DecodeString(s)] *)
Definition hex_DecodeString (s : string) : go_result string :=
  match hex_Decode (list_ascii_of_string s) with
  | Ok l => Ok (string_of_list_ascii l)
  | Err e => Err e
  | Panic p => Panic p
  end.

Section GetPrivKey.

(** [ecrypto.ToECDSA(privBuf)] (go-ethereum's secp256k1, external). *)
Variable PrivateKeyECDSA : Type.
Variable ToECDSA : string -> go_result PrivateKeyECDSA.

(** [func getPrivKey(privStr string) ( *ecdsa.PrivateKey, error)] *)
Definition getPrivKey (privStr : string) : go_result PrivateKeyECDSA :=
  match hex_DecodeString (strings_TrimPrefix privStr "0x") with
  | Ok privBuf =>
      match ToECDSA privBuf with
      | Ok priv => Ok priv
      | Err e => Err e
      | Panic p => Panic p
      end
  | Err e => Err e
  | Panic p => Panic p
  end.

End GetPrivKey.

Lemma fromHexChar_hex_digit (k : nat) : (k < 16)%nat -> fromHexChar (hex_digit k) = Some k.
Proof. intros Hk. do 16 (destruct k as [|k]; [reflexivity|]). lia. Qed.

Lemma hex_digit_not_x (k : nat) : hex_digit k <> "x"%char.
Proof. do 16 (destruct k as [|k]; [discriminate|]). destruct k; discriminate. Qed.

Lemma hex_Decode_Encode (b : string) :
  hex_Decode (list_ascii_of_string (hex_EncodeToString b)) = Ok (list_ascii_of_string b).
Proof.
  induction b as [|c b IH]; [reflexivity|]. cbn [hex_EncodeToString list_ascii_of_string].
  pose proof (nat_ascii_bounded c) as Hc.
  cbn [hex_Decode].
  rewrite (fromHexChar_hex_digit (nat_of_ascii c / 16)) by (apply Nat.Div0.div_lt_upper_bound; lia).
  rewrite (fromHexChar_hex_digit (nat_of_ascii c mod 16)) by (apply Nat.mod_upper_bound; lia).
  rewrite IH. do 2 f_equal.
  rewrite Nat.mul_comm, <- Nat.div_mod by lia. apply ascii_nat_embedding.
Qed.

Lemma hex_DecodeString_Encode (b : string) :
  hex_DecodeString (hex_EncodeToString b) = Ok b.
Proof.
  unfold hex_DecodeString. rewrite hex_Decode_Encode, string_of_list_ascii_of_string.
  reflexivity.
Qed.

Lemma TrimPrefix_0x (s : string) : strings_TrimPrefix ("0x" ++ s) "0x" = s.
Proof. unfold strings_TrimPrefix, String.append. destruct s; reflexivity. Qed.

Lemma TrimPrefix_hex (b : string) :
  strings_TrimPrefix (hex_EncodeToString b) "0x" = hex_EncodeToString b.
Proof.
  unfold strings_TrimPrefix. destruct b as [|c b]; [reflexivity|].
  cbn [hex_EncodeToString String.prefix].
  destruct (ascii_dec "0" (hex_digit (nat_of_ascii c / 16))); [|reflexivity].
  destruct (ascii_dec "x" (hex_digit (nat_of_ascii c mod 16))) as [E|]; [|reflexivity].
  exfalso. exact (hex_digit_not_x _ (eq_sym E)).
Qed.

Lemma length_list_ascii_of_string (s : string) :
  length (list_ascii_of_string s) = String.length s.
Proof. induction s as [|c s IH]; cbn; [reflexivity|now rewrite IH]. Qed.

Lemma hex_Decode_odd (n : nat) :
  forall l, (length l <= n)%nat -> Nat.odd (length l) = true ->
  exists e, hex_Decode l = Err e.
Proof.
  induction n as [|n IH]; intros l Hl Hodd.
  - destruct l; [discriminate|cbn in Hl; lia].
  - destruct l as [|p [|q rest]]; [discriminate| |].
    + cbn. destruct (fromHexChar p); eauto.
    + cbn [hex_Decode]. destruct (fromHexChar p) as [a|], (fromHexChar q) as [b|]; eauto.
      destruct (IH rest) as [e ->]; [cbn in Hl; lia| |eauto].
      cbn [length] in Hodd. rewrite Nat.odd_succ, Nat.even_succ in Hodd. exact Hodd.
Qed.

(* ================================================================== *)
(** ** [convert]: the consensus config as config.yaml *)

(** The value of a field of [params.BeaconChainConfig] as [convert] sees it
    through reflection: a byte array or byte slice ([isByteArray] or
    [isByteSlice]), a value of kind [String], [Uint8] or [Uint64], [Int], or
    of any other kind (named as [reflect.Kind] prints it). *)
Inductive field_val : Type :=
| FBytes (b : string)
| FString (s : string)
| FUint (n : Z)
| FInt (n : Z)
| FOther (kind : string).

(** A struct field: its [yaml] tag ([Tag.Get("yaml")], "" when absent) and
    its value. *)
Record struct_field := { yaml_tag : string; fvalue : field_val }.

(** The string [convert] prints for one tagged field. *)
Definition convert_field (tag : string) (v : field_val) : go_result string :=
  match v with
  | FBytes b => Ok ("0x" ++ hex_EncodeToString b)%string
  | FString s => Ok s
  | FUint n => Ok (string_of_list_ascii (print_number n))
  | FInt n => Ok (string_of_list_ascii (print_number n))
  | FOther kind =>
      Panic ("BUG: unsupported type, tag '" ++ tag ++ "', err: '" ++ kind ++ "'")%string
  end.

(** The loop over the fields, building [vals]. *)
Fixpoint convert_fields (fields : list struct_field) : go_result (list string) :=
  match fields with
  | [] => Ok []
  | f :: rest =>
      if String.eqb f.(yaml_tag) "" then convert_fields rest
      else
        match convert_field f.(yaml_tag) f.(fvalue) with
        | Ok resTyp =>
            match convert_fields rest with
            | Ok vals => Ok ((f.(yaml_tag) ++ ": " ++ resTyp)%string :: vals)
            | Err e => Err e
            | Panic p => Panic p
            end
        | Err e => Err e
        | Panic p => Panic p
        end
  end.

(** [strings.Join(elems, sep)] *)
Fixpoint strings_Join (elems : list string) (sep : string) : string :=
  match elems with
  | [] => ""
  | [e] => e
  | e :: rest => (e ++ sep ++ strings_Join rest sep)%string
  end.

Definition nl : string := String c_nl EmptyString.

(** [func convert(config *params.BeaconChainConfig) ([]byte, error)] *)
Definition convert (fields : list struct_field) : go_result string :=
  match convert_fields fields with
  | Ok vals => Ok (strings_Join vals nl)
  | Err e => Err e
  | Panic p => Panic p
  end.

(** [strings.Split(s, sep)] for a one-byte separator. *)
Fixpoint split_char (sep : ascii) (cur : list ascii) (p : list ascii) : list (list ascii) :=
  match p with
  | [] => [rev cur]
  | c :: p' => if Ascii.eqb c sep then rev cur :: split_char sep [] p'
               else split_char sep (c :: cur) p'
  end.

Definition strings_Split_nl (s : string) : list string :=
  map string_of_list_ascii (split_char c_nl [] (list_ascii_of_string s)).

(** Fields with a [yaml] tag. *)
Definition tagged (f : struct_field) : bool := negb (String.eqb f.(yaml_tag) "").

Definition no_newline (s : string) : Prop := ~ In c_nl (list_ascii_of_string s).

Lemma split_char_app (sep : ascii) (p q : list ascii) :
  forall cur, ~ In sep p -> split_char sep cur (p ++ q) = split_char sep (rev p ++ cur) q.
Proof.
  induction p as [|c p IH]; intros cur Hp; [reflexivity|]. cbn [app split_char].
  destruct (Ascii.eqb_spec c sep) as [->|Hne]; [exfalso; apply Hp; left; reflexivity|].
  rewrite IH by (intros H; apply Hp; right; exact H).
  cbn [rev]. rewrite <- app_assoc. reflexivity.
Qed.

Lemma strings_Split_Join (l : list string) (e : string) :
  Forall no_newline (e :: l) -> strings_Split_nl (strings_Join (e :: l) nl) = e :: l.
Proof.
  unfold strings_Split_nl. intros Hall.
  enough (H : split_char c_nl [] (list_ascii_of_string (strings_Join (e :: l) nl))
              = map list_ascii_of_string (e :: l)).
  { rewrite H, map_map. rewrite <- (map_id (e :: l)) at 2. apply map_ext.
    apply string_of_list_ascii_of_string. }
  revert e Hall. induction l as [|e' l IH]; intros e Hall; inversion Hall as [|? ? He Hl]; subst.
  - cbn [strings_Join]. rewrite <- (app_nil_r (list_ascii_of_string e)).
    rewrite split_char_app by exact He. cbn. rewrite app_nil_r, rev_involutive. reflexivity.
  - change (strings_Join (e :: e' :: l) nl) with (e ++ nl ++ strings_Join (e' :: l) nl)%string.
    rewrite !list_ascii_of_string_append. cbn [nl list_ascii_of_string app].
    rewrite split_char_app by exact He. cbn [split_char]. rewrite Ascii.eqb_refl.
    rewrite app_nil_r, rev_involutive, IH by exact Hl. reflexivity.
Qed.

Lemma no_newline_append (a b : string) :
  no_newline a -> no_newline b -> no_newline (a ++ b).
Proof.
  unfold no_newline. rewrite list_ascii_of_string_append. intros Ha Hb H.
  apply in_app_or in H as [H|H]; contradiction.
Qed.

Lemma hex_digit_not_nl (k : nat) : hex_digit k <> c_nl.
Proof. do 16 (destruct k as [|k]; [discriminate|]). destruct k; discriminate. Qed.

Lemma no_newline_hex (b : string) : no_newline (hex_EncodeToString b).
Proof.
  unfold no_newline. induction b as [|c b IH]; cbn; [tauto|].
  intros [H|[H|H]]; [exact (hex_digit_not_nl _ H)|exact (hex_digit_not_nl _ H)|exact (IH H)].
Qed.

Lemma print_uint_not_nl (u : Decimal.uint) : ~ In c_nl (print_uint u).
Proof. induction u; cbn; intuition discriminate. Qed.

Lemma no_newline_number (n : Z) : no_newline (string_of_list_ascii (print_number n)).
Proof.
  unfold no_newline. rewrite list_ascii_of_string_of_list_ascii. unfold print_number.
  destruct (n <? 0); [intros [H|H]; [discriminate|exact (print_uint_not_nl _ H)]|].
  apply print_uint_not_nl.
Qed.

(** The line [convert] prints for a tagged field. *)
Definition convert_line (line : string) (f : struct_field) : Prop :=
  exists r, convert_field f.(yaml_tag) f.(fvalue) = Ok r /\ line = (f.(yaml_tag) ++ ": " ++ r)%string.

Lemma convert_fields_ok (fields : list struct_field) :
  (forall f, In f fields -> tagged f = true -> forall kind, f.(fvalue) <> FOther kind) ->
  exists vals, convert_fields fields = Ok vals /\ Forall2 convert_line vals (List.filter tagged fields).
Proof.
  induction fields as [|f rest IH]; intros Hok; [exists []; split; constructor|].
  destruct IH as (vals & Hv & Hf); [intros g Hg; apply Hok; right; exact Hg|].
  cbn [convert_fields List.filter].
  destruct (String.eqb (yaml_tag f) "") eqn:Et.
  { assert (Hn : tagged f = false) by (unfold tagged; rewrite Et; reflexivity).
    rewrite Hn. exists vals; auto. }
  assert (Hy : tagged f = true) by (unfold tagged; rewrite Et; reflexivity). rewrite Hy.
  assert (Hr : exists r, convert_field (yaml_tag f) (fvalue f) = Ok r).
  { specialize (Hok f (or_introl eq_refl) Hy).
    destruct (fvalue f) as [| | | |kind]; cbn; eauto.
    exfalso. exact (Hok kind eq_refl). }
  destruct Hr as [r Hr]. rewrite Hr, Hv. eexists. split; [reflexivity|].
  constructor; [exists r; auto|exact Hf].
Qed.

Ltac no_newline_lit :=
  unfold no_newline; simpl; intros H; repeat (destruct H as [H|H]; [discriminate H|]); exact H.

Lemma convert_line_no_newline (line : string) (f : struct_field) :
  convert_line line f -> no_newline f.(yaml_tag) ->
  (forall s, f.(fvalue) = FString s -> no_newline s) -> no_newline line.
Proof.
  intros (r & Hr & ->) Ht Hs. apply no_newline_append; [exact Ht|].
  apply no_newline_append; [no_newline_lit|].
  destruct (fvalue f) as [b|s|n|n|kind]; cbn in Hr; [..|discriminate Hr];
    injection Hr as <-.
  - apply no_newline_append; [no_newline_lit|apply no_newline_hex].
  - exact (Hs s eq_refl).
  - apply no_newline_number.
  - apply no_newline_number.
Qed.

Lemma convert_fields_filter (fields : list struct_field) :
  convert_fields fields = convert_fields (List.filter tagged fields).
Proof.
  induction fields as [|f rest IH]; [reflexivity|]. cbn [convert_fields List.filter].
  unfold tagged at 1. destruct (String.eqb (yaml_tag f) "") eqn:Et; cbn [negb]; [exact IH|].
  cbn [convert_fields]. rewrite Et, IH. reflexivity.
Qed.

Lemma convert_fields_not_err (fields : list struct_field) (e : string) :
  convert_fields fields <> Err e.
Proof.
  induction fields as [|f rest IH]; cbn [convert_fields]; [discriminate|].
  destruct (String.eqb (yaml_tag f) ""); [exact IH|].
  destruct (fvalue f); cbn [convert_field];
    try (destruct (convert_fields rest); [discriminate|exact IH|discriminate]); discriminate.
Qed.

Lemma convert_fields_first_panic (pre post : list struct_field) (f : struct_field) (kind : string) :
  Forall (fun g => tagged g = true /\ forall k, fvalue g <> FOther k) pre ->
  tagged f = true -> fvalue f = FOther kind ->
  convert_fields (pre ++ f :: post)
  = Panic ("BUG: unsupported type, tag '" ++ yaml_tag f ++ "', err: '" ++ kind ++ "'")%string.
Proof.
  intros Hpre Hf Hk. induction Hpre as [|g pre [Hg Hok] _ IH].
  - cbn [app convert_fields]. unfold tagged in Hf.
    destruct (String.eqb (yaml_tag f) ""); [discriminate Hf|]. rewrite Hk. reflexivity.
  - cbn [app convert_fields]. unfold tagged in Hg.
    destruct (String.eqb (yaml_tag g) ""); [discriminate Hg|]. rewrite IH.
    destruct (fvalue g) as [| | | |k]; [reflexivity..|exfalso; exact (Hok k eq_refl)].
Qed.

Lemma Forall2_In_left {X Y} (R : X -> Y -> Prop) (l1 : list X) (l2 : list Y) (x : X) :
  Forall2 R l1 l2 -> In x l1 -> exists y, In y l2 /\ R x y.
Proof.
  induction 1 as [|a b l1 l2 Hab _ IH]; [intros []|].
  intros [->|Hx]; [exists b; split; [left|]; auto|].
  destruct (IH Hx) as (y & Hy & Hr). exists y; split; [right|]; auto.
Qed.

(* ================================================================== *)
(** ** [encoding/json] over its full grammar

    The codec above reads the dialect of the embedded templates.  The
    definitions below follow [encoding/json] over its whole grammar, for the
    round trip of [overrideJSON] on an arbitrary object: the scanner
    ([checkValid], with its nesting limit), [unquote] with [\u] escapes,
    surrogate pairs and UTF-8 repair, the decoder into
    [map[string]interface{}], and [Marshal] with sorted keys and
    [appendString]'s escaping (Go 1.22 and later).  Numbers decode to
    [float64]; the conversion [strconv.ParseFloat] and the encoder's number
    format are parameters (see [GoJSON] below).  Bytes are [ascii]. *)

(** *** [unicode/utf8] and [unicode/utf16] *)

(** The value of a byte, and [byte(z)] for [0 <= z < 256]. *)
Definition bval (c : ascii) : Z := Z.of_N (N_of_ascii c).
Definition chr (z : Z) : ascii := ascii_of_N (Z.to_N (z mod 256)).

Definition RuneError : Z := 65533.
Definition MaxRune : Z := 1114111.

(** [utf8.DecodeRune(p)], with the [first] and [acceptRanges] tables written
    out: the size of the sequence a leading byte starts and the range of its
    second byte. *)
Definition first_info (p0 : Z) : nat * Z * Z :=
  if p0 <? 194 then (0%nat, 0, 0)
  else if p0 <? 224 then (2%nat, 128, 191)
  else if p0 =? 224 then (3%nat, 160, 191)
  else if p0 <? 237 then (3%nat, 128, 191)
  else if p0 =? 237 then (3%nat, 128, 159)
  else if p0 <? 240 then (3%nat, 128, 191)
  else if p0 =? 240 then (4%nat, 144, 191)
  else if p0 <? 244 then (4%nat, 128, 191)
  else if p0 =? 244 then (4%nat, 128, 143)
  else (0%nat, 0, 0).

Definition utf8_DecodeRune (p : list ascii) : Z * nat :=
  match p with
  | [] => (RuneError, 0%nat)
  | c0 :: p1 =>
      let p0 := bval c0 in
      if p0 <? 128 then (p0, 1%nat)
      else
        let '(sz, lo, hi) := first_info p0 in
        if (sz =? 0)%nat then (RuneError, 1%nat)
        else if (length p <? sz)%nat then (RuneError, 1%nat)
        else
          match p1 with
          | [] => (RuneError, 1%nat)
          | c1 :: p2 =>
              let b1 := bval c1 in
              if (b1 <? lo) || (hi <? b1) then (RuneError, 1%nat)
              else if (sz <=? 2)%nat then
                (Z.lor (Z.shiftl (Z.land p0 31) 6) (Z.land b1 63), 2%nat)
              else
                match p2 with
                | [] => (RuneError, 1%nat)
                | c2 :: p3 =>
                    let b2 := bval c2 in
                    if (b2 <? 128) || (191 <? b2) then (RuneError, 1%nat)
                    else if (sz <=? 3)%nat then
                      (Z.lor (Z.lor (Z.shiftl (Z.land p0 15) 12) (Z.shiftl (Z.land b1 63) 6))
                             (Z.land b2 63), 3%nat)
                    else
                      match p3 with
                      | [] => (RuneError, 1%nat)
                      | c3 :: _ =>
                          let b3 := bval c3 in
                          if (b3 <? 128) || (191 <? b3) then (RuneError, 1%nat)
                          else
                            (Z.lor (Z.lor (Z.lor (Z.shiftl (Z.land p0 7) 18)
                                                 (Z.shiftl (Z.land b1 63) 12))
                                          (Z.shiftl (Z.land b2 63) 6))
                                   (Z.land b3 63), 4%nat)
                      end
                end
          end
  end.

(** [utf8.EncodeRune]: a negative rune, one above [MaxRune] or a surrogate
    is written as [RuneError]. *)
Definition utf8_EncodeRune (r : Z) : list ascii :=
  if (0 <=? r) && (r <=? 127) then [chr r]
  else if (0 <=? r) && (r <=? 2047) then
    [chr (Z.lor 192 (Z.shiftr r 6 mod 256)); chr (Z.lor 128 (Z.land r 63))]
  else
    let r := if (r <? 0) || (MaxRune <? r) || ((55296 <=? r) && (r <=? 57343))
             then RuneError else r in
    if r <=? 65535 then
      [chr (Z.lor 224 (Z.shiftr r 12 mod 256)); chr (Z.lor 128 (Z.land (Z.shiftr r 6) 63));
       chr (Z.lor 128 (Z.land r 63))]
    else
      [chr (Z.lor 240 (Z.shiftr r 18 mod 256)); chr (Z.lor 128 (Z.land (Z.shiftr r 12) 63));
       chr (Z.lor 128 (Z.land (Z.shiftr r 6) 63)); chr (Z.lor 128 (Z.land r 63))].

(** A Unicode scalar value: a rune [utf8.ValidRune] accepts. *)
Definition scalar (r : Z) : Prop := 0 <= r <= MaxRune /\ ~ (55296 <= r <= 57343).

(** Well-formed UTF-8: a sequence of encoded scalar values. *)
Inductive valid_utf8 : list ascii -> Prop :=
| valid_nil : valid_utf8 []
| valid_rune (r : Z) (rest : list ascii) :
    scalar r -> valid_utf8 rest -> valid_utf8 (utf8_EncodeRune r ++ rest).

(** [utf16.IsSurrogate] and [utf16.DecodeRune] *)
Definition utf16_IsSurrogate (r : Z) : bool := (55296 <=? r) && (r <? 57344).
Definition utf16_DecodeRune (r1 r2 : Z) : Z :=
  if (55296 <=? r1) && (r1 <? 56320) && (56320 <=? r2) && (r2 <? 57344)
  then Z.lor (Z.shiftl (r1 - 55296) 10) (r2 - 56320) + 65536
  else RuneError.

(** *** Lemmas on bytes and UTF-8 *)

Lemma testbit_div (a n : Z) : 0 <= n -> Z.testbit a n = Z.odd (a / 2 ^ n).
Proof.
  intros Hn. rewrite <- Z.shiftr_div_pow2 by exact Hn. rewrite <- Z.bit0_odd.
  rewrite Z.shiftr_spec by lia. reflexivity.
Qed.

Lemma lor_disj (a b k : Z) :
  0 <= k -> 0 <= a -> a mod 2 ^ k = 0 -> 0 <= b < 2 ^ k -> Z.lor a b = a + b.
Proof.
  intros Hk Ha Hm Hb.
  assert (H0 : Z.land a b = 0).
  { apply Z.bits_inj'. intros n Hn. rewrite Z.land_spec, Z.bits_0.
    destruct (Z.lt_ge_cases n k) as [Hlt|Hge].
    - rewrite (testbit_div a n Hn).
      assert (Ha' : a = (a / 2 ^ k) * 2 ^ k).
      { pose proof (Z.div_mod a (2 ^ k)) as H. rewrite Hm in H.
        assert (2 ^ k <> 0) by (apply Z.pow_nonzero; lia). lia. }
      rewrite Ha'. set (q := a / 2 ^ k).
      replace (2 ^ k) with (2 ^ (k - n) * 2 ^ n) by (rewrite <- Z.pow_add_r by lia; f_equal; lia).
      rewrite Z.mul_assoc, Z.div_mul by (apply Z.pow_nonzero; lia).
      rewrite Z.odd_mul, Z.odd_pow by lia. rewrite andb_false_r. reflexivity.
    - rewrite (testbit_div b n Hn). rewrite Z.div_small; [apply andb_false_r|].
      split; [lia|]. apply Z.lt_le_trans with (2 ^ k); [lia|apply Z.pow_le_mono_r; lia]. }
  rewrite Z.add_nocarry_lxor by exact H0. rewrite Z.lxor_lor by exact H0. reflexivity.
Qed.

Lemma lor_8 (a b : Z) : 0 <= a -> a mod 8 = 0 -> 0 <= b < 8 -> Z.lor a b = a + b.
Proof. intros. apply (lor_disj a b 3); change (2 ^ 3) with 8; lia. Qed.
Lemma lor_16 (a b : Z) : 0 <= a -> a mod 16 = 0 -> 0 <= b < 16 -> Z.lor a b = a + b.
Proof. intros. apply (lor_disj a b 4); change (2 ^ 4) with 16; lia. Qed.
Lemma lor_64 (a b : Z) : 0 <= a -> a mod 64 = 0 -> 0 <= b < 64 -> Z.lor a b = a + b.
Proof. intros. apply (lor_disj a b 6); change (2 ^ 6) with 64; lia. Qed.
Lemma lor_1024 (a b : Z) : 0 <= a -> a mod 1024 = 0 -> 0 <= b < 1024 -> Z.lor a b = a + b.
Proof. intros. apply (lor_disj a b 10); change (2 ^ 10) with 1024; lia. Qed.
Lemma lor_4096 (a b : Z) : 0 <= a -> a mod 4096 = 0 -> 0 <= b < 4096 -> Z.lor a b = a + b.
Proof. intros. apply (lor_disj a b 12); change (2 ^ 12) with 4096; lia. Qed.
Lemma lor_262144 (a b : Z) :
  0 <= a -> a mod 262144 = 0 -> 0 <= b < 262144 -> Z.lor a b = a + b.
Proof. intros. apply (lor_disj a b 18); change (2 ^ 18) with 262144; lia. Qed.

Lemma land_mod (x : Z) :
  Z.land x 7 = x mod 8 /\ Z.land x 15 = x mod 16 /\ Z.land x 31 = x mod 32 /\
  Z.land x 63 = x mod 64.
Proof.
  repeat split;
    [apply (Z.land_ones x 3)|apply (Z.land_ones x 4)|apply (Z.land_ones x 5)|apply (Z.land_ones x 6)];
    lia.
Qed.

Lemma shift_mul (x : Z) :
  Z.shiftl x 6 = x * 64 /\ Z.shiftl x 10 = x * 1024 /\ Z.shiftl x 12 = x * 4096 /\
  Z.shiftl x 18 = x * 262144 /\
  Z.shiftr x 6 = x / 64 /\ Z.shiftr x 12 = x / 4096 /\ Z.shiftr x 18 = x / 262144.
Proof.
  repeat split;
    first [rewrite Z.shiftl_mul_pow2 by lia | rewrite Z.shiftr_div_pow2 by lia]; reflexivity.
Qed.

(** Bit operations on small numbers as arithmetic. *)
Ltac zbits :=
  repeat match goal with
    | |- context [Z.land ?x 7] => rewrite (proj1 (land_mod x))
    | |- context [Z.land ?x 15] => rewrite (proj1 (proj2 (land_mod x)))
    | |- context [Z.land ?x 31] => rewrite (proj1 (proj2 (proj2 (land_mod x))))
    | |- context [Z.land ?x 63] => rewrite (proj2 (proj2 (proj2 (land_mod x))))
    | |- context [Z.shiftl ?x 6] => rewrite (proj1 (shift_mul x))
    | |- context [Z.shiftl ?x 10] => rewrite (proj1 (proj2 (shift_mul x)))
    | |- context [Z.shiftl ?x 12] => rewrite (proj1 (proj2 (proj2 (shift_mul x))))
    | |- context [Z.shiftl ?x 18] => rewrite (proj1 (proj2 (proj2 (proj2 (shift_mul x)))))
    | |- context [Z.shiftr ?x 6] => rewrite (proj1 (proj2 (proj2 (proj2 (proj2 (shift_mul x))))))
    | |- context [Z.shiftr ?x 12] =>
        rewrite (proj1 (proj2 (proj2 (proj2 (proj2 (proj2 (shift_mul x)))))))
    | |- context [Z.shiftr ?x 18] =>
        rewrite (proj2 (proj2 (proj2 (proj2 (proj2 (proj2 (shift_mul x)))))))
    | |- context [Z.lor ?a ?b] =>
        first [ rewrite (lor_8 a b) by (Z.div_mod_to_equations; lia)
              | rewrite (lor_16 a b) by (Z.div_mod_to_equations; lia)
              | rewrite (lor_64 a b) by (Z.div_mod_to_equations; lia)
              | rewrite (lor_1024 a b) by (Z.div_mod_to_equations; lia)
              | rewrite (lor_4096 a b) by (Z.div_mod_to_equations; lia)
              | rewrite (lor_262144 a b) by (Z.div_mod_to_equations; lia) ]
    end.

(** Case analysis on the integer comparisons of the goal. *)
Ltac zdec :=
  repeat match goal with
    | |- context [Z.ltb ?a ?b] => destruct (Z.ltb_spec a b)
    | |- context [Z.leb ?a ?b] => destruct (Z.leb_spec a b)
    | |- context [Z.eqb ?a ?b] => destruct (Z.eqb_spec a b)
    end; cbn [andb orb negb] in *; try lia.

Lemma bval_range (c : ascii) : 0 <= bval c < 256.
Proof. unfold bval. pose proof (N_ascii_bounded c). lia. Qed.

Lemma bval_chr (z : Z) : 0 <= z < 256 -> bval (chr z) = z.
Proof.
  intros H. unfold bval, chr. rewrite Z.mod_small by exact H.
  rewrite N_ascii_embedding by lia. lia.
Qed.

Lemma chr_bval (c : ascii) : chr (bval c) = c.
Proof.
  unfold chr, bval. rewrite Z.mod_small by (pose proof (N_ascii_bounded c); lia).
  rewrite N2Z.id. apply ascii_N_embedding.
Qed.

Lemma bval_inj (c d : ascii) : bval c = bval d -> c = d.
Proof. intros H. rewrite <- (chr_bval c), <- (chr_bval d), H. reflexivity. Qed.

Ltac dec_step :=
  match goal with
  | |- context [Z.ltb ?a ?b] => destruct (Z.ltb_spec a b)
  | |- context [Z.leb ?a ?b] => destruct (Z.leb_spec a b)
  | |- context [Z.eqb ?a ?b] => destruct (Z.eqb_spec a b)
  end.

Ltac zcases :=
  unfold MaxRune, RuneError in *;
  repeat (dec_step; cbn [andb orb negb Nat.eqb Nat.ltb Nat.leb length] in *;
          try (exfalso; Z.div_mod_to_equations; lia)).

Ltac zarith := Z.div_mod_to_equations; lia.

Lemma EncodeRune_1 (r : Z) : 0 <= r <= 127 -> utf8_EncodeRune r = [chr r].
Proof. intros H. unfold utf8_EncodeRune. zcases. reflexivity. Qed.

Lemma EncodeRune_2 (r : Z) :
  128 <= r <= 2047 -> utf8_EncodeRune r = [chr (192 + r / 64); chr (128 + r mod 64)].
Proof.
  intros H. unfold utf8_EncodeRune. zcases; zbits; repeat f_equal; zarith.
Qed.

Lemma EncodeRune_3 (r : Z) :
  2048 <= r <= 65535 -> ~ (55296 <= r <= 57343) ->
  utf8_EncodeRune r = [chr (224 + r / 4096); chr (128 + (r / 64) mod 64); chr (128 + r mod 64)].
Proof.
  intros H Hs. unfold utf8_EncodeRune. zcases; zbits; repeat f_equal; zarith.
Qed.

Lemma EncodeRune_4 (r : Z) :
  65536 <= r <= MaxRune ->
  utf8_EncodeRune r = [chr (240 + r / 262144); chr (128 + (r / 4096) mod 64);
                       chr (128 + (r / 64) mod 64); chr (128 + r mod 64)].
Proof.
  unfold MaxRune. intros H. unfold utf8_EncodeRune. zcases; zbits; repeat f_equal; zarith.
Qed.

Lemma EncodeRune_invalid (r : Z) : ~ scalar r -> utf8_EncodeRune r = utf8_EncodeRune RuneError.
Proof.
  unfold scalar, MaxRune, RuneError. intros H. unfold utf8_EncodeRune at 1. zcases;
    try (exfalso; apply H; lia); reflexivity.
Qed.

Lemma chr_eq (c : ascii) (z : Z) : z = bval c -> chr z = c.
Proof. intros ->. apply chr_bval. Qed.

(** [DecodeRune] reads back what [EncodeRune] writes. *)
Lemma DecodeRune_EncodeRune (r : Z) (rest : list ascii) :
  scalar r -> utf8_DecodeRune (utf8_EncodeRune r ++ rest) = (r, length (utf8_EncodeRune r)).
Proof.
  unfold scalar, MaxRune. intros [H Hs].
  destruct (Z.leb_spec r 127).
  { rewrite EncodeRune_1 by lia. cbn [app]. unfold utf8_DecodeRune.
    rewrite bval_chr by lia. zcases. reflexivity. }
  destruct (Z.leb_spec r 2047).
  { rewrite EncodeRune_2 by lia. cbn [app]. unfold utf8_DecodeRune, first_info.
    rewrite !bval_chr by zarith. zcases; zbits; f_equal; zarith. }
  destruct (Z.leb_spec r 65535).
  { rewrite EncodeRune_3 by lia. cbn [app]. unfold utf8_DecodeRune, first_info.
    rewrite !bval_chr by zarith. zcases; zbits; f_equal; zarith. }
  rewrite EncodeRune_4 by (unfold MaxRune; lia). cbn [app]. unfold utf8_DecodeRune, first_info.
  rewrite !bval_chr by zarith. zcases; zbits; f_equal; zarith.
Qed.

Ltac chr_bytes :=
  repeat f_equal; symmetry; apply chr_eq; zarith.

Ltac close_dec :=
  split; [unfold scalar, MaxRune; zarith |];
  match goal with |- exists _, ?l = _ /\ ?k = _ => exists (skipn k l) end;
  first [ rewrite EncodeRune_2 by zarith
        | rewrite EncodeRune_3 by zarith
        | rewrite EncodeRune_4 by (unfold MaxRune; zarith) ];
  cbn [app length skipn]; split; [| reflexivity]; chr_bytes.

(** A rune [DecodeRune] reads without error is a scalar value, and the bytes
    it consumes are that value's encoding. *)
Lemma DecodeRune_valid (p : list ascii) (r : Z) (n : nat) :
  utf8_DecodeRune p = (r, n) -> (r, n) <> (RuneError, 1%nat) -> p <> [] ->
  scalar r /\ exists rest, p = utf8_EncodeRune r ++ rest /\ n = length (utf8_EncodeRune r).
Proof.
  destruct p as [|c0 p1]; [congruence|]. intros Hd Hne _. revert Hd Hne.
  pose proof (bval_range c0).
  unfold utf8_DecodeRune, first_info.
  destruct (Z.ltb_spec (bval c0) 128).
  { intros [= <- <-] _. split; [unfold scalar, MaxRune; lia|].
    exists p1. rewrite EncodeRune_1 by lia. cbn [app length]. split; [|reflexivity].
    f_equal. symmetry. apply chr_eq. reflexivity. }
  destruct p1 as [|c1 [|c2 [|c3 rest]]];
    repeat match goal with c : ascii |- _ =>
      lazymatch goal with _ : 0 <= bval c < 256 |- _ => fail | _ => pose proof (bval_range c) end end;
    zcases; intros [= <- <-] Hne; try (exfalso; apply Hne; reflexivity); zbits.
    all: close_dec.
Qed.

(** *** The scanner: [checkValid] ([encoding/json/scanner.go])

    The scanner is a state machine: [step] is the function that reads the
    next byte, [parseState] the stack of enclosing arrays and objects (its top
    is the head of the list; Go appends at the end of a slice), [err] the
    syntax error and [endTop] whether the top-level value has ended.  The
    offset [bytes] only enters [SyntaxError.Offset], which is not part of the
    error text, and is left out. *)

Inductive stepfn : Type :=
| stateBeginValueOrEmpty | stateBeginValue | stateBeginStringOrEmpty | stateBeginString
| stateEndValue | stateEndTop | stateInString | stateInStringEsc | stateInStringEscU
| stateInStringEscU1 | stateInStringEscU12 | stateInStringEscU123
| stateNeg | state1 | state0 | stateDot | stateDot0 | stateE | stateESign | stateE0
| stateT | stateTr | stateTru | stateF | stateFa | stateFal | stateFals
| stateN | stateNu | stateNul | stateError.

Inductive parse_state : Type := parseObjectKey | parseObjectValue | parseArrayValue.

Inductive scan_op : Type :=
| scanContinue | scanBeginLiteral | scanBeginObject | scanObjectKey | scanObjectValue
| scanEndObject | scanBeginArray | scanArrayValue | scanEndArray | scanSkipSpace
| scanEnd | scanError.

Record scanner : Type := mkScanner {
  step : stepfn;
  parseState : list parse_state;
  err : option string;
  endTop : bool }.

Definition set_step (s : scanner) (st : stepfn) : scanner :=
  mkScanner st (parseState s) (err s) (endTop s).
Definition set_parseState (s : scanner) (ps : list parse_state) : scanner :=
  mkScanner (step s) ps (err s) (endTop s).

Definition maxNestingDepth : Z := 10000.

(** [isSpace] *)
Definition isSpace (c : ascii) : bool := is_ws c.

Definition isDigit (c : ascii) : bool := (bval "0" <=? bval c) && (bval c <=? bval "9").

Definition hex_lower : list ascii := list_ascii_of_string "0123456789abcdef".
Definition hexd (n : Z) : ascii := nth (Z.to_nat n) hex_lower "0"%char.

(** [quoteChar(c)]: the single quote and the double quote are special; any
    other byte is quoted
    as [strconv.Quote(string(c))] does with the rune [c] ([U+0000] to
    [U+00FF]), between single quotes. *)
Definition quote_rune (r : Z) : list ascii :=
  if r =? 92 then [c_bslash; c_bslash]
  else if ((32 <=? r) && (r <=? 126)) || ((161 <=? r) && (r <=? 255) && negb (r =? 173))
  then utf8_EncodeRune r
  else if r =? 7 then [c_bslash; "a"%char]
  else if r =? 8 then [c_bslash; "b"%char]
  else if r =? 12 then [c_bslash; "f"%char]
  else if r =? 10 then [c_bslash; "n"%char]
  else if r =? 13 then [c_bslash; "r"%char]
  else if r =? 9 then [c_bslash; "t"%char]
  else if r =? 11 then [c_bslash; "v"%char]
  else if (r <? 32) || (r =? 127) then [c_bslash; "x"%char; hexd (r / 16); hexd (r mod 16)]
  else [c_bslash; "u"%char; "0"%char; "0"%char; hexd (r / 16); hexd (r mod 16)].

Definition quoteChar (c : ascii) : string :=
  if Ascii.eqb c "'" then "'\''"
  else if Ascii.eqb c c_quote then ("'" ++ dq ++ "'")%string
  else ("'" ++ string_of_list_ascii (quote_rune (bval c)) ++ "'")%string.

(** [s.error(c, context)] *)
Definition scan_error (s : scanner) (c : ascii) (context : string) : scanner * scan_op :=
  (mkScanner stateError (parseState s)
     (Some ("invalid character " ++ quoteChar c ++ " " ++ context)%string) (endTop s),
   scanError).

(** [s.pushParseState(c, newParseState, successState)] *)
Definition pushParseState (s : scanner) (c : ascii) (newParseState : parse_state)
    (successState : scan_op) : scanner * scan_op :=
  let s := set_parseState s (newParseState :: parseState s) in
  if Z.of_nat (length (parseState s)) <=? maxNestingDepth then (s, successState)
  else scan_error s c "exceeded max depth".

(** [s.popParseState()] *)
Definition popParseState (s : scanner) : scanner :=
  let ps := tl (parseState s) in
  match ps with
  | [] => mkScanner stateEndTop ps (err s) true
  | _ => mkScanner stateEndValue ps (err s) (endTop s)
  end.

Definition stateEndTop_fn (s : scanner) (c : ascii) : scanner * scan_op :=
  if negb (isSpace c) then (fst (scan_error s c "after top-level value"), scanEnd)
  else (s, scanEnd).

Definition stateEndValue_fn (s : scanner) (c : ascii) : scanner * scan_op :=
  match parseState s with
  | [] => stateEndTop_fn (mkScanner stateEndTop [] (err s) true) c
  | ps :: rest =>
      if isSpace c then (set_step s stateEndValue, scanSkipSpace)
      else
        match ps with
        | parseObjectKey =>
            if Ascii.eqb c ":" then
              (mkScanner stateBeginValue (parseObjectValue :: rest) (err s) (endTop s), scanObjectKey)
            else scan_error s c "after object key"
        | parseObjectValue =>
            if Ascii.eqb c "," then
              (mkScanner stateBeginString (parseObjectKey :: rest) (err s) (endTop s), scanObjectValue)
            else if Ascii.eqb c "}" then (popParseState s, scanEndObject)
            else scan_error s c "after object key:value pair"
        | parseArrayValue =>
            if Ascii.eqb c "," then (set_step s stateBeginValue, scanArrayValue)
            else if Ascii.eqb c "]" then (popParseState s, scanEndArray)
            else scan_error s c "after array element"
        end
  end.

Definition stateBeginValue_fn (s : scanner) (c : ascii) : scanner * scan_op :=
  if isSpace c then (s, scanSkipSpace)
  else if Ascii.eqb c "{" then
    pushParseState (set_step s stateBeginStringOrEmpty) c parseObjectKey scanBeginObject
  else if Ascii.eqb c "[" then
    pushParseState (set_step s stateBeginValueOrEmpty) c parseArrayValue scanBeginArray
  else if Ascii.eqb c c_quote then (set_step s stateInString, scanBeginLiteral)
  else if Ascii.eqb c "-" then (set_step s stateNeg, scanBeginLiteral)
  else if Ascii.eqb c "0" then (set_step s state0, scanBeginLiteral)
  else if Ascii.eqb c "t" then (set_step s stateT, scanBeginLiteral)
  else if Ascii.eqb c "f" then (set_step s stateF, scanBeginLiteral)
  else if Ascii.eqb c "n" then (set_step s stateN, scanBeginLiteral)
  else if (bval "1" <=? bval c) && (bval c <=? bval "9") then (set_step s state1, scanBeginLiteral)
  else scan_error s c "looking for beginning of value".

Definition stateBeginValueOrEmpty_fn (s : scanner) (c : ascii) : scanner * scan_op :=
  if isSpace c then (s, scanSkipSpace)
  else if Ascii.eqb c "]" then stateEndValue_fn s c
  else stateBeginValue_fn s c.

Definition stateBeginString_fn (s : scanner) (c : ascii) : scanner * scan_op :=
  if isSpace c then (s, scanSkipSpace)
  else if Ascii.eqb c c_quote then (set_step s stateInString, scanBeginLiteral)
  else scan_error s c "looking for beginning of object key string".

(** [s.parseState[n-1] = parseObjectValue]: this state is entered only just
    after a push, so the stack is not empty. *)
Definition stateBeginStringOrEmpty_fn (s : scanner) (c : ascii) : scanner * scan_op :=
  if isSpace c then (s, scanSkipSpace)
  else if Ascii.eqb c "}" then
    stateEndValue_fn (set_parseState s (parseObjectValue :: tl (parseState s))) c
  else stateBeginString_fn s c.

Definition stateInString_fn (s : scanner) (c : ascii) : scanner * scan_op :=
  if Ascii.eqb c c_quote then (set_step s stateEndValue, scanContinue)
  else if Ascii.eqb c c_bslash then (set_step s stateInStringEsc, scanContinue)
  else if bval c <? 32 then scan_error s c "in string literal"
  else (s, scanContinue).

Definition stateInStringEsc_fn (s : scanner) (c : ascii) : scanner * scan_op :=
  if existsb (Ascii.eqb c) ["b"; "f"; "n"; "r"; "t"; c_bslash; "/"; c_quote]%char
  then (set_step s stateInString, scanContinue)
  else if Ascii.eqb c "u" then (set_step s stateInStringEscU, scanContinue)
  else scan_error s c "in string escape code".

Definition isHex (c : ascii) : bool :=
  isDigit c || ((bval "a" <=? bval c) && (bval c <=? bval "f"))
  || ((bval "A" <=? bval c) && (bval c <=? bval "F")).

Definition stateInStringEscU_fn (next : stepfn) (s : scanner) (c : ascii) : scanner * scan_op :=
  if isHex c then (set_step s next, scanContinue)
  else scan_error s c "in \u hexadecimal character escape".

Definition stateNeg_fn (s : scanner) (c : ascii) : scanner * scan_op :=
  if Ascii.eqb c "0" then (set_step s state0, scanContinue)
  else if (bval "1" <=? bval c) && (bval c <=? bval "9") then (set_step s state1, scanContinue)
  else scan_error s c "in numeric literal".

Definition state0_fn (s : scanner) (c : ascii) : scanner * scan_op :=
  if Ascii.eqb c "." then (set_step s stateDot, scanContinue)
  else if Ascii.eqb c "e" || Ascii.eqb c "E" then (set_step s stateE, scanContinue)
  else stateEndValue_fn s c.

Definition state1_fn (s : scanner) (c : ascii) : scanner * scan_op :=
  if isDigit c then (set_step s state1, scanContinue)
  else state0_fn s c.

Definition stateDot_fn (s : scanner) (c : ascii) : scanner * scan_op :=
  if isDigit c then (set_step s stateDot0, scanContinue)
  else scan_error s c "after decimal point in numeric literal".

Definition stateDot0_fn (s : scanner) (c : ascii) : scanner * scan_op :=
  if isDigit c then (s, scanContinue)
  else if Ascii.eqb c "e" || Ascii.eqb c "E" then (set_step s stateE, scanContinue)
  else stateEndValue_fn s c.

Definition stateESign_fn (s : scanner) (c : ascii) : scanner * scan_op :=
  if isDigit c then (set_step s stateE0, scanContinue)
  else scan_error s c "in exponent of numeric literal".

Definition stateE_fn (s : scanner) (c : ascii) : scanner * scan_op :=
  if Ascii.eqb c "+" || Ascii.eqb c "-" then (set_step s stateESign, scanContinue)
  else stateESign_fn s c.

Definition stateE0_fn (s : scanner) (c : ascii) : scanner * scan_op :=
  if isDigit c then (s, scanContinue)
  else stateEndValue_fn s c.

(** The letters of [true], [false] and [null]: the expected byte, the next
    state, and the error context. *)
Definition state_lit_fn (expect : ascii) (next : stepfn) (context : string)
    (s : scanner) (c : ascii) : scanner * scan_op :=
  if Ascii.eqb c expect then (set_step s next, scanContinue)
  else scan_error s c context.

Definition state_lit_last_fn (expect : ascii) (context : string)
    (s : scanner) (c : ascii) : scanner * scan_op :=
  if Ascii.eqb c expect then (set_step s stateEndValue, scanContinue)
  else scan_error s c context.

(** [s.step(s, c)] *)
Definition scan_step (s : scanner) (c : ascii) : scanner * scan_op :=
  match step s with
  | stateBeginValueOrEmpty => stateBeginValueOrEmpty_fn s c
  | stateBeginValue => stateBeginValue_fn s c
  | stateBeginStringOrEmpty => stateBeginStringOrEmpty_fn s c
  | stateBeginString => stateBeginString_fn s c
  | stateEndValue => stateEndValue_fn s c
  | stateEndTop => stateEndTop_fn s c
  | stateInString => stateInString_fn s c
  | stateInStringEsc => stateInStringEsc_fn s c
  | stateInStringEscU => stateInStringEscU_fn stateInStringEscU1 s c
  | stateInStringEscU1 => stateInStringEscU_fn stateInStringEscU12 s c
  | stateInStringEscU12 => stateInStringEscU_fn stateInStringEscU123 s c
  | stateInStringEscU123 => stateInStringEscU_fn stateInString s c
  | stateNeg => stateNeg_fn s c
  | state1 => state1_fn s c
  | state0 => state0_fn s c
  | stateDot => stateDot_fn s c
  | stateDot0 => stateDot0_fn s c
  | stateE => stateE_fn s c
  | stateESign => stateESign_fn s c
  | stateE0 => stateE0_fn s c
  | stateT => state_lit_fn "r" stateTr "in literal true (expecting 'r')" s c
  | stateTr => state_lit_fn "u" stateTru "in literal true (expecting 'u')" s c
  | stateTru => state_lit_last_fn "e" "in literal true (expecting 'e')" s c
  | stateF => state_lit_fn "a" stateFa "in literal false (expecting 'a')" s c
  | stateFa => state_lit_fn "l" stateFal "in literal false (expecting 'l')" s c
  | stateFal => state_lit_fn "s" stateFals "in literal false (expecting 's')" s c
  | stateFals => state_lit_last_fn "e" "in literal false (expecting 'e')" s c
  | stateN => state_lit_fn "u" stateNu "in literal null (expecting 'u')" s c
  | stateNu => state_lit_fn "l" stateNul "in literal null (expecting 'l')" s c
  | stateNul => state_lit_last_fn "l" "in literal null (expecting 'l')" s c
  | stateError => (s, scanError)
  end.

(** [scan.reset()] *)
Definition scan_reset : scanner := mkScanner stateBeginValue [] None false.

(** The loop of [checkValid]: step every byte; stop at the first
    [scanError] with [scan.err]. *)
Fixpoint scan_loop (s : scanner) (data : list ascii) : scanner + string :=
  match data with
  | [] => inl s
  | c :: data' =>
      let '(s', op) := scan_step s c in
      match op with
      | scanError => inr (match err s' with Some e => e | None => EmptyString end)
      | _ => scan_loop s' data'
      end
  end.

(** [s.eof()]: [None] for [scanEnd], [Some e] for [scanError] with [s.err = e]. *)
Definition scan_eof (s : scanner) : option string :=
  match err s with
  | Some e => Some e
  | None =>
      if endTop s then None
      else
        let s' := fst (scan_step s " "%char) in
        if endTop s' then None
        else match err s' with
             | Some e => Some e
             | None => Some "unexpected end of JSON input"
             end
  end.

(** [checkValid(data, scan)]: [None] is a nil error. *)
Definition checkValid (data : list ascii) : option string :=
  match scan_loop scan_reset data with
  | inr e => Some e
  | inl s => scan_eof s
  end.

(** *** [unquoteBytes] ([encoding/json/decode.go]) *)

(** The value of a hexadecimal digit in [getu4], [-1] for another byte. *)
Definition hexval (c : ascii) : Z :=
  let b := bval c in
  if (bval "0" <=? b) && (b <=? bval "9") then b - bval "0"
  else if (bval "a" <=? b) && (b <=? bval "f") then b - bval "a" + 10
  else if (bval "A" <=? b) && (b <=? bval "F") then b - bval "A" + 10
  else -1.

(** [getu4(s)]: the code unit of a [\uXXXX] escape at the start of [s], or [-1]. *)
Definition getu4 (s : list ascii) : Z :=
  match s with
  | b :: u :: c1 :: c2 :: c3 :: c4 :: _ =>
      if Ascii.eqb b c_bslash && Ascii.eqb u "u" then
        let h1 := hexval c1 in let h2 := hexval c2 in
        let h3 := hexval c3 in let h4 := hexval c4 in
        if (h1 <? 0) || (h2 <? 0) || (h3 <? 0) || (h4 <? 0) then -1
        else ((h1 * 16 + h2) * 16 + h3) * 16 + h4
      else -1
  | _ => -1
  end.

(** The first loop of [unquoteBytes]: the length of the prefix that needs no
    unquoting (no backslash, quote or control byte, and well-formed UTF-8).
    Each round consumes at least one byte, so [length s] rounds suffice. *)
Fixpoint fast_len (fuel : nat) (s : list ascii) : nat :=
  match fuel, s with
  | O, _ => O
  | _, [] => O
  | S fuel', c :: s' =>
      if Ascii.eqb c c_bslash || Ascii.eqb c c_quote || (bval c <? 32) then O
      else if bval c <? 128 then S (fast_len fuel' s')
      else
        let '(rr, size) := utf8_DecodeRune s in
        if (rr =? RuneError) && (size =? 1)%nat then O
        else (size + fast_len fuel' (skipn size s))%nat
  end.

(** The second loop of [unquoteBytes], from the first byte that needs
    unquoting; [None] is [return] with [ok = false]. *)
Fixpoint unquote_loop (fuel : nat) (s : list ascii) : option (list ascii) :=
  match fuel with
  | O => None
  | S fuel' =>
      match s with
      | [] => Some []
      | c :: s' =>
          if Ascii.eqb c c_bslash then
            match s' with
            | [] => None
            | e :: s'' =>
                if existsb (Ascii.eqb e) [c_quote; c_bslash; "/"; "'"]%char then
                  option_map (cons e) (unquote_loop fuel' s'')
                else if Ascii.eqb e "b" then option_map (cons (ascii_of_nat 8)) (unquote_loop fuel' s'')
                else if Ascii.eqb e "f" then option_map (cons (ascii_of_nat 12)) (unquote_loop fuel' s'')
                else if Ascii.eqb e "n" then option_map (cons c_nl) (unquote_loop fuel' s'')
                else if Ascii.eqb e "r" then option_map (cons c_cr) (unquote_loop fuel' s'')
                else if Ascii.eqb e "t" then option_map (cons c_tab) (unquote_loop fuel' s'')
                else if Ascii.eqb e "u" then
                  let rr := getu4 s in
                  if rr <? 0 then None
                  else
                    let s6 := skipn 6 s in
                    if utf16_IsSurrogate rr then
                      let dec := utf16_DecodeRune rr (getu4 s6) in
                      if negb (dec =? RuneError) then
                        option_map (app (utf8_EncodeRune dec)) (unquote_loop fuel' (skipn 6 s6))
                      else option_map (app (utf8_EncodeRune RuneError)) (unquote_loop fuel' s6)
                    else option_map (app (utf8_EncodeRune rr)) (unquote_loop fuel' s6)
                else None
            end
          else if Ascii.eqb c c_quote || (bval c <? 32) then None
          else if bval c <? 128 then option_map (cons c) (unquote_loop fuel' s')
          else
            let '(rr, size) := utf8_DecodeRune s in
            option_map (app (utf8_EncodeRune rr)) (unquote_loop fuel' (skipn size s))
      end
  end.

(** [unquoteBytes(s)] on a quoted literal. *)
Definition unquoteBytes (item : list ascii) : option (list ascii) :=
  match item with
  | q :: rest =>
      if negb (Ascii.eqb q c_quote) then None
      else
        match rev rest with
        | q' :: rbody =>
            if negb (Ascii.eqb q' c_quote) then None
            else
              let s := rev rbody in
              let r := fast_len (length s) s in
              if (r =? length s)%nat then Some s
              else option_map (app (firstn r s)) (unquote_loop (S (length s)) (skipn r s))
        | [] => None
        end
  | [] => None
  end.

(** *** [rescanLiteral]: the extent of a literal *)

(** A string literal, after its opening quote: up to the first quote not
    preceded by a backslash, the quote included. *)
Fixpoint rescan_string (s : list ascii) : list ascii * list ascii :=
  match s with
  | [] => ([], [])
  | c :: s' =>
      if Ascii.eqb c c_bslash then
        match s' with
        | [] => ([c], [])
        | e :: s'' => let '(a, b) := rescan_string s'' in (c :: e :: a, b)
        end
      else if Ascii.eqb c c_quote then ([c], s')
      else let '(a, b) := rescan_string s' in (c :: a, b)
  end.

(** A number literal, after its first byte: the bytes [0-9 . e E + -]. *)
Definition is_num_char (c : ascii) : bool :=
  isDigit c || existsb (Ascii.eqb c) ["."; "e"; "E"; "+"; "-"]%char.

Fixpoint rescan_number (s : list ascii) : list ascii * list ascii :=
  match s with
  | c :: s' => if is_num_char c then let '(a, b) := rescan_number s' in (c :: a, b) else ([], s)
  | [] => ([], [])
  end.

(** *** Byte strings in Go's order ([strings.Compare]) *)
Fixpoint bytes_compare (a b : list ascii) : comparison :=
  match a, b with
  | [], [] => Eq
  | [], _ :: _ => Lt
  | _ :: _, [] => Gt
  | x :: a', y :: b' =>
      match Z.compare (bval x) (bval y) with
      | Eq => bytes_compare a' b'
      | c => c
      end
  end.

(** *** [appendString] ([encoding/json/encode.go], [escapeHTML] on) *)

(** [htmlSafeSet[b]] for an ASCII byte. *)
Definition htmlSafe (b : Z) : bool :=
  (32 <=? b) && negb (b =? 34) && negb (b =? 92) && negb (b =? 60) && negb (b =? 62)
  && negb (b =? 38).

(** The bytes written for [src[i:]]; [utf8.DecodeRuneInString] on the window
    [src[i:i+4]] reads what [DecodeRune] reads on [src[i:]]. *)
Fixpoint appendString_body (fuel : nat) (src : list ascii) : list ascii :=
  match fuel with
  | O => []
  | S fuel' =>
      match src with
      | [] => []
      | b :: src' =>
          let x := bval b in
          if x <? 128 then
            if htmlSafe x then b :: appendString_body fuel' src'
            else
              (if (x =? 92) || (x =? 34) then [c_bslash; b]
               else if x =? 8 then [c_bslash; "b"%char]
               else if x =? 12 then [c_bslash; "f"%char]
               else if x =? 10 then [c_bslash; "n"%char]
               else if x =? 13 then [c_bslash; "r"%char]
               else if x =? 9 then [c_bslash; "t"%char]
               else [c_bslash; "u"%char; "0"%char; "0"%char; hexd (Z.shiftr x 4); hexd (Z.land x 15)])
              ++ appendString_body fuel' src'
          else
            let '(c, size) := utf8_DecodeRune src in
            if (c =? RuneError) && (size =? 1)%nat then
              list_ascii_of_string "\ufffd" ++ appendString_body fuel' src'
            else if (c =? 8232) || (c =? 8233) then
              [c_bslash; "u"%char; "2"%char; "0"%char; "2"%char; hexd (Z.land c 15)]
              ++ appendString_body fuel' (skipn size src)
            else firstn size src ++ appendString_body fuel' (skipn size src)
      end
  end.

Definition appendString (src : list ascii) : list ascii :=
  c_quote :: appendString_body (length src) src ++ [c_quote].

(** *** Values, [Unmarshal] and [Marshal]

    Numbers decode to [float64]: the type of finite [float64] values, the
    conversion [strconv.ParseFloat(s, 64)] ([None] for a number out of
    range, [ErrRange]) and the encoder's format of a [float64] ([floatEncoder])
    are parameters. *)
Section GoJSON.

Variable float64 : Type.
Variable ParseFloat : string -> option float64.
Variable FormatFloat : float64 -> string.

(** A decoded [interface{}] value.  A Go map is kept as the list of its
    entries sorted by key, each key once: two maps are equal exactly when
    they hold the same entries. *)
Inductive jval : Type :=
| JNull
| JBool (b : bool)
| JNum (x : float64)
| JStr (s : list ascii)
| JArr (l : list jval)
| JObj (m : list (list ascii * jval)).

Definition jmap : Type := list (list ascii * jval).

(** [v, ok := m[k]] *)
Fixpoint jmap_get (k : list ascii) (m : jmap) : option jval :=
  match m with
  | [] => None
  | (k', v) :: m' => match bytes_compare k k' with Eq => Some v | _ => jmap_get k m' end
  end.

(** [m[k] = v] *)
Fixpoint jmap_set (k : list ascii) (v : jval) (m : jmap) : jmap :=
  match m with
  | [] => [(k, v)]
  | (k', v') :: m' =>
      match bytes_compare k k' with
      | Lt => (k, v) :: m
      | Eq => (k, v) :: m'
      | Gt => (k', v') :: jmap_set k v m'
      end
  end.

Definition phasePanicMsg : string := "JSON decoder out of sync - data changing underfoot?".

(** [d.saveError(err)]: only the first error is kept. *)
Definition saveError (saved : option string) (e : string) : option string :=
  match saved with None => Some e | Some _ => saved end.

(** [convertNumber]'s error *)
Definition number_error (lit : string) : string :=
  ("json: cannot unmarshal number " ++ lit ++ " into Go value of type float64")%string.

(** The decoder ([d.valueInterface], [d.arrayInterface], [d.objectInterface],
    [d.literalInterface]) on input [checkValid] accepted.  It walks the bytes
    with the decoder's own scanner: [depth] is the length of that scanner's
    [parseState], and pushing past [maxNestingDepth] gives [scanError], on
    which the walk panics with [phasePanicMsg] ([None]).  White space is
    skipped as [scanWhile(scanSkipSpace)] does; a literal's extent is found
    as by [rescanLiteral].  The result is the value, the saved error and the
    remaining bytes. *)
Fixpoint dec_value (fuel : nat) (depth : Z) (sv : option string) (s : list ascii)
    : option (jval * option string * list ascii) :=
  match fuel with
  | O => None
  | S fuel' =>
      match s with
      | [] => None
      | c :: r =>
          if Ascii.eqb c "{" then
            if depth + 1 <=? maxNestingDepth then
              match dec_object fuel' (depth + 1) sv [] r with
              | Some (m, sv', r') => Some (JObj m, sv', r')
              | None => None
              end
            else None
          else if Ascii.eqb c "[" then
            if depth + 1 <=? maxNestingDepth then
              match dec_array fuel' (depth + 1) sv [] r with
              | Some (l, sv', r') => Some (JArr l, sv', r')
              | None => None
              end
            else None
          else if Ascii.eqb c c_quote then
            let '(lit, r') := rescan_string r in
            match unquoteBytes (c :: lit) with
            | Some t => Some (JStr t, sv, r')
            | None => None
            end
          else if Ascii.eqb c "t" then Some (JBool true, sv, skipn 3 r)
          else if Ascii.eqb c "f" then Some (JBool false, sv, skipn 4 r)
          else if Ascii.eqb c "n" then Some (JNull, sv, skipn 3 r)
          else if Ascii.eqb c "-" || isDigit c then
            let '(lit, r') := rescan_number r in
            let item := string_of_list_ascii (c :: lit) in
            match ParseFloat item with
            | Some x => Some (JNum x, sv, r')
            | None => Some (JNull, saveError sv (number_error item), r')
            end
          else None
      end
  end
with dec_array (fuel : nat) (depth : Z) (sv : option string) (acc : list jval)
    (s : list ascii) : option (list jval * option string * list ascii) :=
  match fuel with
  | O => None
  | S fuel' =>
      match skip_ws s with
      | [] => None
      | c :: r =>
          if Ascii.eqb c "]" then Some (rev acc, sv, r)
          else
            match dec_value fuel' depth sv (c :: r) with
            | None => None
            | Some (v, sv', r') =>
                match skip_ws r' with
                | [] => None
                | c' :: r'' =>
                    if Ascii.eqb c' "]" then Some (rev (v :: acc), sv', r'')
                    else if Ascii.eqb c' "," then dec_array fuel' depth sv' (v :: acc) r''
                    else None
                end
            end
      end
  end
with dec_object (fuel : nat) (depth : Z) (sv : option string) (m : jmap)
    (s : list ascii) : option (jmap * option string * list ascii) :=
  match fuel with
  | O => None
  | S fuel' =>
      match skip_ws s with
      | [] => None
      | c :: r =>
          if Ascii.eqb c "}" then Some (m, sv, r)
          else if Ascii.eqb c c_quote then
            let '(lit, r1) := rescan_string r in
            match unquoteBytes (c :: lit) with
            | None => None
            | Some key =>
                match skip_ws r1 with
                | [] => None
                | c1 :: r2 =>
                    if Ascii.eqb c1 ":" then
                      match dec_value fuel' depth sv (skip_ws r2) with
                      | None => None
                      | Some (v, sv', r3) =>
                          let m' := jmap_set key v m in
                          match skip_ws r3 with
                          | [] => None
                          | c3 :: r4 =>
                              if Ascii.eqb c3 "}" then Some (m', sv', r4)
                              else if Ascii.eqb c3 "," then dec_object fuel' depth sv' m' r4
                              else None
                          end
                      end
                    else None
                end
            end
          else None
      end
  end.

Definition map_type_error (what : string) : string :=
  ("json: cannot unmarshal " ++ what ++ " into Go value of type map[string]interface {}")%string.

(** [var m map[string]interface{}; err := json.Unmarshal(data, &m)]: a
    syntax error from [checkValid]; then the top-level value is stored into
    the map: an object fills it, [null] leaves it nil ([Ok None]), another
    kind is an [UnmarshalTypeError]; the error saved during the walk, if any,
    is returned. *)
Definition Unmarshal_map (data : string) : go_result (option jmap) :=
  let d := list_ascii_of_string data in
  match checkValid d with
  | Some e => Err e
  | None =>
      match skip_ws d with
      | [] => Panic phasePanicMsg
      | c :: r =>
          if Ascii.eqb c "{" then
            match dec_object (S (length d)) 1 None [] r with
            | None => Panic phasePanicMsg
            | Some (m, None, _) => Ok (Some m)
            | Some (_, Some e, _) => Err e
            end
          else if Ascii.eqb c "n" then Ok None
          else if Ascii.eqb c "[" then Err (map_type_error "array")
          else if Ascii.eqb c "t" || Ascii.eqb c "f" then Err (map_type_error "bool")
          else if Ascii.eqb c c_quote then
            match unquoteBytes (c :: fst (rescan_string r)) with
            | None => Panic phasePanicMsg
            | Some _ => Err (map_type_error "string")
            end
          else if Ascii.eqb c "-" || isDigit c then Err (map_type_error "number")
          else Panic phasePanicMsg
      end
  end.

(** Insertion into a list of (key, encoded value) pairs sorted by key, and
    the sort of [mapEncoder] ([slices.SortFunc] by [strings.Compare]; the keys
    of a map are distinct, so the order is determined). *)
Fixpoint sort_insert (e : list ascii * list ascii) (l : list (list ascii * list ascii))
    : list (list ascii * list ascii) :=
  match l with
  | [] => [e]
  | e' :: l' =>
      match bytes_compare (fst e) (fst e') with
      | Gt => e' :: sort_insert e l'
      | _ => e :: l
      end
  end.

Definition sort_entries (l : list (list ascii * list ascii)) : list (list ascii * list ascii) :=
  fold_right sort_insert [] l.

Fixpoint join_comma (l : list (list ascii)) : list ascii :=
  match l with
  | [] => []
  | [x] => x
  | x :: l' => x ++ ","%char :: join_comma l'
  end.

(** [json.Marshal(v)] on a decoded value: [interfaceEncoder] dispatches on
    the dynamic type; [mapEncoder] writes the entries sorted by key (each
    value is encoded first and the encoded pairs are sorted, which writes
    the same bytes: encoding a value has no effect here); [sliceEncoder]
    writes the elements (a decoded slice is never nil); a number goes through
    [floatEncoder].  Decoded values hold no NaN, infinity or cycle, so
    marshalling does not fail. *)
Fixpoint Marshal_value (v : jval) : list ascii :=
  match v with
  | JNull => list_ascii_of_string "null"
  | JBool true => list_ascii_of_string "true"
  | JBool false => list_ascii_of_string "false"
  | JNum x => list_ascii_of_string (FormatFloat x)
  | JStr s => appendString s
  | JArr l => "["%char :: join_comma (map Marshal_value l) ++ ["]"%char]
  | JObj m =>
      "{"%char ::
        join_comma (map (fun e => appendString (fst e) ++ ":"%char :: snd e)
                        (sort_entries (map (fun e => (fst e, Marshal_value (snd e))) m)))
        ++ ["}"%char]
  end.

(** [mergeMap] on decoded maps (as [mergeMap] above). *)
Fixpoint jmerge_loop (merge_value : option jval -> jval -> jval) (dst src : jmap) : jmap :=
  match src with
  | [] => dst
  | (key, srcVal) :: src' =>
      jmerge_loop merge_value (jmap_set key (merge_value (jmap_get key dst) srcVal) dst) src'
  end.

Fixpoint jmerge_value (dstVal : option jval) (srcVal : jval) : jval :=
  match dstVal, srcVal with
  | Some (JObj dstMap), JObj srcMap => JObj (jmerge_loop jmerge_value dstMap srcMap)
  | _, _ => srcVal
  end.

Definition jmergeMap (dst src : jmap) : jmap := jmerge_loop jmerge_value dst src.

(** [overrideJSON] with [encoding/json] as above. *)
Definition overrideJSON_go (jsonData : string) (overrides : jmap) : go_result string :=
  match Unmarshal_map jsonData with
  | Err e => Err ("failed to unmarshal original JSON: " ++ e)%string
  | Panic p => Panic p
  | Ok None =>
      match overrides with
      | [] => Ok "null"
      | _ :: _ => Panic "assignment to entry in nil map"
      end
  | Ok (Some original) =>
      Ok (string_of_list_ascii (Marshal_value (JObj (jmergeMap original overrides))))
  end.

End GoJSON.

Arguments JNull {float64}.
Arguments JBool {float64} b.
Arguments JNum {float64} x.
Arguments JStr {float64} s.
Arguments JArr {float64} l.
Arguments JObj {float64} m.

(** An instance of the number parameters, used by the examples: integers,
    written in decimal; a literal that is not an integer is taken as out of
    range. *)
Definition FormatFloat_Z (z : Z) : string := string_of_list_ascii (print_number z).
Definition ParseFloat_Z (s : string) : option Z :=
  match parse_number (list_ascii_of_string s) with
  | Some (GNum z, []) => Some z
  | _ => None
  end.

(** *** Lemmas: byte order and sorted maps *)

Lemma bytes_compare_eq (a b : list ascii) : bytes_compare a b = Eq <-> a = b.
Proof.
  revert b; induction a as [|x a IH]; intros [|y b]; cbn; try (split; congruence).
  destruct (Z.compare_spec (bval x) (bval y)) as [E|E|E].
  - rewrite IH. split; [intros ->; f_equal; apply bval_inj; exact E | congruence].
  - split; [discriminate|]. intros [= -> ->]. lia.
  - split; [discriminate|]. intros [= -> ->]. lia.
Qed.

Lemma bytes_compare_refl (a : list ascii) : bytes_compare a a = Eq.
Proof. apply bytes_compare_eq. reflexivity. Qed.

Lemma bytes_compare_antisym (a b : list ascii) : bytes_compare b a = CompOpp (bytes_compare a b).
Proof.
  revert b; induction a as [|x a IH]; intros [|y b]; cbn; try reflexivity.
  rewrite (Z.compare_antisym (bval x) (bval y)).
  destruct (Z.compare (bval x) (bval y)); cbn; auto.
Qed.

Lemma bytes_compare_trans (a b c : list ascii) :
  bytes_compare a b = Lt -> bytes_compare b c = Lt -> bytes_compare a c = Lt.
Proof.
  revert b c; induction a as [|x a IH]; intros [|y b] [|z c]; cbn; try congruence.
  destruct (Z.compare_spec (bval x) (bval y)) as [E1|E1|E1];
    destruct (Z.compare_spec (bval y) (bval z)) as [E2|E2|E2]; try congruence;
    destruct (Z.compare_spec (bval x) (bval z)) as [E3|E3|E3]; try lia; auto.
  rewrite <- E3 in E2. pose proof (bval_inj _ _ E1). pose proof (bval_inj _ _ E3).
  subst. eauto.
Qed.

(** Keys strictly increasing *)
Fixpoint keys_sorted {A : Type} (m : list (list ascii * A)) : Prop :=
  match m with
  | [] => True
  | (k, _) :: m' => Forall (fun e => bytes_compare k (fst e) = Lt) m' /\ keys_sorted m'
  end.

Section Maps.
Variable float64 : Type.
Abbreviation jval := (jval float64).
Abbreviation jmap := (jmap float64).

Lemma jmap_set_Forall_lt (k0 k : list ascii) (v : jval) (m : jmap) :
  Forall (fun e => bytes_compare k0 (fst e) = Lt) m -> bytes_compare k0 k = Lt ->
  Forall (fun e => bytes_compare k0 (fst e) = Lt) (jmap_set float64 k v m).
Proof.
  intros H Hk. induction H as [|[k' v'] m' H1 H2 IH]; cbn; [constructor; auto|].
  destruct (bytes_compare k k'); repeat constructor; auto.
Qed.

Lemma jmap_set_sorted (k : list ascii) (v : jval) (m : jmap) :
  keys_sorted m -> keys_sorted (jmap_set float64 k v m).
Proof.
  induction m as [|[k' v'] m' IH]; cbn; [auto|]. intros [H1 H2].
  destruct (bytes_compare k k') eqn:E; cbn.
  - apply bytes_compare_eq in E. subst. auto.
  - split; [|split; auto]. constructor; [exact E|].
    eapply List.Forall_impl; [|exact H1]. intros [k2 v2] H. cbn in *. eapply bytes_compare_trans; eauto.
  - split; [|auto]. apply jmap_set_Forall_lt; auto.
    rewrite bytes_compare_antisym, E. reflexivity.
Qed.

Lemma jmap_set_last (k : list ascii) (v : jval) (m : jmap) :
  Forall (fun e => bytes_compare (fst e) k = Lt) m -> jmap_set float64 k v m = m ++ [(k, v)].
Proof.
  induction 1 as [|[k' v'] m' H1 H2 IH]; cbn; [reflexivity|].
  cbn in H1. rewrite bytes_compare_antisym, H1. cbn. rewrite IH. reflexivity.
Qed.

Lemma Forall_in_map {A B} (P : B -> Prop) (f : A -> B) (l : list A) :
  Forall (fun a => P (f a)) l -> Forall P (map f l).
Proof. induction 1; constructor; auto. Qed.

Lemma keys_sorted_map {A B : Type} (f : A -> B) (m : list (list ascii * A)) :
  keys_sorted m -> keys_sorted (map (fun e => (fst e, f (snd e))) m).
Proof.
  induction m as [|[k a] m IH]; cbn; [auto|]. intros [H1 H2]. split; [|auto].
  apply Forall_in_map. exact H1.
Qed.

End Maps.

Lemma sort_insert_head (e : list ascii * list ascii) (l : list (list ascii * list ascii)) :
  Forall (fun e' => bytes_compare (fst e) (fst e') = Lt) l -> sort_insert e l = e :: l.
Proof. destruct 1 as [|e' l' H]; cbn; [reflexivity|]. rewrite H. reflexivity. Qed.

Lemma sort_entries_sorted (l : list (list ascii * list ascii)) :
  keys_sorted l -> sort_entries l = l.
Proof.
  induction l as [|[k a] l IH]; cbn; [reflexivity|]. intros [H1 H2].
  unfold sort_entries in IH. rewrite IH by exact H2. apply sort_insert_head. exact H1.
Qed.

(** *** Lemmas: UTF-8 *)

Lemma bval_chr' (z : Z) : 0 <= z < 256 -> bval (chr z) = z.
Proof. apply bval_chr. Qed.

Lemma EncodeRune_high (r : Z) :
  scalar r -> 128 <= r -> Forall (fun b => 128 <= bval b) (utf8_EncodeRune r).
Proof.
  unfold scalar, MaxRune. intros [H Hs] Hr.
  destruct (Z.leb_spec r 2047).
  { rewrite EncodeRune_2 by lia. repeat constructor; rewrite bval_chr; zarith. }
  destruct (Z.leb_spec r 65535).
  { rewrite EncodeRune_3 by lia. repeat constructor; rewrite bval_chr; zarith. }
  rewrite EncodeRune_4 by (unfold MaxRune; lia). repeat constructor; rewrite bval_chr; zarith.
Qed.

Lemma EncodeRune_length (r : Z) :
  scalar r -> (1 <= length (utf8_EncodeRune r) <= 4)%nat /\
              ((length (utf8_EncodeRune r) = 1)%nat <-> r < 128).
Proof.
  unfold scalar, MaxRune. intros [H Hs].
  destruct (Z.leb_spec r 127). { rewrite EncodeRune_1 by lia. cbn. split; [lia|split; intros; lia]. }
  destruct (Z.leb_spec r 2047). { rewrite EncodeRune_2 by lia. cbn. split; [lia|split; intros; lia]. }
  destruct (Z.leb_spec r 65535). { rewrite EncodeRune_3 by lia. cbn. split; [lia|split; intros; lia]. }
  rewrite EncodeRune_4 by (unfold MaxRune; lia). cbn. split; [lia|split; intros; lia].
Qed.

Lemma EncodeRune_ascii (c : ascii) : bval c < 128 -> utf8_EncodeRune (bval c) = [c].
Proof.
  intros H. pose proof (bval_range c). rewrite EncodeRune_1 by lia. f_equal. apply chr_bval.
Qed.

Lemma scalar_RuneError : scalar RuneError.
Proof. unfold scalar, RuneError, MaxRune. lia. Qed.

Lemma valid_utf8_app (a b : list ascii) : valid_utf8 a -> valid_utf8 b -> valid_utf8 (a ++ b).
Proof.
  induction 1 as [|r rest Hr Hrest IH]; intros Hb; [exact Hb|].
  rewrite <- app_assoc. constructor; auto.
Qed.

Lemma scalar_dec (r : Z) : {scalar r} + {~ scalar r}.
Proof.
  unfold scalar, MaxRune.
  destruct (Z_le_dec 0 r), (Z_le_dec r 1114111), (Z_le_dec 55296 r), (Z_le_dec r 57343);
    first [left; lia | right; lia].
Qed.

Lemma valid_EncodeRune (r : Z) : valid_utf8 (utf8_EncodeRune r).
Proof.
  destruct (scalar_dec r) as [H|H].
  - rewrite <- (app_nil_r (utf8_EncodeRune r)). constructor; [exact H | constructor].
  - rewrite EncodeRune_invalid by exact H. rewrite <- app_nil_r.
    constructor; [apply scalar_RuneError | constructor].
Qed.

Lemma DecodeRune_size (c : ascii) (s : list ascii) :
  (1 <= snd (utf8_DecodeRune (c :: s)) <= 4)%nat.
Proof. unfold utf8_DecodeRune. repeat case_match; cbn; lia. Qed.

Lemma length_skipn_lt (k : nat) (l : list ascii) :
  (1 <= k)%nat -> l <> [] -> (length (skipn k l) < length l)%nat.
Proof. intros Hk Hl. rewrite length_skipn. destruct l; [congruence|]. cbn. lia. Qed.

Lemma unquote_loop_fuel (n : nat) : forall s F1 F2,
  (length s <= n)%nat -> (length s < F1)%nat -> (length s < F2)%nat ->
  unquote_loop F1 s = unquote_loop F2 s.
Proof.
  induction n as [|n IH]; intros s [|F1] [|F2] Hn H1 H2; try lia.
  - destruct s; [reflexivity|cbn in Hn; lia].
  - destruct s as [|c s']; [reflexivity|]. cbn [unquote_loop].
    assert (Hs : (1 <= snd (utf8_DecodeRune (c :: s')) <= 4)%nat) by apply DecodeRune_size.
    cbn [length] in *.
    repeat case_match; try reflexivity; f_equal; apply IH;
      repeat match goal with
      | H : _ :: _ = _ :: _ |- _ => injection H as <- <-
      | H : utf8_DecodeRune _ = _ |- _ => rewrite H in Hs; cbn in Hs
      end;
      cbn [length snd] in *; rewrite ?length_skipn; cbn [length]; try lia.
Qed.

Lemma option_map_app_nil (x : option (list ascii)) : option_map (app []) x = x.
Proof. destruct x; reflexivity. Qed.

Lemma option_map_app_app (a b : list ascii) (x : option (list ascii)) :
  option_map (app a) (option_map (app b) x) = option_map (app (a ++ b)) x.
Proof. destruct x; cbn; [rewrite app_assoc|]; reflexivity. Qed.

Lemma bval_bslash : bval c_bslash = 92. Proof. reflexivity. Qed.
Lemma bval_quote : bval c_quote = 34. Proof. reflexivity. Qed.

Lemma ascii_neq_bval (c d : ascii) : bval c <> bval d -> Ascii.eqb c d = false.
Proof. intros H. apply Ascii.eqb_neq. intros ->. auto. Qed.

Lemma unquote_loop_ascii (F : nat) (c : ascii) (s : list ascii) :
  32 <= bval c < 128 -> bval c <> 34 -> bval c <> 92 ->
  unquote_loop (S F) (c :: s) = option_map (cons c) (unquote_loop F s).
Proof.
  intros H1 H2 H3. cbn [unquote_loop].
  rewrite !ascii_neq_bval by (rewrite ?bval_bslash, ?bval_quote; lia).
  destruct (Z.ltb_spec (bval c) 32); [lia|]. destruct (Z.ltb_spec (bval c) 128); [|lia].
  reflexivity.
Qed.

Lemma unquote_loop_multi (F : nat) (c : ascii) (s : list ascii) :
  128 <= bval c ->
  unquote_loop (S F) (c :: s) =
  let '(rr, size) := utf8_DecodeRune (c :: s) in
  option_map (app (utf8_EncodeRune rr)) (unquote_loop F (skipn size (c :: s))).
Proof.
  intros H1. cbn [unquote_loop].
  rewrite !ascii_neq_bval by (rewrite ?bval_bslash, ?bval_quote; lia).
  destruct (Z.ltb_spec (bval c) 32); [lia|]. destruct (Z.ltb_spec (bval c) 128); [lia|].
  reflexivity.
Qed.

(** The fast path of [unquoteBytes] agrees with the slow loop. *)
Lemma fast_path (f : nat) : forall s F,
  (length s <= f)%nat -> (length s < F)%nat ->
  (if (fast_len f s =? length s)%nat then Some s
   else option_map (app (firstn (fast_len f s) s)) (unquote_loop F (skipn (fast_len f s) s)))
  = unquote_loop F s.
Proof.
  induction f as [|f IH]; intros s F Hf HF.
  - destruct s; [|cbn in Hf; lia]. destruct F; [cbn in HF; lia|]. reflexivity.
  - destruct s as [|c s']; [destruct F; [cbn in HF; lia|]; reflexivity|].
    destruct F as [|F]; [cbn in HF; lia|].
    cbn [fast_len length] in *.
    destruct (Ascii.eqb c c_bslash || Ascii.eqb c c_quote || (bval c <? 32)) eqn:Esp.
    { cbn [Nat.eqb firstn skipn]. rewrite option_map_app_nil. reflexivity. }
    assert (Hnb : Ascii.eqb c c_bslash = false) by (destruct (Ascii.eqb c c_bslash); auto).
    assert (Hnq : Ascii.eqb c c_quote = false)
      by (rewrite Hnb in Esp; destruct (Ascii.eqb c c_quote); auto).
    assert (H32 : 32 <= bval c)
      by (rewrite Hnb, Hnq in Esp; cbn in Esp; apply Z.ltb_ge; exact Esp).
    assert (Hb1 : bval c <> 92) by (intros E; rewrite <- bval_bslash in E;
                                    apply bval_inj in E; subst; rewrite Ascii.eqb_refl in Hnb; discriminate).
    assert (Hb2 : bval c <> 34) by (intros E; rewrite <- bval_quote in E;
                                    apply bval_inj in E; subst; rewrite Ascii.eqb_refl in Hnq; discriminate).
    destruct (Z.ltb_spec (bval c) 128) as [Ea|Ea].
    + rewrite unquote_loop_ascii by lia.
      specialize (IH s' F ltac:(lia) ltac:(lia)).
      cbn [Nat.eqb]. destruct (fast_len f s' =? length s')%nat eqn:Er.
      * rewrite <- IH. reflexivity.
      * cbn [firstn skipn]. rewrite <- IH.
        rewrite (unquote_loop_fuel (length s') _ (S F) F); [| rewrite length_skipn; lia ..].
        destruct (unquote_loop F _); reflexivity.
    + rewrite unquote_loop_multi by lia.
      destruct (utf8_DecodeRune (c :: s')) as [rr size] eqn:Ed.
      destruct ((rr =? RuneError) && (size =? 1)%nat) eqn:Ee.
      { cbn [Nat.eqb firstn skipn]. rewrite option_map_app_nil.
        rewrite unquote_loop_multi by lia. rewrite Ed. reflexivity. }
      destruct (DecodeRune_valid (c :: s') rr size Ed) as [Hsc [rest [Hs Hsz]]].
      { intros [= -> ->]. discriminate. }
      { discriminate. }
      pose proof (proj1 (EncodeRune_length rr Hsc)) as Hl.
      assert (Hsk : skipn size (c :: s') = rest)
        by (rewrite Hs, Hsz, skipn_app, skipn_all, Nat.sub_diag; reflexivity).
      rewrite Hsk.
      assert (Hlen : length (c :: s') = (size + length rest)%nat)
        by (rewrite Hs, length_app, Hsz; reflexivity).
      cbn [length] in Hlen.
      specialize (IH rest F ltac:(lia) ltac:(lia)).
      destruct (size + fast_len f rest =? S (length s'))%nat eqn:Er.
      * assert (Er' : (fast_len f rest =? length rest)%nat = true)
          by (apply Nat.eqb_eq; apply Nat.eqb_eq in Er; lia).
        rewrite Er' in IH. rewrite <- IH. rewrite Hs. reflexivity.
      * assert (Er' : (fast_len f rest =? length rest)%nat = false)
          by (apply Nat.eqb_neq; apply Nat.eqb_neq in Er; lia).
        rewrite Er' in IH. rewrite <- IH.
        rewrite Hs. rewrite Hsz, firstn_app_2.
        rewrite skipn_app, skipn_all2 by lia.
        replace (length (utf8_EncodeRune rr) + fast_len f rest - length (utf8_EncodeRune rr))%nat
          with (fast_len f rest) by lia.
        cbn [app].
        rewrite option_map_app_app.
        rewrite (unquote_loop_fuel (length rest) _ (S F) F); [reflexivity | rewrite ?length_skipn; lia ..].
Qed.

Lemma unquoteBytes_quoted (body : list ascii) :
  unquoteBytes (c_quote :: body ++ [c_quote]) = unquote_loop (S (length body)) body.
Proof.
  unfold unquoteBytes. rewrite Ascii.eqb_refl. cbn [negb].
  rewrite rev_app_distr. cbn [rev app]. rewrite Ascii.eqb_refl. cbn [negb].
  rewrite rev_involutive. apply fast_path; lia.
Qed.

Lemma unquoteBytes_loop (item t : list ascii) :
  unquoteBytes item = Some t -> exists body, unquote_loop (S (length body)) body = Some t.
Proof.
  unfold unquoteBytes. destruct item as [|q rest]; [discriminate|].
  destruct (negb (Ascii.eqb q c_quote)); [discriminate|].
  destruct (rev rest) as [|q' rbody]; [discriminate|].
  destruct (negb (Ascii.eqb q' c_quote)); [discriminate|].
  intros H. exists (rev rbody). rewrite <- H. symmetry. apply fast_path; lia.
Qed.

Lemma valid_cons (c : ascii) (t : list ascii) :
  bval c < 128 -> valid_utf8 t -> valid_utf8 (c :: t).
Proof.
  intros Hc Ht. change (c :: t) with ([c] ++ t).
  rewrite <- (EncodeRune_ascii c Hc). constructor; [|exact Ht].
  pose proof (bval_range c). unfold scalar, MaxRune. lia.
Qed.

Lemma existsb_eqb_In (e : ascii) (l : list ascii) : existsb (Ascii.eqb e) l = true -> In e l.
Proof.
  intros H. apply existsb_exists in H as [x [Hx E]]. apply Ascii.eqb_eq in E. subst. exact Hx.
Qed.

(** What [unquoteBytes] returns is well-formed UTF-8. *)
Lemma unquote_loop_valid (F : nat) : forall s t, unquote_loop F s = Some t -> valid_utf8 t.
Proof.
  induction F as [|F IH]; intros s t H; [discriminate|].
  destruct s as [|c s']; cbn [unquote_loop] in H; [injection H as <-; constructor|].
  repeat case_match; try discriminate;
  match goal with
  | H : option_map _ (unquote_loop F ?x) = Some _ |- _ =>
      destruct (unquote_loop F x) as [t0|] eqn:E; cbn [option_map] in H; [injection H as <-|discriminate];
      apply IH in E
  end.
  all: try (apply valid_utf8_app; [apply valid_EncodeRune | exact E]).
  all: try exact (valid_utf8_app (utf8_EncodeRune RuneError) t0 (valid_EncodeRune _) E).
  all: apply valid_cons; [|exact E].
  all: try reflexivity.
  all: try (apply Z.ltb_lt; assumption).
  match goal with H : existsb _ _ = true |- _ => apply existsb_eqb_In in H; cbn in H;
      destruct H as [<-|[<-|[<-|[<-|[]]]]]; reflexivity end.
Qed.

Lemma unquoteBytes_valid (item t : list ascii) : unquoteBytes item = Some t -> valid_utf8 t.
Proof.
  intros H. apply unquoteBytes_loop in H as [body H]. eapply unquote_loop_valid; eauto.
Qed.

(** *** Strings: [appendString] then [unquoteBytes] *)

(** The bytes [appendString] writes for one well-formed rune. *)
Definition enc_rune (r : Z) : list ascii :=
  if r <? 128 then
    if htmlSafe r then [chr r]
    else if (r =? 92) || (r =? 34) then [c_bslash; chr r]
    else if r =? 8 then [c_bslash; "b"%char]
    else if r =? 12 then [c_bslash; "f"%char]
    else if r =? 10 then [c_bslash; "n"%char]
    else if r =? 13 then [c_bslash; "r"%char]
    else if r =? 9 then [c_bslash; "t"%char]
    else [c_bslash; "u"%char; "0"%char; "0"%char; hexd (Z.shiftr r 4); hexd (Z.land r 15)]
  else if (r =? 8232) || (r =? 8233) then
    [c_bslash; "u"%char; "2"%char; "0"%char; "2"%char; hexd (Z.land r 15)]
  else utf8_EncodeRune r.

Lemma EncodeRune_cons (r : Z) :
  scalar r -> 128 <= r -> exists b bs, utf8_EncodeRune r = b :: bs /\ 128 <= bval b.
Proof.
  intros Hs Hr. pose proof (EncodeRune_high r Hs Hr) as Hh.
  destruct (utf8_EncodeRune r) as [|b bs] eqn:E.
  - pose proof (EncodeRune_length r Hs) as [Hl _]. rewrite E in Hl. cbn in Hl. lia.
  - exists b, bs. split; [reflexivity|]. inversion Hh; assumption.
Qed.

Lemma body_rune (f : nat) (r : Z) (rest : list ascii) :
  scalar r ->
  appendString_body (S f) (utf8_EncodeRune r ++ rest) = enc_rune r ++ appendString_body f rest.
Proof.
  intros Hs. pose proof Hs as [[H0 _] _]. unfold enc_rune.
  destruct (r <? 128) eqn:Hr.
  - apply Z.ltb_lt in Hr. rewrite EncodeRune_1 by lia. cbn [appendString_body app].
    rewrite bval_chr' by lia. rewrite (proj2 (Z.ltb_lt r 128) Hr).
    destruct (htmlSafe r); reflexivity.
  - apply Z.ltb_ge in Hr.
    destruct (EncodeRune_cons r Hs Hr) as [b [bs [E Hb]]].
    pose proof (DecodeRune_EncodeRune r rest Hs) as D.
    pose proof (EncodeRune_length r Hs) as [Hl1 Hl2].
    rewrite E in D, Hl1, Hl2 |- *. cbn [app appendString_body]. fold (app bs rest).
    assert (Hb' : (bval b <? 128) = false) by (apply Z.ltb_ge; lia). rewrite Hb'.
    change (b :: bs ++ rest) with ((b :: bs) ++ rest). rewrite D.
    assert (Hn : (length (b :: bs) =? 1)%nat = false) by (apply Nat.eqb_neq; intros Hc; apply Hl2 in Hc; lia).
    rewrite Hn, andb_false_r.
    rewrite skipn_app, skipn_all2 by lia. rewrite Nat.sub_diag. cbn [app skipn].
    destruct ((r =? 8232) || (r =? 8233)); [reflexivity|].
    cbn [firstn length]. rewrite firstn_app, firstn_all, Nat.sub_diag. cbn [firstn].
    rewrite app_nil_r. reflexivity.
Qed.

Lemma option_map_cons_app (c : ascii) (x : option (list ascii)) :
  option_map (cons c) x = option_map (app [c]) x.
Proof. destruct x; reflexivity. Qed.

Lemma htmlSafe_false (r : Z) :
  0 <= r < 128 -> htmlSafe r = false ->
  r < 32 \/ r = 34 \/ r = 92 \/ r = 60 \/ r = 62 \/ r = 38.
Proof.
  unfold htmlSafe. intros Hr H.
  repeat match type of H with
  | (?a && ?b) = false => apply andb_false_iff in H; destruct H as [H|H]
  end;
  repeat match type of H with
  | negb _ = false => apply negb_false_iff in H
  | (_ =? _) = true => apply Z.eqb_eq in H
  | (_ <=? _) = false => apply Z.leb_gt in H
  end; lia.
Qed.

Lemma small_enum (r : Z) : 0 <= r < 32 -> exists n : nat, (n < 32)%nat /\ r = Z.of_nat n.
Proof. intros H. exists (Z.to_nat r). lia. Qed.

(** One round of the unquoting loop reads back one rune written by
    [appendString]. *)
Lemma unquote_enc_rune (F : nat) (r : Z) (tail : list ascii) :
  scalar r ->
  unquote_loop (S F) (enc_rune r ++ tail) = option_map (app (utf8_EncodeRune r)) (unquote_loop F tail).
Proof.
  intros Hs. pose proof Hs as [[H0 _] _].
  destruct (Z_lt_le_dec r 128) as [Hr|Hr].
  - destruct (htmlSafe r) eqn:Hh.
    + unfold enc_rune. rewrite (proj2 (Z.ltb_lt r 128) Hr), Hh, EncodeRune_1 by lia.
      change ([chr r] ++ tail) with (chr r :: tail).
      rewrite <- option_map_cons_app. apply unquote_loop_ascii;
      rewrite bval_chr' by lia; unfold htmlSafe in Hh;
      repeat (apply andb_true_iff in Hh as [Hh ?]);
      repeat match goal with
      | H : negb _ = true |- _ => apply negb_true_iff, Z.eqb_neq in H
      | H : (_ <=? _) = true |- _ => apply Z.leb_le in H
      end; lia.
    + destruct (htmlSafe_false r ltac:(lia) Hh) as [Hlt|[->|[->|[->|[->| ->]]]]];
        [|cbn [unquote_loop]; cbv -[unquote_loop]; destruct (unquote_loop F tail); reflexivity ..].
      destruct (small_enum r ltac:(lia)) as [n [Hn ->]].
      do 32 (destruct n as [|n]; [cbn [unquote_loop]; cbv -[unquote_loop]; destruct (unquote_loop F tail); reflexivity|]).
      lia.
  - destruct (Z.eq_dec r 8232) as [->|H1]; [cbn [unquote_loop]; cbv -[unquote_loop]; destruct (unquote_loop F tail); reflexivity|].
    destruct (Z.eq_dec r 8233) as [->|H2]; [cbn [unquote_loop]; cbv -[unquote_loop]; destruct (unquote_loop F tail); reflexivity|].
    unfold enc_rune.
    rewrite (proj2 (Z.ltb_ge r 128) Hr), (proj2 (Z.eqb_neq r 8232) H1), (proj2 (Z.eqb_neq r 8233) H2).
    cbn [orb].
    destruct (EncodeRune_cons r Hs Hr) as [b [bs [E Hb]]].
    pose proof (DecodeRune_EncodeRune r tail Hs) as D.
    rewrite E in D |- *. cbn [app]. rewrite unquote_loop_multi by exact Hb.
    change (b :: bs ++ tail) with ((b :: bs) ++ tail). rewrite D.
    rewrite skipn_app, skipn_all2 by lia. rewrite Nat.sub_diag. cbn [app skipn].
    rewrite E. reflexivity.
Qed.

Lemma enc_rune_length (r : Z) :
  scalar r -> (length (utf8_EncodeRune r) <= length (enc_rune r))%nat.
Proof.
  intros Hs. pose proof Hs as [[H0 _] _]. unfold enc_rune.
  destruct (r <? 128) eqn:Hr.
  - apply Z.ltb_lt in Hr. rewrite EncodeRune_1 by lia. repeat case_match; cbn; lia.
  - destruct ((r =? 8232) || (r =? 8233)) eqn:H2; [|lia].
    apply orb_true_iff in H2 as [H2|H2]; apply Z.eqb_eq in H2; subst; cbn; lia.
Qed.

Lemma appendString_body_nil (f : nat) : appendString_body f [] = [].
Proof. destruct f; reflexivity. Qed.

Lemma appendString_body_length (x : list ascii) :
  valid_utf8 x -> forall f, (length x <= f)%nat -> (length x <= length (appendString_body f x))%nat.
Proof.
  induction 1 as [|r rest Hr Hrest IH]; intros f Hf; [cbn; lia|].
  pose proof (EncodeRune_length r Hr) as [Hl _].
  rewrite length_app in Hf. destruct f as [|f]; [lia|].
  rewrite body_rune by exact Hr. rewrite !length_app.
  pose proof (enc_rune_length r Hr). specialize (IH f ltac:(lia)). lia.
Qed.

Lemma unquote_appendString_body (x : list ascii) :
  valid_utf8 x -> forall f F, (length x <= f)%nat -> (length x < F)%nat ->
  unquote_loop F (appendString_body f x) = Some x.
Proof.
  induction 1 as [|r rest Hr Hrest IH]; intros f F Hf HF.
  - rewrite appendString_body_nil. destruct F; [lia|reflexivity].
  - pose proof (EncodeRune_length r Hr) as [Hl _].
    rewrite length_app in Hf, HF. destruct f as [|f]; [lia|]. destruct F as [|F]; [lia|].
    rewrite body_rune by exact Hr. rewrite unquote_enc_rune by exact Hr.
    rewrite (IH f F) by lia. reflexivity.
Qed.

(** [unquoteBytes] reads back what [appendString] writes. *)
Lemma unquote_appendString (x : list ascii) :
  valid_utf8 x -> unquoteBytes (appendString x) = Some x.
Proof.
  intros Hx. unfold appendString. rewrite unquoteBytes_quoted.
  pose proof (appendString_body_length x Hx (length x) (le_n _)).
  apply unquote_appendString_body; [exact Hx|lia|lia].
Qed.

(** *** The bytes [appendString] writes between the quotes *)

(** One unit of a string literal's body: a byte the scanner takes as is, a
    two-byte escape, or a [\uXXXX] escape. *)
Inductive str_unit : list ascii -> Prop :=
| su_plain (b : ascii) : 32 <= bval b -> bval b <> 34 -> bval b <> 92 -> str_unit [b]
| su_esc (e : ascii) :
    In e ["b"; "f"; "n"; "r"; "t"; c_bslash; "/"; c_quote]%char -> str_unit [c_bslash; e]
| su_u (h1 h2 h3 h4 : ascii) :
    isHex h1 = true -> isHex h2 = true -> isHex h3 = true -> isHex h4 = true ->
    str_unit [c_bslash; "u"%char; h1; h2; h3; h4].

Inductive str_body : list ascii -> Prop :=
| sb_nil : str_body []
| sb_cons (u rest : list ascii) : str_unit u -> str_body rest -> str_body (u ++ rest).

Lemma str_body_app (a b : list ascii) : str_body a -> str_body b -> str_body (a ++ b).
Proof. induction 1; intros Hb; [exact Hb|]. rewrite <- app_assoc. constructor; auto. Qed.

Lemma str_body_unit (u : list ascii) : str_unit u -> str_body u.
Proof. intros H. rewrite <- (app_nil_r u). constructor; [exact H|constructor]. Qed.

Lemma str_body_high (l : list ascii) : Forall (fun b => 128 <= bval b) l -> str_body l.
Proof.
  induction 1 as [|b l Hb Hl IH]; [constructor|].
  change (b :: l) with ([b] ++ l). constructor; [|exact IH].
  constructor; lia.
Qed.

Lemma isHex_hexd (n : Z) : isHex (hexd n) = true.
Proof.
  unfold hexd. generalize (Z.to_nat n) as k. intros k.
  do 16 (destruct k as [|k]; [reflexivity|]). destruct k; reflexivity.
Qed.

Lemma firstn_DecodeRune_high (src : list ascii) (b : ascii) (r : Z) (size : nat) :
  128 <= bval b -> utf8_DecodeRune (b :: src) = (r, size) ->
  (r =? RuneError) && (size =? 1)%nat = false ->
  Forall (fun x => 128 <= bval x) (firstn size (b :: src)).
Proof.
  intros Hb D Hn.
  assert (Hne : (r, size) <> (RuneError, 1%nat)).
  { intros E. injection E as -> ->. rewrite Z.eqb_refl in Hn. discriminate. }
  destruct (DecodeRune_valid _ _ _ D Hne ltac:(discriminate)) as [Hs [rest [E ->]]].
  rewrite E, firstn_app, firstn_all, Nat.sub_diag. cbn [firstn]. rewrite app_nil_r.
  destruct (Z_lt_le_dec r 128) as [Hr|Hr].
  - exfalso. pose proof Hs as [[H0 _] _]. rewrite EncodeRune_1 in E by lia.
    injection E as Eb _. subst b. rewrite bval_chr' in Hb by lia. lia.
  - apply EncodeRune_high; assumption.
Qed.

(** [appendString] writes a sequence of units. *)
Lemma appendString_body_units (f : nat) : forall src, str_body (appendString_body f src).
Proof.
  induction f as [|f IH]; intros src; [constructor|].
  destruct src as [|b src']; [constructor|]. cbn [appendString_body].
  pose proof (bval_range b) as Hbr.
  destruct (bval b <? 128) eqn:Hlt.
  - destruct (htmlSafe (bval b)) eqn:Hh.
    + change (b :: appendString_body f src') with ([b] ++ appendString_body f src').
      constructor; [|apply IH]. unfold htmlSafe in Hh.
      repeat (apply andb_true_iff in Hh as [Hh ?]).
      repeat match goal with
      | H : negb _ = true |- _ => apply negb_true_iff, Z.eqb_neq in H
      | H : (_ <=? _) = true |- _ => apply Z.leb_le in H
      end. constructor; lia.
    + apply str_body_app; [|apply IH]. apply str_body_unit.
      repeat match goal with |- context [if ?c then _ else _] => destruct c eqn:? end;
      try (apply su_esc; cbn; tauto).
      * apply su_esc. apply orb_true_iff in Heqb0 as [E|E]; apply Z.eqb_eq in E;
        [replace b with c_bslash by (apply bval_inj; rewrite E; reflexivity)
        |replace b with c_quote by (apply bval_inj; rewrite E; reflexivity)]; cbn; tauto.
      * apply su_u; try reflexivity; apply isHex_hexd.
  - destruct (utf8_DecodeRune (b :: src')) as [c size] eqn:D.
    destruct ((c =? RuneError) && (size =? 1)%nat) eqn:Hn.
    + apply str_body_app; [|apply IH]. apply str_body_unit. apply su_u; reflexivity.
    + destruct ((c =? 8232) || (c =? 8233)); apply str_body_app; try apply IH.
      * apply str_body_unit. apply su_u; try reflexivity; apply isHex_hexd.
      * apply str_body_high. eapply firstn_DecodeRune_high; [|exact D|exact Hn].
        apply Z.ltb_ge in Hlt. exact Hlt.
Qed.

(** [rescanLiteral] on a string: the body of units ends at the closing quote. *)
Lemma rescan_string_body (l : list ascii) (tail : list ascii) :
  str_body l -> rescan_string (l ++ c_quote :: tail) = (l ++ [c_quote], tail).
Proof.
  induction 1 as [|u rest Hu Hrest IH].
  - cbn. rewrite Ascii.eqb_refl. reflexivity.
  - rewrite <- !app_assoc. destruct Hu as [b H1 H2 H3|e He|h1 h2 h3 h4 H1 H2 H3 H4].
    + cbn [app rescan_string].
      rewrite (ascii_neq_bval b c_bslash) by (rewrite bval_bslash; exact H3).
      rewrite (ascii_neq_bval b c_quote) by (rewrite bval_quote; exact H2).
      rewrite IH. reflexivity.
    + cbn [app rescan_string]. rewrite IH. reflexivity.
    + cbn [app]. cbn [rescan_string]. rewrite Ascii.eqb_refl.
      assert (P : forall h, isHex h = true -> Ascii.eqb h c_bslash = false /\ Ascii.eqb h c_quote = false).
      { intros h Hh. unfold isHex, isDigit in Hh.
        replace (bval "0"%char) with 48 in Hh by reflexivity.
        replace (bval "9"%char) with 57 in Hh by reflexivity.
        replace (bval "a"%char) with 97 in Hh by reflexivity.
        replace (bval "f"%char) with 102 in Hh by reflexivity.
        replace (bval "A"%char) with 65 in Hh by reflexivity.
        replace (bval "F"%char) with 70 in Hh by reflexivity.
        split; apply ascii_neq_bval; rewrite ?bval_bslash, ?bval_quote;
        repeat (apply orb_true_iff in Hh as [Hh|Hh]); apply andb_true_iff in Hh as [Ha Hb];
        apply Z.leb_le in Ha, Hb; lia. }
      destruct (P h1 H1) as [-> ->], (P h2 H2) as [-> ->], (P h3 H3) as [-> ->], (P h4 H4) as [-> ->].
      rewrite IH. reflexivity.
Qed.

(** *** The scanner on what [Marshal] writes *)

Lemma scan_loop_step (s s' : scanner) (c : ascii) (op : scan_op) (r : list ascii) :
  scan_step s c = (s', op) -> op <> scanError -> scan_loop s (c :: r) = scan_loop s' r.
Proof. intros H Hop. cbn [scan_loop]. rewrite H. destruct op; congruence. Qed.

Lemma scan_loop_app (s : scanner) (a b : list ascii) :
  scan_loop s (a ++ b) = match scan_loop s a with inl s' => scan_loop s' b | inr e => inr e end.
Proof.
  revert s; induction a as [|c a IH]; intros s; [reflexivity|].
  cbn [app scan_loop]. destruct (scan_step s c) as [s' op]. destruct op; auto.
Qed.

Ltac sstep := erewrite scan_loop_step; [| reflexivity | discriminate].

Lemma step_inString_plain (ps : list parse_state) (e : option string) (t : bool) (b : ascii) :
  32 <= bval b -> bval b <> 34 -> bval b <> 92 ->
  scan_step (mkScanner stateInString ps e t) b = (mkScanner stateInString ps e t, scanContinue).
Proof.
  intros H1 H2 H3. unfold scan_step, stateInString_fn. cbn [step].
  rewrite (ascii_neq_bval b c_quote) by (rewrite bval_quote; exact H2).
  rewrite (ascii_neq_bval b c_bslash) by (rewrite bval_bslash; exact H3).
  replace (bval b <? 32) with false by (symmetry; apply Z.ltb_ge; exact H1). reflexivity.
Qed.

Lemma step_escU_any (st next : stepfn) (ps : list parse_state) (e : option string) (t : bool) (h : ascii) :
  isHex h = true ->
  stateInStringEscU_fn next (mkScanner st ps e t) h = (mkScanner next ps e t, scanContinue).
Proof. intros H. unfold stateInStringEscU_fn. rewrite H. reflexivity. Qed.

(** Inside a string literal the scanner takes a body of units and stays
    inside the literal. *)
Lemma scan_str_body (l rest : list ascii) (ps : list parse_state) (e : option string) (t : bool) :
  str_body l ->
  scan_loop (mkScanner stateInString ps e t) (l ++ rest) =
  scan_loop (mkScanner stateInString ps e t) rest.
Proof.
  induction 1 as [|u l' Hu Hl IH]; [reflexivity|].
  rewrite <- app_assoc. destruct Hu as [b H1 H2 H3|x Hx|h1 h2 h3 h4 H1 H2 H3 H4].
  - cbn [app]. rewrite (scan_loop_step _ _ _ _ _ (step_inString_plain ps e t b H1 H2 H3))
      by discriminate. exact IH.
  - cbn [app]. sstep.
    cbn in Hx. destruct Hx as [<-|[<-|[<-|[<-|[<-|[<-|[<-|[<-|[]]]]]]]]]; sstep; exact IH.
  - cbn [app]. sstep. sstep.
    rewrite (scan_loop_step (mkScanner stateInStringEscU ps e t) (mkScanner stateInStringEscU1 ps e t)
      h1 scanContinue) by first [discriminate | exact (step_escU_any _ _ ps e t h1 H1)].
    rewrite (scan_loop_step (mkScanner stateInStringEscU1 ps e t) (mkScanner stateInStringEscU12 ps e t)
      h2 scanContinue) by first [discriminate | exact (step_escU_any _ _ ps e t h2 H2)].
    rewrite (scan_loop_step (mkScanner stateInStringEscU12 ps e t) (mkScanner stateInStringEscU123 ps e t)
      h3 scanContinue) by first [discriminate | exact (step_escU_any _ _ ps e t h3 H3)].
    rewrite (scan_loop_step (mkScanner stateInStringEscU123 ps e t) (mkScanner stateInString ps e t)
      h4 scanContinue) by first [discriminate | exact (step_escU_any _ _ ps e t h4 H4)].
    exact IH.
Qed.

(** *** Numbers *)

(** The number grammar of RFC 8259:
    [number = [ minus ] int [ frac ] [ exp ]], [int = zero / ( digit1-9 *DIGIT )],
    [frac = decimal-point 1*DIGIT], [exp = e [ minus / plus ] 1*DIGIT]. *)
Fixpoint span_digits (l : list ascii) : list ascii * list ascii :=
  match l with
  | c :: l' => if isDigit c then let '(d, r) := span_digits l' in (c :: d, r) else ([], l)
  | [] => ([], [])
  end.

Definition digits1 (l : list ascii) : bool :=
  match l with [] => false | _ :: _ => forallb isDigit l end.

Definition number_exp (l : list ascii) : bool :=
  match l with
  | [] => true
  | x :: l' =>
      (Ascii.eqb x "e" || Ascii.eqb x "E") &&
      match l' with
      | s :: l'' => if Ascii.eqb s "+" || Ascii.eqb s "-" then digits1 l'' else digits1 l'
      | [] => false
      end
  end.

Definition number_frac_exp (l : list ascii) : bool :=
  match l with
  | p :: l' =>
      if Ascii.eqb p "." then
        match span_digits l' with
        | ([], _) => false
        | (_ :: _, r) => number_exp r
        end
      else number_exp l
  | [] => true
  end.

Definition number_int (l : list ascii) : bool :=
  match l with
  | c :: l' =>
      if Ascii.eqb c "0" then number_frac_exp l'
      else if (bval "1" <=? bval c) && (bval c <=? bval "9") then number_frac_exp (snd (span_digits l'))
      else false
  | [] => false
  end.

Definition json_number_literal (l : list ascii) : bool :=
  match l with
  | c :: l' => if Ascii.eqb c "-" then number_int l' else number_int l
  | [] => false
  end.

(** The states in which the scanner has read a whole value and waits for
    what follows it. *)
Definition after_value (st : stepfn) : bool :=
  match st with
  | stateEndValue | state0 | state1 | stateDot0 | stateE0 => true
  | _ => false
  end.

Lemma digit_In (c : ascii) :
  isDigit c = true -> In c ["0"; "1"; "2"; "3"; "4"; "5"; "6"; "7"; "8"; "9"]%char.
Proof.
  unfold isDigit. intros H. apply andb_true_iff in H as [H1 H2].
  apply Z.leb_le in H1, H2. change (bval "0"%char) with 48 in H1. change (bval "9"%char) with 57 in H2.
  rewrite <- (chr_bval c).
  assert (E : bval c = 48 \/ bval c = 49 \/ bval c = 50 \/ bval c = 51 \/ bval c = 52 \/
              bval c = 53 \/ bval c = 54 \/ bval c = 55 \/ bval c = 56 \/ bval c = 57) by lia.
  destruct E as [E|[E|[E|[E|[E|[E|[E|[E|[E|E]]]]]]]]]; rewrite E; cbn; tauto.
Qed.

Lemma digit19_In (c : ascii) :
  (bval "1" <=? bval c) && (bval c <=? bval "9") = true ->
  In c ["1"; "2"; "3"; "4"; "5"; "6"; "7"; "8"; "9"]%char.
Proof.
  intros H. apply andb_true_iff in H as [H1 H2].
  apply Z.leb_le in H1, H2. change (bval "1"%char) with 49 in H1. change (bval "9"%char) with 57 in H2.
  rewrite <- (chr_bval c).
  assert (E : bval c = 49 \/ bval c = 50 \/ bval c = 51 \/ bval c = 52 \/
              bval c = 53 \/ bval c = 54 \/ bval c = 55 \/ bval c = 56 \/ bval c = 57) by lia.
  destruct E as [E|[E|[E|[E|[E|[E|[E|[E|E]]]]]]]]; rewrite E; cbn; tauto.
Qed.

Ltac digit_cases H :=
  let H' := fresh in
  first [ pose proof (digit_In _ H) as H' | pose proof (digit19_In _ H) as H' ];
  cbn in H'; repeat (destruct H' as [<-|H']); [..|contradiction].

Lemma span_digits_spec (l : list ascii) :
  l = fst (span_digits l) ++ snd (span_digits l) /\ forallb isDigit (fst (span_digits l)) = true.
Proof.
  induction l as [|c l IH]; [split; reflexivity|]. cbn [span_digits].
  destruct (isDigit c) eqn:Hc; [|split; reflexivity].
  destruct (span_digits l) as [d r]. cbn in *. destruct IH as [IH1 IH2].
  split; [f_equal; exact IH1|]. rewrite Hc, IH2. reflexivity.
Qed.

Lemma scan_digits (st : stepfn) (d rest : list ascii) (ps : list parse_state) (e : option string) (t : bool) :
  st = state1 \/ st = stateDot0 \/ st = stateE0 -> forallb isDigit d = true ->
  scan_loop (mkScanner st ps e t) (d ++ rest) = scan_loop (mkScanner st ps e t) rest.
Proof.
  intros Hst. induction d as [|c d IH]; intros Hd; [reflexivity|].
  cbn [forallb] in Hd. apply andb_true_iff in Hd as [Hc Hd]. cbn [app].
  digit_cases Hc; destruct Hst as [->|[->| ->]]; sstep; auto.
Qed.

Lemma scan_digits1 (st st' : stepfn) (d rest : list ascii) (ps : list parse_state) (e : option string) (t : bool) :
  st' = state1 \/ st' = stateDot0 \/ st' = stateE0 ->
  (forall c, isDigit c = true -> scan_step (mkScanner st ps e t) c = (mkScanner st' ps e t, scanContinue)) ->
  digits1 d = true ->
  scan_loop (mkScanner st ps e t) (d ++ rest) = scan_loop (mkScanner st' ps e t) rest.
Proof.
  intros Hst' Hstep Hd. destruct d as [|c d]; [discriminate|].
  cbn [digits1 forallb] in Hd. apply andb_true_iff in Hd as [Hc Hd]. cbn [app].
  rewrite (scan_loop_step _ _ _ _ _ (Hstep c Hc)) by discriminate.
  apply scan_digits; assumption.
Qed.

Lemma scan_number_exp (st : stepfn) (l rest : list ascii) (ps : list parse_state) (e : option string) (t : bool) :
  st = state0 \/ st = state1 \/ st = stateDot0 -> number_exp l = true ->
  exists st', after_value st' = true /\
    scan_loop (mkScanner st ps e t) (l ++ rest) = scan_loop (mkScanner st' ps e t) rest.
Proof.
  intros Hst Hl. destruct l as [|x l'].
  - exists st. split; [destruct Hst as [->|[->| ->]]; reflexivity|reflexivity].
  - exists stateE0. split; [reflexivity|]. cbn [number_exp] in Hl.
    apply andb_true_iff in Hl as [Hx Hl'].
    assert (HE : scan_loop (mkScanner st ps e t) ((x :: l') ++ rest) =
                 scan_loop (mkScanner stateE ps e t) (l' ++ rest)).
    { apply orb_true_iff in Hx as [Hx|Hx]; apply Ascii.eqb_eq in Hx; subst x;
      destruct Hst as [->|[->| ->]]; cbn [app]; sstep; reflexivity. }
    rewrite HE. destruct l' as [|s l'']; [discriminate|].
    destruct (Ascii.eqb s "+" || Ascii.eqb s "-") eqn:Hs.
    + cbn [app]. apply orb_true_iff in Hs as [Hs|Hs]; apply Ascii.eqb_eq in Hs; subst s; sstep;
      (apply scan_digits1; [right; right; reflexivity| |exact Hl']);
      intros c Hc; digit_cases Hc; reflexivity.
    + apply scan_digits1; [right; right; reflexivity| |exact Hl'].
      intros c Hc; digit_cases Hc; reflexivity.
Qed.

Lemma scan_number_frac_exp (st : stepfn) (l rest : list ascii) (ps : list parse_state) (e : option string) (t : bool) :
  st = state0 \/ st = state1 -> number_frac_exp l = true ->
  exists st', after_value st' = true /\
    scan_loop (mkScanner st ps e t) (l ++ rest) = scan_loop (mkScanner st' ps e t) rest.
Proof.
  intros Hst Hl. destruct l as [|p l'].
  - exists st. split; [destruct Hst as [-> | ->]; reflexivity|reflexivity].
  - cbn [number_frac_exp] in Hl. destruct (Ascii.eqb p ".") eqn:Hp.
    + apply Ascii.eqb_eq in Hp. subst p.
      destruct (span_digits_spec l') as [Hsplit Hdig].
      destruct (span_digits l') as [d r] eqn:Hsp. cbn [fst snd] in Hsplit, Hdig.
      destruct d as [|d0 d']; [discriminate|].
      assert (Hdot : scan_loop (mkScanner st ps e t) (("."%char :: l') ++ rest) =
                     scan_loop (mkScanner stateDot ps e t) ((d0 :: d') ++ r ++ rest)).
      { change (("."%char :: l') ++ rest) with ("."%char :: (l' ++ rest)).
        rewrite Hsplit, <- app_assoc. destruct Hst as [-> | ->]; sstep; reflexivity. }
      rewrite Hdot.
      rewrite (scan_digits1 stateDot stateDot0); [| right; left; reflexivity | | exact Hdig].
      * apply scan_number_exp; [right; right; reflexivity|exact Hl].
      * intros c Hc; digit_cases Hc; reflexivity.
    + apply scan_number_exp; [destruct Hst; [left|right; left]; assumption|].
      exact Hl.
Qed.

Lemma scan_number_int (st : stepfn) (l rest : list ascii) (ps : list parse_state) (e : option string) (t : bool) :
  st = stateBeginValue \/ st = stateBeginValueOrEmpty \/ st = stateNeg -> number_int l = true ->
  exists st', after_value st' = true /\
    scan_loop (mkScanner st ps e t) (l ++ rest) = scan_loop (mkScanner st' ps e t) rest.
Proof.
  intros Hst Hl. destruct l as [|c l']; [discriminate|]. cbn [number_int] in Hl.
  destruct (Ascii.eqb c "0") eqn:H0.
  - apply Ascii.eqb_eq in H0. subst c. cbn [app].
    destruct Hst as [->|[->| ->]]; sstep; apply scan_number_frac_exp; auto.
  - destruct ((bval "1" <=? bval c) && (bval c <=? bval "9")) eqn:H19; [|discriminate].
    destruct (span_digits_spec l') as [Hsplit Hdig].
    assert (H1 : scan_loop (mkScanner st ps e t) ((c :: l') ++ rest) =
                 scan_loop (mkScanner state1 ps e t) (l' ++ rest)).
    { cbn [app]. digit_cases H19; destruct Hst as [->|[->| ->]]; sstep; reflexivity. }
    rewrite H1, Hsplit, <- app_assoc, scan_digits by (auto || exact Hdig).
    apply scan_number_frac_exp; auto.
Qed.

(** The scanner reads a number literal from the beginning of a value. *)
Lemma scan_number (st : stepfn) (l rest : list ascii) (ps : list parse_state) (e : option string) (t : bool) :
  st = stateBeginValue \/ st = stateBeginValueOrEmpty -> json_number_literal l = true ->
  exists st', after_value st' = true /\
    scan_loop (mkScanner st ps e t) (l ++ rest) = scan_loop (mkScanner st' ps e t) rest.
Proof.
  intros Hst Hl. destruct l as [|c l']; [discriminate|]. cbn [json_number_literal] in Hl.
  destruct (Ascii.eqb c "-") eqn:Hm.
  - apply Ascii.eqb_eq in Hm. subst c. cbn [app].
    destruct Hst as [-> | ->]; sstep; apply scan_number_int; auto.
  - apply scan_number_int; [destruct Hst; auto|exact Hl].
Qed.

Lemma number_int_first (l : list ascii) :
  number_int l = true -> exists c l', l = c :: l' /\ isDigit c = true.
Proof.
  destruct l as [|c l']; [discriminate|]. cbn [number_int]. intros H. exists c, l'. split; [reflexivity|].
  destruct (Ascii.eqb c "0") eqn:H0; [apply Ascii.eqb_eq in H0; subst; reflexivity|].
  destruct ((bval "1" <=? bval c) && (bval c <=? bval "9")) eqn:H19; [|discriminate].
  digit_cases H19; reflexivity.
Qed.

(** A number literal begins with a minus sign or a digit. *)
Lemma number_first (l : list ascii) :
  json_number_literal l = true -> exists c l', l = c :: l' /\
  In c ["-"; "0"; "1"; "2"; "3"; "4"; "5"; "6"; "7"; "8"; "9"]%char.
Proof.
  destruct l as [|c l']; [discriminate|]. cbn [json_number_literal]. intros H.
  exists c, l'. split; [reflexivity|].
  destruct (Ascii.eqb c "-") eqn:Hm; [apply Ascii.eqb_eq in Hm; subst; left; reflexivity|].
  destruct (number_int_first (c :: l') H) as [c' [l'' [E Hd]]]. injection E as <- _.
  right. exact (digit_In c Hd).
Qed.

Lemma digits_num (l : list ascii) : forallb isDigit l = true -> forallb is_num_char l = true.
Proof.
  induction l as [|c l IH]; [reflexivity|]. cbn [forallb]. intros H.
  apply andb_true_iff in H as [H1 H2]. rewrite IH by exact H2. unfold is_num_char. rewrite H1. reflexivity.
Qed.

Lemma digits1_forall (l : list ascii) : digits1 l = true -> forallb isDigit l = true.
Proof. destruct l; [discriminate|exact id]. Qed.

Lemma number_exp_num (l : list ascii) : number_exp l = true -> forallb is_num_char l = true.
Proof.
  destruct l as [|x l']; [reflexivity|]. cbn [number_exp]. intros H.
  apply andb_true_iff in H as [Hx H].
  destruct l' as [|s l'']; [discriminate|].
  cbn [forallb]. apply andb_true_iff; split.
  { apply orb_true_iff in Hx as [Hx|Hx]; apply Ascii.eqb_eq in Hx; subst; reflexivity. }
  destruct (Ascii.eqb s "+" || Ascii.eqb s "-") eqn:Hs.
  - apply andb_true_iff; split.
    + apply orb_true_iff in Hs as [Hs|Hs]; apply Ascii.eqb_eq in Hs; subst; reflexivity.
    + apply digits_num, digits1_forall. exact H.
  - apply (digits_num (s :: l'')), digits1_forall. exact H.
Qed.

Lemma number_frac_exp_num (l : list ascii) : number_frac_exp l = true -> forallb is_num_char l = true.
Proof.
  destruct l as [|p l']; [reflexivity|]. cbn [number_frac_exp].
  destruct (Ascii.eqb p ".") eqn:Hp.
  - apply Ascii.eqb_eq in Hp. subst p. intros H.
    destruct (span_digits_spec l') as [Hsplit Hdig].
    destruct (span_digits l') as [[|d0 d'] r]; [discriminate|]. cbn [fst snd] in Hsplit, Hdig.
    cbn [forallb]. rewrite Hsplit, forallb_app, digits_num, number_exp_num by assumption. reflexivity.
  - apply number_exp_num.
Qed.

Lemma number_int_num (l : list ascii) : number_int l = true -> forallb is_num_char l = true.
Proof.
  intros H. destruct (number_int_first l H) as [c [l' [-> Hd]]].
  cbn [number_int] in H. cbn [forallb]. unfold is_num_char at 1. rewrite Hd. cbn [orb andb].
  destruct (Ascii.eqb c "0"); [apply number_frac_exp_num; exact H|].
  destruct ((bval "1" <=? bval c) && (bval c <=? bval "9")); [|discriminate].
  destruct (span_digits_spec l') as [Hsplit Hdig].
  rewrite Hsplit, forallb_app, digits_num, number_frac_exp_num by assumption. reflexivity.
Qed.

Lemma number_num (l : list ascii) : json_number_literal l = true -> forallb is_num_char l = true.
Proof.
  destruct l as [|c l']; [discriminate|]. cbn [json_number_literal].
  destruct (Ascii.eqb c "-") eqn:Hm.
  - apply Ascii.eqb_eq in Hm. subst c. intros H. cbn [forallb]. rewrite number_int_num by exact H.
    reflexivity.
  - apply number_int_num.
Qed.

(** [rescanLiteral] on a number stops at the first byte that cannot
    continue it. *)
Lemma rescan_number_app (l r : list ascii) (c : ascii) :
  forallb is_num_char l = true -> is_num_char c = false ->
  rescan_number (l ++ c :: r) = (l, c :: r).
Proof.
  induction l as [|x l IH]; intros Hl Hc.
  - cbn. rewrite Hc. reflexivity.
  - cbn [forallb] in Hl. apply andb_true_iff in Hl as [Hx Hl]. cbn [app rescan_number].
    rewrite Hx, IH by assumption. reflexivity.
Qed.

(** *** Structure of decoded values *)

Section Values.
Variable float64 : Type.
Abbreviation jval := (jval float64).

(** The nesting depth of a value: arrays and objects count one level. *)
Fixpoint jdepth (v : jval) : nat :=
  match v with
  | JArr l => S (list_max (map jdepth l))
  | JObj m => S (list_max (map (fun e => jdepth (snd e)) m))
  | _ => O
  end.

(** What a decoded value satisfies: its strings are well-formed UTF-8 and
    each map is kept sorted by key. *)
Fixpoint jwf (v : jval) : Prop :=
  match v with
  | JStr s => valid_utf8 s
  | JArr l => (fix go (l : list jval) : Prop :=
                 match l with [] => True | x :: l' => jwf x /\ go l' end) l
  | JObj m => keys_sorted m /\
              (fix go (m : list (list ascii * jval)) : Prop :=
                 match m with [] => True | e :: m' => valid_utf8 (fst e) /\ jwf (snd e) /\ go m' end) m
  | _ => True
  end.

Definition jval_nested_ind (P : jval -> Prop) (Hnull : P JNull) (Hbool : forall b, P (JBool b))
    (Hnum : forall x, P (JNum x)) (Hstr : forall s, P (JStr s))
    (Harr : forall l, Forall P l -> P (JArr l))
    (Hobj : forall m, Forall (fun e => P (snd e)) m -> P (JObj m)) : forall v, P v :=
  fix F (v : jval) : P v :=
    match v with
    | JNull => Hnull
    | JBool b => Hbool b
    | JNum x => Hnum x
    | JStr s => Hstr s
    | JArr l => Harr l ((fix G (l : list jval) : Forall P l :=
                          match l return Forall P l with
                          | [] => @List.Forall_nil _ _
                          | x :: l' => @List.Forall_cons _ _ x l' (F x) (G l')
                          end) l)
    | JObj m => Hobj m ((fix G (m : list (list ascii * jval)) : Forall (fun e => P (snd e)) m :=
                          match m return Forall (fun e => P (snd e)) m with
                          | [] => @List.Forall_nil _ _
                          | e :: m' =>
                              match e as e0 return Forall (fun e => P (snd e)) (e0 :: m') with
                              | (k, w) => @List.Forall_cons _ _ (k, w) m' (F w) (G m')
                              end
                          end) m)
    end.

Lemma jwf_arr (l : list jval) : jwf (JArr l) <-> Forall jwf l.
Proof.
  induction l as [|x l IH]; cbn in *; [split; auto|].
  rewrite Forall_cons_iff. tauto.
Qed.

Lemma jwf_obj (m : list (list ascii * jval)) :
  jwf (JObj m) <-> keys_sorted m /\ Forall (fun e => valid_utf8 (fst e) /\ jwf (snd e)) m.
Proof.
  cbn [jwf]. split; intros [Hs H]; split; try exact Hs; clear Hs;
  induction m as [|e m IH]; cbn in *; auto;
  [constructor; tauto | inversion H; subst; tauto].
Qed.

Lemma jdepth_arr_child (l : list jval) (w : jval) :
  In w l -> (jdepth w < jdepth (JArr l))%nat.
Proof.
  intros Hw. cbn [jdepth]. pose proof (list_max_le (map jdepth l) (list_max (map jdepth l))) as [H _].
  specialize (H (le_n _)). rewrite List.Forall_forall in H.
  specialize (H (jdepth w) (in_map _ _ _ Hw)). lia.
Qed.

Lemma jdepth_obj_child (m : list (list ascii * jval)) (e : list ascii * jval) :
  In e m -> (jdepth (snd e) < jdepth (JObj m))%nat.
Proof.
  intros He. cbn [jdepth].
  pose proof (list_max_le (map (fun e => jdepth (snd e)) m) (list_max (map (fun e => jdepth (snd e)) m))) as [H _].
  specialize (H (le_n _)). rewrite List.Forall_forall in H.
  specialize (H (jdepth (snd e)) (in_map (fun e => jdepth (snd e)) _ _ He)). lia.
Qed.

End Values.

Arguments jdepth {float64} v.
Arguments jwf {float64} v.

(** *** The scanner accepts what [Marshal] writes *)

Definition scan_closed (S : list parse_state) (e : option string) (t : bool) : scanner :=
  match S with
  | [] => mkScanner stateEndTop [] e true
  | _ :: _ => mkScanner stateEndValue S e t
  end.

Lemma pop_closed (st : stepfn) (x : parse_state) (S : list parse_state) (e : option string) (t : bool) :
  popParseState (mkScanner st (x :: S) e t) = scan_closed S e t.
Proof. destruct S; reflexivity. Qed.

Lemma after_value_step (st : stepfn) (S : list parse_state) (e : option string) (t : bool) (c : ascii) :
  after_value st = true -> In c [","; "]"; "}"]%char ->
  scan_step (mkScanner st S e t) c = stateEndValue_fn (mkScanner stateEndValue S e t) c.
Proof.
  intros Hst Hc. cbn in Hc.
  destruct st; try discriminate; destruct Hc as [<-|[<-|[<-|[]]]];
  (destruct S as [|p S]; [|destruct p]); reflexivity.
Qed.

Lemma step_push_arr (st : stepfn) (S : list parse_state) (e : option string) (t : bool) :
  st = stateBeginValue \/ st = stateBeginValueOrEmpty -> Z.of_nat (length S) < maxNestingDepth ->
  scan_step (mkScanner st S e t) "["%char =
  (mkScanner stateBeginValueOrEmpty (parseArrayValue :: S) e t, scanBeginArray).
Proof.
  intros Hst Hl.
  assert (E : (Z.of_nat (length (parseArrayValue :: S)) <=? maxNestingDepth) = true)
    by (apply Z.leb_le; unfold maxNestingDepth in *; cbn [length]; lia).
  destruct Hst as [-> | ->]; unfold scan_step, stateBeginValueOrEmpty_fn, stateBeginValue_fn;
  cbn [step isSpace is_ws]; unfold pushParseState; cbn [parseState set_parseState set_step step err endTop];
  rewrite E; reflexivity.
Qed.

Lemma step_push_obj (st : stepfn) (S : list parse_state) (e : option string) (t : bool) :
  st = stateBeginValue \/ st = stateBeginValueOrEmpty -> Z.of_nat (length S) < maxNestingDepth ->
  scan_step (mkScanner st S e t) "{"%char =
  (mkScanner stateBeginStringOrEmpty (parseObjectKey :: S) e t, scanBeginObject).
Proof.
  intros Hst Hl.
  assert (E : (Z.of_nat (length (parseObjectKey :: S)) <=? maxNestingDepth) = true)
    by (apply Z.leb_le; unfold maxNestingDepth in *; cbn [length]; lia).
  destruct Hst as [-> | ->]; unfold scan_step, stateBeginValueOrEmpty_fn, stateBeginValue_fn;
  cbn [step isSpace is_ws]; unfold pushParseState; cbn [parseState set_parseState set_step step err endTop];
  rewrite E; reflexivity.
Qed.

Lemma step_comma_arr (st : stepfn) (S : list parse_state) (e : option string) (t : bool) :
  after_value st = true ->
  scan_step (mkScanner st (parseArrayValue :: S) e t) ","%char =
  (mkScanner stateBeginValue (parseArrayValue :: S) e t, scanArrayValue).
Proof. intros H. rewrite after_value_step by (auto; cbn; tauto). reflexivity. Qed.

Lemma step_close_arr (st : stepfn) (S : list parse_state) (e : option string) (t : bool) :
  after_value st = true ->
  scan_step (mkScanner st (parseArrayValue :: S) e t) "]"%char = (scan_closed S e t, scanEndArray).
Proof. intros H. rewrite after_value_step by (auto; cbn; tauto). destruct S; reflexivity. Qed.

Lemma step_comma_obj (st : stepfn) (S : list parse_state) (e : option string) (t : bool) :
  after_value st = true ->
  scan_step (mkScanner st (parseObjectValue :: S) e t) ","%char =
  (mkScanner stateBeginString (parseObjectKey :: S) e t, scanObjectValue).
Proof. intros H. rewrite after_value_step by (auto; cbn; tauto). reflexivity. Qed.

Lemma step_close_obj (st : stepfn) (S : list parse_state) (e : option string) (t : bool) :
  after_value st = true ->
  scan_step (mkScanner st (parseObjectValue :: S) e t) "}"%char = (scan_closed S e t, scanEndObject).
Proof. intros H. rewrite after_value_step by (auto; cbn; tauto). destruct S; reflexivity. Qed.

Lemma step_empty_arr (S : list parse_state) (e : option string) (t : bool) :
  scan_step (mkScanner stateBeginValueOrEmpty (parseArrayValue :: S) e t) "]"%char =
  (scan_closed S e t, scanEndArray).
Proof. destruct S; reflexivity. Qed.

Lemma step_empty_obj (S : list parse_state) (e : option string) (t : bool) :
  scan_step (mkScanner stateBeginStringOrEmpty (parseObjectKey :: S) e t) "}"%char =
  (scan_closed S e t, scanEndObject).
Proof. destruct S; reflexivity. Qed.

Lemma scan_closed_cons (p : parse_state) (S : list parse_state) (e : option string) (t : bool) :
  scan_closed (p :: S) e t = mkScanner stateEndValue (p :: S) e t.
Proof. reflexivity. Qed.

(** A string literal written by [appendString], from any state that
    begins a value or an object key. *)
Lemma scan_string (st : stepfn) (x rest : list ascii) (S : list parse_state) (e : option string) (t : bool) :
  st = stateBeginValue \/ st = stateBeginValueOrEmpty \/ st = stateBeginString \/
  st = stateBeginStringOrEmpty ->
  scan_loop (mkScanner st S e t) (appendString x ++ rest) =
  scan_loop (mkScanner stateEndValue S e t) rest.
Proof.
  intros Hst. unfold appendString. cbn [app].
  assert (H : scan_loop (mkScanner st S e t) (c_quote :: (appendString_body (length x) x ++ [c_quote]) ++ rest)
            = scan_loop (mkScanner stateInString S e t) (appendString_body (length x) x ++ c_quote :: rest)).
  { rewrite <- app_assoc. cbn [app]. destruct Hst as [->|[->|[->| ->]]]; sstep; reflexivity. }
  rewrite H, scan_str_body by apply appendString_body_units. sstep. reflexivity.
Qed.

(** Scanning a value written by [Marshal] from the beginning of a value,
    inside at least one array or object, with [d] bounding the depth of
    the stack. *)
Definition scan_ok (d : Z) (bytes : list ascii) : Prop :=
  forall st S e t rest,
    (st = stateBeginValue \/ st = stateBeginValueOrEmpty) -> S <> [] -> Z.of_nat (length S) <= d ->
    exists st', after_value st' = true /\
      scan_loop (mkScanner st S e t) (bytes ++ rest) = scan_loop (mkScanner st' S e t) rest.

Lemma scan_array_body (n : Z) (bl : list (list ascii)) :
  Forall (scan_ok n) bl -> bl <> [] ->
  forall st S e t rest, (st = stateBeginValue \/ st = stateBeginValueOrEmpty) ->
  Z.of_nat (length S) + 1 <= n ->
  scan_loop (mkScanner st (parseArrayValue :: S) e t) (join_comma bl ++ "]"%char :: rest) =
  scan_loop (scan_closed S e t) rest.
Proof.
  induction 1 as [|x bl' Hx Hbl IH]; intros Hne st S e t rest Hst Hn; [congruence|].
  destruct bl' as [|y bl''].
  - cbn [join_comma].
    destruct (Hx st (parseArrayValue :: S) e t ("]"%char :: rest) Hst ltac:(discriminate)
                ltac:(cbn [length]; lia)) as [st' [Ha ->]].
    rewrite (scan_loop_step _ _ _ _ _ (step_close_arr st' S e t Ha)) by discriminate. reflexivity.
  - change (join_comma (x :: y :: bl'')) with (x ++ ","%char :: join_comma (y :: bl'')).
    rewrite <- app_assoc. cbn [app].
    destruct (Hx st (parseArrayValue :: S) e t (","%char :: join_comma (y :: bl'') ++ "]"%char :: rest)
                Hst ltac:(discriminate)
                ltac:(cbn [length]; lia)) as [st' [Ha ->]].
    rewrite (scan_loop_step _ _ _ _ _ (step_comma_arr st' S e t Ha)) by discriminate.
    apply IH; auto; discriminate.
Qed.

Lemma scan_object_body (n : Z) (entries : list (list ascii * list ascii)) :
  Forall (fun en => scan_ok n (snd en)) entries -> entries <> [] ->
  forall st S e t rest, (st = stateBeginString \/ st = stateBeginStringOrEmpty) ->
  Z.of_nat (length S) + 1 <= n ->
  scan_loop (mkScanner st (parseObjectKey :: S) e t)
    (join_comma (map (fun e => appendString (fst e) ++ ":"%char :: snd e) entries) ++ "}"%char :: rest) =
  scan_loop (scan_closed S e t) rest.
Proof.
  induction 1 as [|[k b] en' Hx Hen IH]; intros Hne st S e t rest Hst Hn; [congruence|].
  cbn [fst snd] in Hx.
  assert (Hkey : forall r, scan_loop (mkScanner st (parseObjectKey :: S) e t)
                   ((appendString k ++ ":"%char :: b) ++ r) =
                 scan_loop (mkScanner stateBeginValue (parseObjectValue :: S) e t) (b ++ r)).
  { intros r. rewrite <- app_assoc. rewrite scan_string by tauto. cbn [app]. sstep. reflexivity. }
  destruct en' as [|en2 en''].
  - cbn [map join_comma fst snd]. rewrite Hkey.
    destruct (Hx stateBeginValue (parseObjectValue :: S) e t ("}"%char :: rest) ltac:(auto)
                ltac:(discriminate) ltac:(cbn [length]; lia)) as [st' [Ha ->]].
    rewrite (scan_loop_step _ _ _ _ _ (step_close_obj st' S e t Ha)) by discriminate. reflexivity.
  - change (map (fun e => appendString (fst e) ++ ":"%char :: snd e) ((k, b) :: en2 :: en''))
      with ((appendString k ++ ":"%char :: b) ::
            map (fun e => appendString (fst e) ++ ":"%char :: snd e) (en2 :: en'')).
    change (join_comma ((appendString k ++ ":"%char :: b) ::
            map (fun e => appendString (fst e) ++ ":"%char :: snd e) (en2 :: en'')))
      with ((appendString k ++ ":"%char :: b) ++ ","%char ::
            join_comma (map (fun e => appendString (fst e) ++ ":"%char :: snd e) (en2 :: en''))).
    rewrite <- app_assoc. cbn [app]. rewrite Hkey.
    destruct (Hx stateBeginValue (parseObjectValue :: S) e t
                (","%char :: join_comma (map (fun e => appendString (fst e) ++ ":"%char :: snd e) (en2 :: en''))
                 ++ "}"%char :: rest) ltac:(auto) ltac:(discriminate) ltac:(cbn [length]; lia))
      as [st' [Ha ->]].
    rewrite (scan_loop_step _ _ _ _ _ (step_comma_obj st' S e t Ha)) by discriminate.
    apply IH; auto; discriminate.
Qed.

Lemma sort_insert_Forall (P : list ascii * list ascii -> Prop) (x : list ascii * list ascii)
    (l : list (list ascii * list ascii)) :
  P x -> Forall P l -> Forall P (sort_insert x l).
Proof.
  intros Hx. induction 1 as [|y l Hy Hl IH]; cbn; [constructor; auto|].
  destruct (bytes_compare (fst x) (fst y)); repeat constructor; auto.
Qed.

Lemma sort_entries_Forall (P : list ascii * list ascii -> Prop) (l : list (list ascii * list ascii)) :
  Forall P l -> Forall P (sort_entries l).
Proof.
  induction 1 as [|x l Hx Hl IH]; cbn; [constructor|]. apply sort_insert_Forall; auto.
Qed.

Section ScanMarshal.
Variable float64 : Type.
Variable FormatFloat : float64 -> string.
(** [floatEncoder] writes a number in the grammar of RFC 8259. *)
Hypothesis FormatFloat_number :
  forall x, json_number_literal (list_ascii_of_string (FormatFloat x)) = true.

Lemma scan_value (v : jval float64) :
  forall d, Z.of_nat (jdepth v) + d <= maxNestingDepth ->
  scan_ok d (Marshal_value float64 FormatFloat v).
Proof.
  induction v as [| b | x | s | l IH | m IH] using jval_nested_ind;
    intros d Hd st S e t rest Hst HS HSd.
  - exists stateEndValue. split; [reflexivity|].
    destruct Hst as [-> | ->]; cbn [Marshal_value list_ascii_of_string app];
    do 4 sstep; reflexivity.
  - exists stateEndValue. split; [reflexivity|].
    destruct b, Hst as [-> | ->]; cbn [Marshal_value list_ascii_of_string app];
    repeat sstep; reflexivity.
  - cbn [Marshal_value]. apply scan_number; [exact Hst|apply FormatFloat_number].
  - exists stateEndValue. split; [reflexivity|]. cbn [Marshal_value].
    apply scan_string. destruct Hst; auto.
  - exists stateEndValue. split; [reflexivity|]. cbn [Marshal_value]. cbn [app].
    cbn [jdepth] in Hd.
    rewrite (scan_loop_step _ _ _ _ _ (step_push_arr st S e t Hst ltac:(lia))) by discriminate.
    destruct S as [|p S]; [congruence|].
    destruct l as [|w l'].
    + cbn [map join_comma app].
      rewrite (scan_loop_step _ _ _ _ _ (step_empty_arr (p :: S) e t)) by discriminate.
      reflexivity.
    + rewrite <- app_assoc. cbn [app].
      rewrite (scan_array_body (d + 1)); [reflexivity| | discriminate | auto | lia].
      apply Forall_in_map. rewrite List.Forall_forall in IH |- *. intros w' Hw'.
      apply IH; [exact Hw'|].
      pose proof (jdepth_arr_child float64 (w :: l') w' Hw') as Hc. cbn [jdepth] in Hc. lia.
  - exists stateEndValue. split; [reflexivity|]. cbn [Marshal_value]. cbn [app].
    cbn [jdepth] in Hd.
    rewrite (scan_loop_step _ _ _ _ _ (step_push_obj st S e t Hst ltac:(lia))) by discriminate.
    destruct S as [|p S]; [congruence|].
    rewrite <- app_assoc. cbn [app].
    destruct (sort_entries (map (fun e => (fst e, Marshal_value float64 FormatFloat (snd e))) m))
      as [|en entries] eqn:Hsort.
    + cbn [map join_comma app].
      rewrite (scan_loop_step _ _ _ _ _ (step_empty_obj (p :: S) e t)) by discriminate.
      reflexivity.
    + rewrite (scan_object_body (d + 1)); [reflexivity| | discriminate | auto | lia].
      rewrite <- Hsort. apply sort_entries_Forall.
      apply Forall_in_map. rewrite List.Forall_forall in IH |- *. intros e' He'. cbn [snd].
      apply IH; [exact He'|].
      pose proof (jdepth_obj_child float64 m e' He') as Hc. cbn [jdepth] in Hc. lia.
Qed.

(** [checkValid] accepts what [Marshal] writes for an object that is not
    nested too deep. *)
Lemma checkValid_Marshal (m : list (list ascii * jval float64)) :
  Z.of_nat (jdepth (JObj m)) <= maxNestingDepth ->
  checkValid (Marshal_value float64 FormatFloat (JObj m)) = None.
Proof.
  intros Hd. unfold checkValid, scan_reset. cbn [Marshal_value]. cbn [jdepth] in Hd.
  rewrite (scan_loop_step _ _ _ _ _ (step_push_obj stateBeginValue [] None false ltac:(auto)
             ltac:(cbn; unfold maxNestingDepth; lia))) by discriminate.
  destruct (sort_entries (map (fun e => (fst e, Marshal_value float64 FormatFloat (snd e))) m))
    as [|en entries] eqn:Hsort.
  - cbn [map join_comma app].
    rewrite (scan_loop_step _ _ _ _ _ (step_empty_obj [] None false)) by discriminate.
    reflexivity.
  - rewrite (scan_object_body 1); [reflexivity| | discriminate | auto | cbn; lia].
    rewrite <- Hsort. apply sort_entries_Forall.
    apply Forall_in_map. rewrite List.Forall_forall. intros e' He'. cbn [snd].
    apply scan_value.
    pose proof (jdepth_obj_child float64 m e' He') as Hc. cbn [jdepth] in Hc. lia.
Qed.

End ScanMarshal.

(** *** The decoder reads back what [Marshal] writes *)

Section DecodeMarshal.
Variable float64 : Type.
Variable ParseFloat : string -> option float64.
Variable FormatFloat : float64 -> string.
Hypothesis FormatFloat_number :
  forall x, json_number_literal (list_ascii_of_string (FormatFloat x)) = true.
(** [strconv.ParseFloat] reads back what [floatEncoder] writes. *)
Hypothesis ParseFloat_FormatFloat : forall x, ParseFloat (FormatFloat x) = Some x.

Abbreviation jval := (jval float64).
Abbreviation M := (Marshal_value float64 FormatFloat).
Abbreviation decV := (dec_value float64 ParseFloat).
Abbreviation decA := (dec_array float64 ParseFloat).
Abbreviation decO := (dec_object float64 ParseFloat).

Definition first_chars : list ascii :=
  ["n"; "t"; "f"; "["; "{"; c_quote; "-"; "0"; "1"; "2"; "3"; "4"; "5"; "6"; "7"; "8"; "9"]%char.

Lemma Marshal_first (v : jval) : exists c0 r0, M v = c0 :: r0 /\ In c0 first_chars.
Proof.
  destruct v as [| [|] | x | s | l | m]; cbn [Marshal_value].
  - eexists _, _. split; [reflexivity|]. cbn; tauto.
  - eexists _, _. split; [reflexivity|]. cbn; tauto.
  - eexists _, _. split; [reflexivity|]. cbn; tauto.
  - destruct (number_first _ (FormatFloat_number x)) as [c0 [r0 [E Hc]]].
    exists c0, r0. split; [exact E|]. unfold first_chars. cbn in Hc |- *. tauto.
  - eexists _, _. split; [reflexivity|]. cbn; tauto.
  - eexists _, _. split; [reflexivity|]. cbn; tauto.
  - eexists _, _. split; [reflexivity|]. cbn; tauto.
Qed.

Lemma first_chars_facts (c0 : ascii) :
  In c0 first_chars ->
  is_ws c0 = false /\ Ascii.eqb c0 "]" = false /\ Ascii.eqb c0 "}" = false.
Proof.
  unfold first_chars. cbn. intros H.
  repeat (destruct H as [<-|H]; [split; [|split]; reflexivity|]). contradiction.
Qed.

Lemma skip_ws_Marshal (v : jval) (X : list ascii) : skip_ws (M v ++ X) = M v ++ X.
Proof.
  destruct (Marshal_first v) as [c0 [r0 [E Hc]]]. rewrite E. cbn [app skip_ws].
  destruct (first_chars_facts c0 Hc) as [-> _]. reflexivity.
Qed.

Lemma skip_ws_sep (c : ascii) (X : list ascii) :
  In c [","; "]"; "}"; ":"]%char -> skip_ws (c :: X) = c :: X.
Proof. cbn. intros H. repeat (destruct H as [<-|H]; [reflexivity|]). contradiction. Qed.

Lemma dv_quote (f : nat) (d : Z) (sv : option string) (r : list ascii) :
  decV (S f) d sv (c_quote :: r) =
  let '(lit, r') := rescan_string r in
  match unquoteBytes (c_quote :: lit) with Some t => Some (JStr t, sv, r') | None => None end.
Proof. reflexivity. Qed.

Lemma dv_arr (f : nat) (d : Z) (sv : option string) (r : list ascii) :
  decV (S f) d sv ("["%char :: r) =
  if d + 1 <=? maxNestingDepth then
    match decA f (d + 1) sv [] r with Some (l, sv', r') => Some (JArr l, sv', r') | None => None end
  else None.
Proof. reflexivity. Qed.

Lemma dv_obj (f : nat) (d : Z) (sv : option string) (r : list ascii) :
  decV (S f) d sv ("{"%char :: r) =
  if d + 1 <=? maxNestingDepth then
    match decO f (d + 1) sv [] r with Some (m, sv', r') => Some (JObj m, sv', r') | None => None end
  else None.
Proof. reflexivity. Qed.

Lemma dv_num (f : nat) (d : Z) (sv : option string) (c0 : ascii) (r : list ascii) :
  In c0 ["-"; "0"; "1"; "2"; "3"; "4"; "5"; "6"; "7"; "8"; "9"]%char ->
  decV (S f) d sv (c0 :: r) =
  let '(lit, r') := rescan_number r in
  let item := string_of_list_ascii (c0 :: lit) in
  match ParseFloat item with
  | Some x => Some (JNum x, sv, r')
  | None => Some (JNull, saveError sv (number_error item), r')
  end.
Proof.
  cbn. intros H. repeat (destruct H as [<-|H]; [reflexivity|]). contradiction.
Qed.

Lemma da_close (f : nat) (d : Z) (sv : option string) (acc : list jval) (r : list ascii) :
  decA (S f) d sv acc ("]"%char :: r) = Some (rev acc, sv, r).
Proof. reflexivity. Qed.

Lemma da_step (f : nat) (d : Z) (sv : option string) (acc : list jval) (c0 : ascii) (r : list ascii) :
  is_ws c0 = false -> Ascii.eqb c0 "]" = false ->
  decA (S f) d sv acc (c0 :: r) =
  match decV f d sv (c0 :: r) with
  | None => None
  | Some (v, sv', r') =>
      match skip_ws r' with
      | [] => None
      | c' :: r'' =>
          if Ascii.eqb c' "]" then Some (rev (v :: acc), sv', r'')
          else if Ascii.eqb c' "," then decA f d sv' (v :: acc) r''
          else None
      end
  end.
Proof. intros H1 H2. cbn [dec_array skip_ws]. rewrite H1, H2. reflexivity. Qed.

Lemma da_step_M (f : nat) (d : Z) (sv : option string) (acc : list jval) (v : jval) (X : list ascii) :
  decA (S f) d sv acc (M v ++ X) =
  match decV f d sv (M v ++ X) with
  | None => None
  | Some (w, sv', r') =>
      match skip_ws r' with
      | [] => None
      | c' :: r'' =>
          if Ascii.eqb c' "]" then Some (rev (w :: acc), sv', r'')
          else if Ascii.eqb c' "," then decA f d sv' (w :: acc) r''
          else None
      end
  end.
Proof.
  destruct (Marshal_first v) as [c0 [r0 [E Hc]]]. rewrite E. cbn [app].
  destruct (first_chars_facts c0 Hc) as [H1 [H2 _]]. apply da_step; assumption.
Qed.

Lemma do_close (f : nat) (d : Z) (sv : option string) (acc : list (list ascii * jval)) (r : list ascii) :
  decO (S f) d sv acc ("}"%char :: r) = Some (acc, sv, r).
Proof. reflexivity. Qed.

Lemma do_key (f : nat) (d : Z) (sv : option string) (acc : list (list ascii * jval)) (r : list ascii) :
  decO (S f) d sv acc (c_quote :: r) =
  let '(lit, r1) := rescan_string r in
  match unquoteBytes (c_quote :: lit) with
  | None => None
  | Some key =>
      match skip_ws r1 with
      | [] => None
      | c1 :: r2 =>
          if Ascii.eqb c1 ":" then
            match decV f d sv (skip_ws r2) with
            | None => None
            | Some (v, sv', r3) =>
                let m' := jmap_set float64 key v acc in
                match skip_ws r3 with
                | [] => None
                | c3 :: r4 =>
                    if Ascii.eqb c3 "}" then Some (m', sv', r4)
                    else if Ascii.eqb c3 "," then decO f d sv' m' r4
                    else None
                end
            end
          else None
      end
  end.
Proof. reflexivity. Qed.

Lemma do_entry (f : nat) (d : Z) (sv : option string) (acc : list (list ascii * jval))
    (k X : list ascii) :
  valid_utf8 k ->
  decO (S f) d sv acc (appendString k ++ ":"%char :: X) =
  match decV f d sv (skip_ws X) with
  | None => None
  | Some (v, sv', r3) =>
      let m' := jmap_set float64 k v acc in
      match skip_ws r3 with
      | [] => None
      | c3 :: r4 =>
          if Ascii.eqb c3 "}" then Some (m', sv', r4)
          else if Ascii.eqb c3 "," then decO f d sv' m' r4
          else None
      end
  end.
Proof.
  intros Hk. unfold appendString at 1. cbn [app]. rewrite do_key.
  rewrite <- app_assoc. cbn [app].
  rewrite rescan_string_body by apply appendString_body_units.
  rewrite (unquote_appendString k Hk : unquoteBytes (c_quote :: _ ++ [c_quote]) = Some k).
  reflexivity.
Qed.

Definition dec_ok (w : jval) : Prop :=
  forall fuel d sv c rest,
    Z.of_nat (jdepth w) + d <= maxNestingDepth -> (length (M w) < fuel)%nat ->
    In c [","; "]"; "}"]%char ->
    decV fuel d sv (M w ++ c :: rest) = Some (w, sv, c :: rest).

Lemma dec_array_body (d : Z) (sv : option string) (l : list jval) :
  Forall (fun w => Z.of_nat (jdepth w) + d <= maxNestingDepth /\ dec_ok w) l -> l <> [] ->
  forall fuel acc rest, (length (join_comma (map M l) ++ ["]"%char]) < fuel)%nat ->
  decA fuel d sv acc (join_comma (map M l) ++ "]"%char :: rest) = Some (rev acc ++ l, sv, rest).
Proof.
  induction 1 as [|x l' [Hdx Hx] Hl IH]; intros Hne fuel acc rest Hf; [congruence|].
  destruct fuel as [|f]; [cbn in Hf; lia|].
  destruct l' as [|y l''].
  - cbn [map join_comma] in Hf |- *. rewrite da_step_M.
    rewrite Hx by (auto; rewrite length_app in Hf; cbn [length] in Hf; try lia; cbn; tauto).
    reflexivity.
  - change (join_comma (map M (x :: y :: l''))) with (M x ++ ","%char :: join_comma (map M (y :: l''))) in Hf |- *.
    rewrite <- app_assoc. cbn [app]. rewrite da_step_M.
    rewrite !length_app in Hf. cbn [length] in Hf.
    rewrite Hx by (auto; try lia; cbn; tauto). rewrite skip_ws_sep by (cbn; tauto).
    change (Ascii.eqb "," "]") with false. change (Ascii.eqb "," ",") with true. cbv iota.
    rewrite IH by (try discriminate; rewrite length_app; cbn [length]; lia).
    cbn [rev]. rewrite <- app_assoc. reflexivity.
Qed.

Lemma keys_sorted_mid {A : Type} (a b : list (list ascii * A)) (k : list ascii) (w : A) :
  keys_sorted (a ++ (k, w) :: b) -> Forall (fun e => bytes_compare (fst e) k = Lt) a.
Proof.
  induction a as [|[k' w'] a IH]; cbn; intros H; [constructor|].
  destruct H as [H1 H2]. constructor; [|auto].
  apply List.Forall_app in H1 as [_ H1]. inversion H1; subst. exact H3.
Qed.

Lemma dec_object_body (d : Z) (sv : option string) (m2 : list (list ascii * jval)) :
  Forall (fun e => valid_utf8 (fst e) /\ Z.of_nat (jdepth (snd e)) + d <= maxNestingDepth /\
                   dec_ok (snd e)) m2 -> m2 <> [] ->
  forall fuel acc rest, keys_sorted (acc ++ m2) ->
  (length (join_comma (map (fun e => appendString (fst e) ++ ":"%char :: M (snd e)) m2) ++ ["}"%char])
     < fuel)%nat ->
  decO fuel d sv acc
    (join_comma (map (fun e => appendString (fst e) ++ ":"%char :: M (snd e)) m2) ++ "}"%char :: rest)
  = Some (acc ++ m2, sv, rest).
Proof.
  induction 1 as [|[k w] m2' [Hk [Hdw Hw]] Hm IH]; intros Hne fuel acc rest Hs Hf; [congruence|].
  cbn [fst snd] in Hk, Hdw, Hw.
  destruct fuel as [|f]; [cbn in Hf; lia|].
  pose proof (jmap_set_last float64 k w acc (keys_sorted_mid acc m2' k w Hs)) as Hset.
  destruct m2' as [|e2 m2''].
  - cbn [map join_comma fst snd] in Hf |- *. rewrite <- app_assoc. cbn [app].
    rewrite do_entry by exact Hk. rewrite skip_ws_Marshal.
    repeat (rewrite length_app in Hf; cbn [length] in Hf).
    rewrite Hw by (auto; try lia; cbn; tauto).
    cbn zeta. rewrite Hset. reflexivity.
  - change (map (fun e => appendString (fst e) ++ ":"%char :: M (snd e)) ((k, w) :: e2 :: m2''))
      with ((appendString k ++ ":"%char :: M w) ::
            map (fun e => appendString (fst e) ++ ":"%char :: M (snd e)) (e2 :: m2'')) in Hf |- *.
    change (join_comma ((appendString k ++ ":"%char :: M w) ::
              map (fun e => appendString (fst e) ++ ":"%char :: M (snd e)) (e2 :: m2'')))
      with ((appendString k ++ ":"%char :: M w) ++ ","%char ::
              join_comma (map (fun e => appendString (fst e) ++ ":"%char :: M (snd e)) (e2 :: m2'')))
      in Hf |- *.
    rewrite <- !app_assoc. cbn [app].
    rewrite do_entry by exact Hk. rewrite skip_ws_Marshal.
    repeat (rewrite length_app in Hf; cbn [length] in Hf).
    rewrite Hw by (auto; try lia; cbn; tauto).
    cbn zeta. rewrite skip_ws_sep by (cbn; tauto).
    change (Ascii.eqb "," "}") with false. change (Ascii.eqb "," ",") with true. cbv iota.
    rewrite Hset. rewrite IH by (try discriminate; try (rewrite <- app_assoc; exact Hs);
                                 rewrite length_app; cbn [length]; lia).
    rewrite <- app_assoc. reflexivity.
Qed.

(** Decoding what [Marshal] writes for a well-formed value gives the value
    back, when it is followed by a separator. *)
Lemma dec_Marshal (v : jval) : jwf v -> dec_ok v.
Proof.
  induction v as [| b | x | s | l IH | m IH] using jval_nested_ind;
    intros Hwf fuel d sv c rest Hd Hf Hc.
  - destruct fuel as [|f]; [cbn in Hf; lia|]. reflexivity.
  - destruct fuel as [|f]; [cbn in Hf; lia|]. destruct b; reflexivity.
  - cbn [Marshal_value] in Hf |- *.
    pose proof (FormatFloat_number x) as Hnum.
    destruct (number_first _ Hnum) as [c0 [r0 [E Hc0]]].
    pose proof (number_num _ Hnum) as Hnc. rewrite E in Hnc. cbn [forallb] in Hnc.
    apply andb_true_iff in Hnc as [_ Hnc].
    destruct fuel as [|f]; [cbn in Hf; lia|].
    rewrite E. cbn [app]. rewrite dv_num by exact Hc0.
    rewrite rescan_number_app by (try exact Hnc; cbn in Hc;
      destruct Hc as [<-|[<-|[<-|[]]]]; reflexivity).
    rewrite <- E. cbv zeta. rewrite string_of_list_ascii_of_string, ParseFloat_FormatFloat. reflexivity.
  - cbn [jwf] in Hwf. cbn [Marshal_value] in Hf |- *.
    destruct fuel as [|f]; [cbn in Hf; lia|].
    unfold appendString. cbn [app]. rewrite dv_quote.
    rewrite <- app_assoc. cbn [app].
    rewrite rescan_string_body by apply appendString_body_units.
    rewrite (unquote_appendString s Hwf : unquoteBytes (c_quote :: _ ++ [c_quote]) = Some s).
    reflexivity.
  - apply jwf_arr in Hwf. cbn [Marshal_value] in Hf |- *. cbn [jdepth] in Hd.
    destruct fuel as [|f]; [cbn in Hf; lia|].
    cbn [app]. rewrite dv_arr.
    replace (d + 1 <=? maxNestingDepth) with true by (symmetry; apply Z.leb_le; lia).
    destruct l as [|w l'].
    + cbn [map join_comma app] in Hf |- *. destruct f as [|f]; [cbn in Hf; lia|].
      rewrite da_close. reflexivity.
    + rewrite <- app_assoc. cbn [app].
      rewrite (dec_array_body (d + 1)).
      * reflexivity.
      * rewrite List.Forall_forall in IH, Hwf |- *. intros w' Hw'. split.
        -- pose proof (jdepth_arr_child float64 (w :: l') w' Hw') as Hcd. cbn [jdepth] in Hcd. lia.
        -- apply IH; [exact Hw'|apply Hwf; exact Hw'].
      * discriminate.
      * cbn [length] in Hf. rewrite length_app in Hf |- *. cbn [length] in Hf |- *. lia.
  - apply jwf_obj in Hwf as [Hsorted Hwf]. cbn [Marshal_value] in Hf |- *. cbn [jdepth] in Hd.
    rewrite sort_entries_sorted in Hf |- * by (apply keys_sorted_map; exact Hsorted).
    rewrite map_map in Hf |- *. cbn [fst snd] in Hf |- *.
    destruct fuel as [|f]; [cbn in Hf; lia|].
    cbn [app]. rewrite dv_obj.
    replace (d + 1 <=? maxNestingDepth) with true by (symmetry; apply Z.leb_le; lia).
    destruct m as [|e m'].
    + cbn [map join_comma app] in Hf |- *. destruct f as [|f]; [cbn in Hf; lia|].
      rewrite do_close. reflexivity.
    + rewrite <- app_assoc. cbn [app].
      rewrite (dec_object_body (d + 1)).
      * reflexivity.
      * rewrite List.Forall_forall in IH, Hwf |- *. intros e' He'.
        destruct (Hwf e' He') as [Hk Hw]. split; [exact Hk|]. split.
        -- pose proof (jdepth_obj_child float64 (e :: m') e' He') as Hcd. cbn [jdepth] in Hcd. lia.
        -- apply IH; assumption.
      * discriminate.
      * exact Hsorted.
      * cbn [length] in Hf. rewrite length_app in Hf |- *. cbn [length] in Hf |- *. lia.
Qed.

End DecodeMarshal.

(** ** What the decoder returns: well-formed values within the depth limit *)

Section DecodeInv.
Variable float64 : Type.
Variable ParseFloat : string -> option float64.

Abbreviation jval := (jval float64).
Abbreviation decV := (dec_value float64 ParseFloat).
Abbreviation decA := (dec_array float64 ParseFloat).
Abbreviation decO := (dec_object float64 ParseFloat).

Definition okv (d : Z) (v : jval) : Prop :=
  jwf v /\ d + Z.of_nat (jdepth v) <= maxNestingDepth.

Definition oke (d : Z) (e : list ascii * jval) : Prop :=
  valid_utf8 (fst e) /\ okv d (snd e).

Lemma jmap_set_Forall (P : list ascii * jval -> Prop) (k : list ascii) (v : jval)
    (m : list (list ascii * jval)) :
  Forall P m -> P (k, v) -> Forall P (jmap_set float64 k v m).
Proof.
  induction 1 as [|[k' v'] m' H1 H2 IH]; intros Hk; cbn; [constructor; auto|].
  destruct (bytes_compare k k'); constructor; auto.
Qed.

Lemma list_max_bound (d : Z) (l : list nat) :
  Forall (fun n => d + Z.of_nat n <= maxNestingDepth) l -> d <= maxNestingDepth ->
  d + Z.of_nat (list_max l) <= maxNestingDepth.
Proof.
  induction 1 as [|n l Hn Hl IH]; intros Hd; [cbn; lia|].
  change (list_max (n :: l)) with (Nat.max n (list_max l)).
  specialize (IH Hd). destruct (Nat.max_spec n (list_max l)) as [[_ ->]|[_ ->]]; lia.
Qed.

Lemma okv_arr (d : Z) (l : list jval) :
  d + 1 <= maxNestingDepth -> Forall (okv (d + 1)) l -> okv d (JArr l).
Proof.
  intros Hd Hl. split.
  - apply jwf_arr. eapply List.Forall_impl; [|exact Hl]. intros w [Hw _]. exact Hw.
  - cbn [jdepth]. assert (d + 1 + Z.of_nat (list_max (map jdepth l)) <= maxNestingDepth); [|lia].
    apply list_max_bound; [|exact Hd]. apply Forall_in_map.
    eapply List.Forall_impl; [|exact Hl]. intros w [_ Hw]. exact Hw.
Qed.

Lemma okv_obj (d : Z) (m : list (list ascii * jval)) :
  d + 1 <= maxNestingDepth -> keys_sorted m -> Forall (oke (d + 1)) m -> okv d (JObj m).
Proof.
  intros Hd Hs Hm. split.
  - apply jwf_obj. split; [exact Hs|].
    eapply List.Forall_impl; [|exact Hm]. intros e [Hk [Hw _]]. auto.
  - cbn [jdepth].
    assert (d + 1 + Z.of_nat (list_max (map (fun e => jdepth (snd e)) m)) <= maxNestingDepth); [|lia].
    apply list_max_bound; [|exact Hd]. apply (Forall_in_map (fun n => d + 1 + Z.of_nat n <= _)).
    eapply List.Forall_impl; [|exact Hm]. intros e [_ [_ Hw]]. exact Hw.
Qed.

Lemma decV_eq (f : nat) (depth : Z) (sv : option string) (s : list ascii) :
  decV (S f) depth sv s =
      match s with
      | [] => None
      | c :: r =>
          if Ascii.eqb c "{" then
            if depth + 1 <=? maxNestingDepth then
              match decO f (depth + 1) sv [] r with
              | Some (m, sv', r') => Some (JObj m, sv', r')
              | None => None
              end
            else None
          else if Ascii.eqb c "[" then
            if depth + 1 <=? maxNestingDepth then
              match decA f (depth + 1) sv [] r with
              | Some (l, sv', r') => Some (JArr l, sv', r')
              | None => None
              end
            else None
          else if Ascii.eqb c c_quote then
            let '(lit, r') := rescan_string r in
            match unquoteBytes (c :: lit) with
            | Some t => Some (JStr t, sv, r')
            | None => None
            end
          else if Ascii.eqb c "t" then Some (JBool true, sv, skipn 3 r)
          else if Ascii.eqb c "f" then Some (JBool false, sv, skipn 4 r)
          else if Ascii.eqb c "n" then Some (JNull, sv, skipn 3 r)
          else if Ascii.eqb c "-" || isDigit c then
            let '(lit, r') := rescan_number r in
            let item := string_of_list_ascii (c :: lit) in
            match ParseFloat item with
            | Some x => Some (JNum x, sv, r')
            | None => Some (JNull, saveError sv (number_error item), r')
            end
          else None
      end.
Proof. reflexivity. Qed.

Lemma decA_eq (f : nat) (depth : Z) (sv : option string) (acc : list jval) (s : list ascii) :
  decA (S f) depth sv acc s =
      match skip_ws s with
      | [] => None
      | c :: r =>
          if Ascii.eqb c "]" then Some (rev acc, sv, r)
          else
            match decV f depth sv (c :: r) with
            | None => None
            | Some (v, sv', r') =>
                match skip_ws r' with
                | [] => None
                | c' :: r'' =>
                    if Ascii.eqb c' "]" then Some (rev (v :: acc), sv', r'')
                    else if Ascii.eqb c' "," then decA f depth sv' (v :: acc) r''
                    else None
                end
            end
      end.
Proof. reflexivity. Qed.

Lemma decO_eq (f : nat) (depth : Z) (sv : option string) (m : jmap float64) (s : list ascii) :
  decO (S f) depth sv m s =
      match skip_ws s with
      | [] => None
      | c :: r =>
          if Ascii.eqb c "}" then Some (m, sv, r)
          else if Ascii.eqb c c_quote then
            let '(lit, r1) := rescan_string r in
            match unquoteBytes (c :: lit) with
            | None => None
            | Some key =>
                match skip_ws r1 with
                | [] => None
                | c1 :: r2 =>
                    if Ascii.eqb c1 ":" then
                      match decV f depth sv (skip_ws r2) with
                      | None => None
                      | Some (v, sv', r3) =>
                          let m' := jmap_set float64 key v m in
                          match skip_ws r3 with
                          | [] => None
                          | c3 :: r4 =>
                              if Ascii.eqb c3 "}" then Some (m', sv', r4)
                              else if Ascii.eqb c3 "," then decO f depth sv' m' r4
                              else None
                          end
                      end
                    else None
                end
            end
          else None
      end.
Proof. reflexivity. Qed.

Lemma dec_inv (fuel : nat) :
  (forall d sv s v sv' r, decV fuel d sv s = Some (v, sv', r) -> d <= maxNestingDepth -> okv d v) /\
  (forall d sv acc s l sv' r, decA fuel d sv acc s = Some (l, sv', r) -> d <= maxNestingDepth ->
     Forall (okv d) acc -> Forall (okv d) l) /\
  (forall d sv acc s m sv' r, decO fuel d sv acc s = Some (m, sv', r) -> d <= maxNestingDepth ->
     keys_sorted acc -> Forall (oke d) acc -> keys_sorted m /\ Forall (oke d) m).
Proof.
  induction fuel as [|f [IHv [IHa IHo]]].
  { split; [|split]; intros; discriminate. }
  split; [|split].
  - intros d sv s v sv' r H Hd. destruct s as [|c s]; [discriminate|].
    rewrite decV_eq in H.
    destruct (Ascii.eqb c "{").
    { destruct (d + 1 <=? maxNestingDepth) eqn:Hb; [|discriminate]. apply Z.leb_le in Hb.
      destruct (decO f (d + 1) sv [] s) as [[[m sv1] r1]|] eqn:Ho; [|discriminate].
      injection H as <- <- <-. destruct (IHo _ _ _ _ _ _ _ Ho Hb I (@List.Forall_nil _ _)) as [Hs Hm].
      apply okv_obj; assumption. }
    destruct (Ascii.eqb c "[").
    { destruct (d + 1 <=? maxNestingDepth) eqn:Hb; [|discriminate]. apply Z.leb_le in Hb.
      destruct (decA f (d + 1) sv [] s) as [[[l sv1] r1]|] eqn:Ha; [|discriminate].
      injection H as <- <- <-. apply okv_arr; [exact Hb|].
      exact (IHa _ _ _ _ _ _ _ Ha Hb (@List.Forall_nil _ _)). }
    destruct (Ascii.eqb c c_quote).
    { destruct (rescan_string s) as [lit r'].
      destruct (unquoteBytes (c :: lit)) as [t|] eqn:Hu; [|discriminate].
      injection H as <- <- <-. split; [exact (unquoteBytes_valid _ _ Hu)|cbn; lia]. }
    destruct (Ascii.eqb c "t"); [injection H as <- <- <-; split; [exact I|cbn; lia]|].
    destruct (Ascii.eqb c "f"); [injection H as <- <- <-; split; [exact I|cbn; lia]|].
    destruct (Ascii.eqb c "n"); [injection H as <- <- <-; split; [exact I|cbn; lia]|].
    destruct (Ascii.eqb c "-" || isDigit c); [|discriminate].
    destruct (rescan_number s) as [lit r'].
    cbv zeta in H. destruct (ParseFloat (string_of_list_ascii (c :: lit))); injection H as <- <- <-; (split; [exact I|cbn; lia]).
  - intros d sv acc s l sv' r H Hd Hacc. rewrite decA_eq in H.
    destruct (skip_ws s) as [|c s']; [discriminate|].
    destruct (Ascii.eqb c "]").
    { injection H as <- <- <-. apply Forall_rev. exact Hacc. }
    destruct (decV f d sv (c :: s')) as [[[v sv1] r1]|] eqn:Hv; [|discriminate].
    pose proof (IHv _ _ _ _ _ _ Hv Hd) as Hok.
    destruct (skip_ws r1) as [|c' r2]; [discriminate|].
    destruct (Ascii.eqb c' "]").
    { injection H as <- <- <-. apply List.Forall_app. split; [apply Forall_rev; exact Hacc|constructor; [exact Hok|constructor]]. }
    destruct (Ascii.eqb c' ","); [|discriminate].
    eapply IHa; [exact H|exact Hd|constructor; assumption].
  - intros d sv acc s m sv' r H Hd Hs Hacc. rewrite decO_eq in H.
    destruct (skip_ws s) as [|c s']; [discriminate|].
    destruct (Ascii.eqb c "}").
    { injection H as <- <- <-. auto. }
    destruct (Ascii.eqb c c_quote); [|discriminate].
    destruct (rescan_string s') as [lit r1].
    destruct (unquoteBytes (c :: lit)) as [key|] eqn:Hu; [|discriminate].
    destruct (skip_ws r1) as [|c1 r2]; [discriminate|].
    destruct (Ascii.eqb c1 ":"); [|discriminate].
    destruct (decV f d sv (skip_ws r2)) as [[[v sv1] r3]|] eqn:Hv; [|discriminate].
    pose proof (IHv _ _ _ _ _ _ Hv Hd) as Hok.
    assert (Hs' : keys_sorted (jmap_set float64 key v acc)) by (apply jmap_set_sorted; exact Hs).
    assert (Hacc' : Forall (oke d) (jmap_set float64 key v acc)).
    { apply jmap_set_Forall; [exact Hacc|]. split; [exact (unquoteBytes_valid _ _ Hu)|exact Hok]. }
    cbv zeta in H.
    destruct (skip_ws r3) as [|c3 r4]; [discriminate|].
    destruct (Ascii.eqb c3 "}").
    { injection H as <- <- <-. auto. }
    destruct (Ascii.eqb c3 ","); [|discriminate].
    eapply IHo; [exact H|exact Hd|exact Hs'|exact Hacc'].
Qed.

End DecodeInv.

(** ** [json.Unmarshal] after [json.Marshal] of a decoded map *)

Section RoundTrip.
Variable float64 : Type.
Variable ParseFloat : string -> option float64.
Variable FormatFloat : float64 -> string.
Hypothesis FormatFloat_number :
  forall x, json_number_literal (list_ascii_of_string (FormatFloat x)) = true.
Hypothesis ParseFloat_FormatFloat : forall x, ParseFloat (FormatFloat x) = Some x.

Lemma Unmarshal_map_okv (doc : string) (m : jmap float64) :
  Unmarshal_map float64 ParseFloat doc = Ok (Some m) -> okv float64 0 (JObj m).
Proof.
  unfold Unmarshal_map. intros H.
  destruct (checkValid _); [discriminate|].
  destruct (skip_ws _) as [|c r]; [discriminate|].
  destruct (Ascii.eqb c "{").
  - destruct (dec_object float64 ParseFloat _ 1 None [] r) as [[[m' [e|]] r']|] eqn:Ho;
      try discriminate.
    injection H as <-.
    destruct (proj2 (proj2 (dec_inv float64 ParseFloat _)) _ _ _ _ _ _ _ Ho
                ltac:(unfold maxNestingDepth; lia) I (@List.Forall_nil _ _)) as [Hs Hm].
    apply okv_obj; [unfold maxNestingDepth; lia|exact Hs|exact Hm].
  - destruct (Ascii.eqb c "n"); [discriminate|].
    destruct (Ascii.eqb c "["); [discriminate|].
    destruct (Ascii.eqb c "t" || Ascii.eqb c "f"); [discriminate|].
    destruct (Ascii.eqb c c_quote).
    + destruct (unquoteBytes _); discriminate.
    + destruct (Ascii.eqb c "-" || isDigit c); discriminate.
Qed.

Lemma Unmarshal_Marshal_obj (m : jmap float64) :
  okv float64 0 (JObj m) ->
  Unmarshal_map float64 ParseFloat
    (string_of_list_ascii (Marshal_value float64 FormatFloat (JObj m))) = Ok (Some m).
Proof.
  intros [Hwf Hd]. unfold Unmarshal_map. rewrite list_ascii_of_string_of_list_ascii.
  rewrite checkValid_Marshal by (exact FormatFloat_number || lia).
  pose proof (skip_ws_Marshal float64 FormatFloat FormatFloat_number (JObj m) []) as Hs.
  rewrite app_nil_r in Hs. rewrite Hs.
  apply jwf_obj in Hwf as [Hsorted Hwf]. cbn [jdepth] in Hd.
  cbn [Marshal_value]. cbn [length].
  rewrite sort_entries_sorted by (apply keys_sorted_map; exact Hsorted).
  rewrite map_map. cbn [fst snd].
  change (Ascii.eqb "{" "{") with true. cbv iota.
  destruct m as [|e m'].
  - cbn [map join_comma app]. rewrite do_close. reflexivity.
  - rewrite (dec_object_body float64 ParseFloat FormatFloat FormatFloat_number 1 None).
    + reflexivity.
    + rewrite List.Forall_forall in Hwf |- *. intros e' He'.
      destruct (Hwf e' He') as [Hk Hw]. split; [exact Hk|].
      pose proof (jdepth_obj_child float64 (e :: m') e' He') as Hcd. cbn [jdepth] in Hcd.
      split; [lia|]. apply dec_Marshal; assumption.
    + discriminate.
    + exact Hsorted.
    + lia.
Qed.

End RoundTrip.

(** ** The integer instance of the number parameters writes RFC 8259 numbers *)

Lemma N_to_uint_norm (n : N) : N.to_uint n = Decimal.unorm (N.to_uint n).
Proof.
  rewrite <- DecimalN.Unsigned.to_of, DecimalN.Unsigned.of_to. reflexivity.
Qed.

Lemma unorm_shape (u : Decimal.uint) :
  print_uint (Decimal.unorm u) = ["0"%char] \/
  exists c u', print_uint (Decimal.unorm u) = c :: print_uint u' /\
               In c ["1"; "2"; "3"; "4"; "5"; "6"; "7"; "8"; "9"]%char.
Proof.
  induction u as [|u IH|u _|u _|u _|u _|u _|u _|u _|u _|u _];
    [left; reflexivity|exact IH|..];
    right; eexists; exists u; (split; [reflexivity|cbn; tauto]).
Qed.

Lemma span_print_uint (u : Decimal.uint) : span_digits (print_uint u) = (print_uint u, []).
Proof. induction u; cbn [print_uint span_digits]; try rewrite IHu; reflexivity. Qed.

Lemma number_int_print_uint (n : N) :
  number_int (print_uint (N.to_uint n)) = true /\
  exists c cs, print_uint (N.to_uint n) = c :: cs /\ Ascii.eqb c "-" = false.
Proof.
  rewrite N_to_uint_norm. destruct (unorm_shape (N.to_uint n)) as [E|(c & u' & E & Hc)];
    rewrite E.
  - split; [reflexivity|]. do 2 eexists; split; reflexivity.
  - split.
    + unfold number_int. rewrite span_print_uint. cbn [snd].
      repeat (destruct Hc as [<-|Hc]; [reflexivity|]). contradiction.
    + do 2 eexists; split; [reflexivity|].
      repeat (destruct Hc as [<-|Hc]; [reflexivity|]). contradiction.
Qed.

Lemma FormatFloat_Z_number (z : Z) :
  json_number_literal (list_ascii_of_string (FormatFloat_Z z)) = true.
Proof.
  unfold FormatFloat_Z. rewrite list_ascii_of_string_of_list_ascii. unfold print_number.
  destruct (z <? 0).
  - exact (proj1 (number_int_print_uint _)).
  - destruct (number_int_print_uint (Z.to_N z)) as [H (c & cs & E & Hc)].
    unfold json_number_literal. rewrite E in H |- *. rewrite Hc. exact H.
Qed.

Lemma ParseFloat_FormatFloat_Z (z : Z) : ParseFloat_Z (FormatFloat_Z z) = Some z.
Proof.
  unfold ParseFloat_Z, FormatFloat_Z. rewrite list_ascii_of_string_of_list_ascii.
  rewrite <- (app_nil_r (print_number z)), parse_number_print by exact I. reflexivity.
Qed.

(** ** JSON texts as RFC 8259 defines them *)

(** This recognizer follows the grammar of RFC 8259, section 2 to 7, and
    sets no limit on nesting. [rfc_value f l] reads one value at the front
    of [l] and returns what follows it; the fuel [f] only makes the
    recursion structural: each call reads at least one byte before the
    next call but one, so twice the length of the text is enough. *)
Definition rfc_is_ws (c : ascii) : bool :=
  existsb (fun z => bval c =? z) [32; 9; 10; 13].

Fixpoint rfc_ws (l : list ascii) : list ascii :=
  match l with
  | c :: l' => if rfc_is_ws c then rfc_ws l' else l
  | [] => []
  end.

Definition rfc_digit (c : ascii) : bool := (48 <=? bval c) && (bval c <=? 57).

Definition rfc_hexdig (c : ascii) : bool :=
  rfc_digit c || ((65 <=? bval c) && (bval c <=? 70)) || ((97 <=? bval c) && (bval c <=? 102)).

(** [char = unescaped / escape (...)]; [unescaped] is any byte from 0x20
    but the quotation mark and the reverse solidus (the text as a whole is
    checked to be UTF-8). Returns what follows the closing quotation mark. *)
Fixpoint rfc_chars (l : list ascii) : option (list ascii) :=
  match l with
  | [] => None
  | c :: l' =>
      if bval c =? 34 then Some l'
      else if bval c =? 92 then
        match l' with
        | e :: l'' =>
            if existsb (fun z => bval e =? z) [34; 92; 47; 98; 102; 110; 114; 116] then rfc_chars l''
            else if bval e =? 117 then
              match l'' with
              | h1 :: h2 :: h3 :: h4 :: l3 =>
                  if rfc_hexdig h1 && rfc_hexdig h2 && rfc_hexdig h3 && rfc_hexdig h4
                  then rfc_chars l3 else None
              | _ => None
              end
            else None
        | [] => None
        end
      else if bval c <? 32 then None
      else rfc_chars l'
  end.

Definition rfc_number_char (c : ascii) : bool :=
  rfc_digit c || existsb (fun z => bval c =? z) [45; 43; 46; 101; 69].

Fixpoint rfc_span_number (l : list ascii) : list ascii * list ascii :=
  match l with
  | c :: l' => if rfc_number_char c then let '(t, r) := rfc_span_number l' in (c :: t, r) else ([], l)
  | [] => ([], [])
  end.

Fixpoint rfc_value (fuel : nat) (l : list ascii) : option (list ascii) :=
  match fuel with
  | O => None
  | S f =>
      match l with
      | [] => None
      | c :: r =>
          if bval c =? 123 then
            match rfc_ws r with
            | c' :: r' => if bval c' =? 125 then Some r' else rfc_members f (c' :: r')
            | [] => None
            end
          else if bval c =? 91 then
            match rfc_ws r with
            | c' :: r' => if bval c' =? 93 then Some r' else rfc_elements f (c' :: r')
            | [] => None
            end
          else if bval c =? 34 then rfc_chars r
          else if bool_decide (firstn 4 l = list_ascii_of_string "true") then Some (skipn 4 l)
          else if bool_decide (firstn 5 l = list_ascii_of_string "false") then Some (skipn 5 l)
          else if bool_decide (firstn 4 l = list_ascii_of_string "null") then Some (skipn 4 l)
          else
            let '(t, r') := rfc_span_number l in
            if json_number_literal t then Some r' else None
      end
  end
(** [value *( value-separator value ) end-array], after [begin-array] *)
with rfc_elements (fuel : nat) (l : list ascii) : option (list ascii) :=
  match fuel with
  | O => None
  | S f =>
      match rfc_value f l with
      | None => None
      | Some r =>
          match rfc_ws r with
          | c :: r' =>
              if bval c =? 44 then rfc_elements f (rfc_ws r')
              else if bval c =? 93 then Some r'
              else None
          | [] => None
          end
      end
  end
(** [member *( value-separator member ) end-object], after [begin-object],
    with [member = string name-separator value] *)
with rfc_members (fuel : nat) (l : list ascii) : option (list ascii) :=
  match fuel with
  | O => None
  | S f =>
      match l with
      | c :: r =>
          if bval c =? 34 then
            match rfc_chars r with
            | None => None
            | Some r1 =>
                match rfc_ws r1 with
                | c1 :: r2 =>
                    if bval c1 =? 58 then
                      match rfc_value f (rfc_ws r2) with
                      | None => None
                      | Some r3 =>
                          match rfc_ws r3 with
                          | c3 :: r4 =>
                              if bval c3 =? 44 then rfc_members f (rfc_ws r4)
                              else if bval c3 =? 125 then Some r4
                              else None
                          | [] => None
                          end
                      end
                    else None
                | [] => None
                end
            end
          else None
      | [] => None
      end
  end.

(** A JSON text ([ws value ws]) in UTF-8 whose value is an object. *)
Definition rfc8259_object_text (doc : string) : Prop :=
  let l := list_ascii_of_string doc in
  valid_utf8 l /\
  match rfc_ws l with
  | c :: _ =>
      bval c = 123 /\
      match rfc_value (2 * length l) (rfc_ws l) with
      | Some r => rfc_ws r = []
      | None => False
      end
  | [] => False
  end.

Lemma valid_utf8_ascii (l : list ascii) : forallb (fun c => bval c <? 128) l = true -> valid_utf8 l.
Proof.
  induction l as [|c l IH]; cbn; intros H; [constructor|].
  apply andb_true_iff in H as [H1 H2]. apply valid_cons; [apply Z.ltb_lt; exact H1|auto].
Qed.

(** An object holding an array nested 10000 deep: [{"a":[[...]]}]. *)
Definition deep_doc : string :=
  string_of_list_ascii
    (list_ascii_of_string "{" ++ [c_quote; "a"%char; c_quote; ":"%char] ++
     repeat "["%char (Z.to_nat maxNestingDepth) ++ repeat "]"%char (Z.to_nat maxNestingDepth) ++
     list_ascii_of_string "}").

(** A document with an escape, a repeated key and negative numbers, and the
    map [json.Unmarshal] makes of it (the later "a" wins; keys sorted). *)
Definition c9_doc : string :=
  ("{ " ++ dq ++ "b" ++ dq ++ ": [1, -20, {" ++ dq ++ "x" ++ dq ++ ":" ++ dq ++ "y\u00e9" ++ dq ++
   "}], " ++ dq ++ "a" ++ dq ++ ": null, " ++ dq ++ "a" ++ dq ++ ": true }")%string.

Definition c9_map : jmap Z :=
  [(list_ascii_of_string "a", JBool true);
   (list_ascii_of_string "b",
    JArr [JNum 1; JNum (-20);
          JObj [(list_ascii_of_string "x", JStr (list_ascii_of_string "y" ++ [chr 195; chr 169]))]])].

(** ** [mergeMap] on decoded maps *)

Section MergeJ.
Variable float64 : Type.

Abbreviation jval := (jval float64).
Abbreviation jget := (jmap_get float64).
Abbreviation jset := (jmap_set float64).
Abbreviation jmerge := (jmerge_value float64).
Abbreviation jloop := (jmerge_loop float64 (jmerge_value float64)).

Lemma jmerge_value_eq (dv : option jval) (sv : jval) :
  jmerge dv sv =
  match sv, dv with
  | JObj s, Some (JObj d) => JObj (jloop d s)
  | _, _ => sv
  end.
Proof. destruct dv as [[]|], sv; reflexivity. Qed.

Lemma jmap_get_set (k k' : list ascii) (v : jval) (m : list (list ascii * jval)) :
  jget k (jset k' v m) = match bytes_compare k k' with Eq => Some v | _ => jget k m end.
Proof.
  induction m as [|[k2 v2] m IH]; cbn; [reflexivity|].
  destruct (bytes_compare k' k2) eqn:E2; cbn.
  - apply bytes_compare_eq in E2 as ->. destruct (bytes_compare k k2); reflexivity.
  - reflexivity.
  - rewrite IH. destruct (bytes_compare k k') eqn:E; [|reflexivity|reflexivity].
    apply bytes_compare_eq in E as ->. rewrite E2. reflexivity.
Qed.

Lemma jmap_get_lt (k : list ascii) (m : list (list ascii * jval)) :
  Forall (fun e => bytes_compare k (fst e) = Lt) m -> jget k m = None.
Proof.
  induction 1 as [|[k' v'] m H1 H2 IH]; cbn in *; [reflexivity|]. rewrite H1. exact IH.
Qed.

Lemma jmap_get_In (k : list ascii) (v : jval) (m : list (list ascii * jval)) :
  jget k m = Some v -> In (k, v) m.
Proof.
  induction m as [|[k' v'] m IH]; cbn; [discriminate|].
  destruct (bytes_compare k k') eqn:E; intros H; auto.
  apply bytes_compare_eq in E as ->. injection H as ->. left. reflexivity.
Qed.

Lemma In_jmap_get (k : list ascii) (v : jval) (m : list (list ascii * jval)) :
  keys_sorted m -> In (k, v) m -> jget k m = Some v.
Proof.
  induction m as [|[k' v'] m IH]; cbn; [intros _ []|]. intros [H1 H2] [H|H].
  - injection H as -> ->. rewrite bytes_compare_refl. reflexivity.
  - rewrite List.Forall_forall in H1. pose proof (H1 (k, v) H) as Hk. cbn in Hk.
    rewrite bytes_compare_antisym, Hk. cbn. exact (IH H2 H).
Qed.

Lemma jmap_set_same (k : list ascii) (w : jval) (m : list (list ascii * jval)) :
  keys_sorted m -> jget k m = Some w -> jset k w m = m.
Proof.
  induction m as [|[k' v'] m IH]; cbn; [discriminate|]. intros [H1 H2].
  destruct (bytes_compare k k') eqn:E; intros H.
  - apply bytes_compare_eq in E as ->. injection H as ->. reflexivity.
  - rewrite jmap_get_lt in H; [discriminate|].
    eapply List.Forall_impl; [|exact H1]. intros e He. exact (bytes_compare_trans _ _ _ E He).
  - rewrite IH by assumption. reflexivity.
Qed.

Lemma jloop_sorted (src dst : list (list ascii * jval)) :
  keys_sorted dst -> keys_sorted (jloop dst src).
Proof.
  revert dst. induction src as [|[k v] src IH]; intros dst Hd; cbn [jmerge_loop]; [exact Hd|].
  apply IH. apply jmap_set_sorted. exact Hd.
Qed.

(** Lookup in a merged map, key by key. *)
Lemma jmergeMap_lookup (dst src : list (list ascii * jval)) (k : list ascii) :
  keys_sorted src ->
  jget k (jloop dst src) =
  match jget k src with
  | None => jget k dst
  | Some sv => Some (jmerge (jget k dst) sv)
  end.
Proof.
  revert dst. induction src as [|[k' sv] src IH]; intros dst Hs; [reflexivity|].
  destruct Hs as [H1 H2]. cbn [jmerge_loop]. rewrite IH by exact H2. cbn [jmap_get].
  rewrite jmap_get_set. destruct (bytes_compare k k') eqn:E.
  - apply bytes_compare_eq in E as ->. rewrite jmap_get_lt by exact H1. reflexivity.
  - destruct (jget k src); reflexivity.
  - destruct (jget k src); reflexivity.
Qed.

(** A merge whose every key already holds its merged value changes nothing. *)
Lemma jloop_fixed (src : list (list ascii * jval)) :
  forall R, keys_sorted R ->
  (forall k v, In (k, v) src -> exists w, jget k R = Some w /\ jmerge (Some w) v = w) ->
  jloop R src = R.
Proof.
  induction src as [|[k v] src IH]; intros R HR Hall; [reflexivity|].
  cbn [jmerge_loop]. destruct (Hall k v (or_introl eq_refl)) as (w & Hw & Hmw).
  rewrite Hw, Hmw, jmap_set_same by assumption.
  apply IH; [exact HR|]. intros k' v' Hin. exact (Hall k' v' (or_intror Hin)).
Qed.

Definition opt_jwf (o : option jval) : Prop :=
  match o with Some v => jwf v | None => True end.

Lemma jget_jwf (k : list ascii) (m : list (list ascii * jval)) :
  jwf (JObj m) -> opt_jwf (jget k m).
Proof.
  intros Hm. apply jwf_obj in Hm as [_ Hm]. destruct (jget k m) as [v|] eqn:E; [|exact I].
  apply jmap_get_In in E. rewrite List.Forall_forall in Hm. exact (proj2 (Hm _ E)).
Qed.

(** Merging the same value a second time changes nothing. *)
Lemma jmerge_value_idem (sv : jval) :
  forall dv, opt_jwf dv -> jwf sv -> jmerge (Some (jmerge dv sv)) sv = jmerge dv sv.
Proof.
  induction sv as [| | | | l _ | src IH] using jval_nested_ind; intros dv Hdv Hsv;
    rewrite ?(jmerge_value_eq dv); try reflexivity.
  rewrite List.Forall_forall in IH.
  assert (Hs := Hsv). apply jwf_obj in Hs as [Hsd Hsvs]. rewrite List.Forall_forall in Hsvs.
  assert (Hfix : forall R, keys_sorted R ->
            (forall k v, In (k, v) src -> exists w, jget k R = Some w /\ jmerge (Some w) v = w) ->
            jmerge (Some (JObj R)) (JObj src) = JObj R).
  { intros R HR Hall. rewrite jmerge_value_eq. f_equal. exact (jloop_fixed src R HR Hall). }
  destruct dv as [[| | | | |dm]|];
    try (apply Hfix; [exact Hsd|];
         intros k v Hin; exists v; split; [exact (In_jmap_get _ _ _ Hsd Hin)|];
         pose proof (IH (k, v) Hin None I (proj2 (Hsvs _ Hin))) as H; cbn [snd] in H;
         rewrite (jmerge_value_eq None v) in H; destruct v; exact H).
  cbn [opt_jwf] in Hdv. assert (Hdm := Hdv). apply jwf_obj in Hdm as [Hdms _].
  apply Hfix; [apply jloop_sorted; exact Hdms|]. intros k v Hin.
  rewrite jmergeMap_lookup, (In_jmap_get _ _ _ Hsd Hin) by exact Hsd.
  eexists; split; [reflexivity|].
  apply (IH (k, v) Hin); [exact (jget_jwf k dm Hdv)|exact (proj2 (Hsvs _ Hin))].
Qed.

Lemma jmergeMap_idem (dst src : list (list ascii * jval)) :
  jwf (JObj dst) -> jwf (JObj src) ->
  jmergeMap float64 (jmergeMap float64 dst src) src = jmergeMap float64 dst src.
Proof.
  intros Hd Hs. pose proof (jmerge_value_idem (JObj src) (Some (JObj dst)) Hd Hs) as H.
  rewrite !jmerge_value_eq in H. injection H as H. exact H.
Qed.

(** Merging keeps values well formed and within the nesting limit. *)
Definition opt_okv (d : Z) (o : option jval) : Prop :=
  match o with Some v => okv float64 d v | None => True end.

Lemma okv_obj_inv (d : Z) (m : list (list ascii * jval)) :
  okv float64 d (JObj m) ->
  d + 1 <= maxNestingDepth /\ keys_sorted m /\ Forall (oke float64 (d + 1)) m.
Proof.
  intros [Hwf Hd]. apply jwf_obj in Hwf as [Hs Hm].
  assert (Hd1 : (1 <= jdepth (JObj m))%nat) by (cbn [jdepth]; lia).
  split; [lia|]. split; [exact Hs|].
  rewrite List.Forall_forall in Hm |- *. intros e He. destruct (Hm e He) as [Hk Hw].
  split; [exact Hk|]. split; [exact Hw|].
  pose proof (jdepth_obj_child float64 m e He). lia.
Qed.

Lemma jmerge_value_okv (sv : jval) :
  forall d dv, opt_okv d dv -> okv float64 d sv -> okv float64 d (jmerge dv sv).
Proof.
  induction sv as [| | | | l _ | src IH] using jval_nested_ind; intros d dv Hdv Hsv;
    rewrite jmerge_value_eq; try exact Hsv.
  destruct dv as [[| | | | |dm]|]; try exact Hsv.
  cbn [opt_okv] in Hdv.
  destruct (okv_obj_inv d dm Hdv) as (Hd1 & Hdms & Hdmf).
  destruct (okv_obj_inv d src Hsv) as (_ & _ & Hsf).
  apply okv_obj; [exact Hd1| |].
  - apply jloop_sorted. exact Hdms.
  - clear Hdv Hsv. revert dm Hdms Hdmf.
    induction src as [|[k v] src IHs]; intros dm Hdms Hdmf; cbn [jmerge_loop]; [exact Hdmf|].
    inversion IH as [|? ? IHv IHr]; subst. inversion Hsf as [|? ? [Hk Hv] Hsr]; subst.
    apply IHs; [exact IHr|exact Hsr|apply jmap_set_sorted; exact Hdms|].
    apply jmap_set_Forall; [exact Hdmf|]. split; [exact Hk|]. apply IHv; [|exact Hv].
    destruct (jget k dm) as [w|] eqn:E; [|exact I]. cbn [opt_okv].
    apply jmap_get_In in E. rewrite List.Forall_forall in Hdmf. exact (proj2 (Hdmf _ E)).
Qed.

Lemma jmergeMap_okv (dst src : list (list ascii * jval)) :
  okv float64 0 (JObj dst) -> okv float64 0 (JObj src) ->
  okv float64 0 (JObj (jmergeMap float64 dst src)).
Proof.
  intros Hd Hs. pose proof (jmerge_value_okv (JObj src) 0 (Some (JObj dst)) Hd Hs) as H.
  rewrite jmerge_value_eq in H. exact H.
Qed.

End MergeJ.

(** A document and overrides for the examples: the nested object under "a"
    is merged, the number under "t" is replaced. *)
Definition x2_doc : string :=
  ("{" ++ dq ++ "a" ++ dq ++ ": {" ++ dq ++ "b" ++ dq ++ ": 1}, " ++ dq ++ "t" ++ dq ++ ": 7}")%string.

Definition x2_map : jmap Z :=
  [(list_ascii_of_string "a", JObj [(list_ascii_of_string "b", JNum 1)]);
   (list_ascii_of_string "t", JNum 7)].

Definition x2_overrides_doc : string :=
  ("{" ++ dq ++ "t" ++ dq ++ ": " ++ dq ++ "0x1" ++ dq ++ ", " ++ dq ++ "a" ++ dq ++ ": {" ++
   dq ++ "c" ++ dq ++ ": [2]}}")%string.

Definition x2_overrides : jmap Z :=
  [(list_ascii_of_string "a", JObj [(list_ascii_of_string "c", JArr [JNum 2])]);
   (list_ascii_of_string "t", JStr (list_ascii_of_string "0x1"))].

(* ================================================================== *)
(** * Claims *)

(** ** [mergeMap] *)

(** C2: [mergeMap dst src] merges key by key: a key absent from [src]
    keeps its [dst] value; when both [dst[k]] and [src[k]] are objects they
    are merged recursively; otherwise [src[k]] replaces [dst[k]].  Patching
    {"a": {"b": 0, "c": 2}} with {"a": {"b": 1}} gives
    {"a": {"b": 1, "c": 2}}.  ([src] is a Go map, so its keys are distinct.) *)
Theorem mergeMap_semantics :
  (forall (dst src : gomap) (k : string),
      distinct_keys src = true ->
      map_get k (mergeMap dst src) =
      match map_get k src with
      | None => map_get k dst
      | Some (GMap srcMap) =>
          match map_get k dst with
          | Some (GMap dstMap) => Some (GMap (mergeMap dstMap srcMap))
          | _ => Some (GMap srcMap)
          end
      | Some srcVal => Some srcVal
      end) /\
  mergeMap [("a", GMap [("b", GNum 0); ("c", GNum 2)])] [("a", GMap [("b", GNum 1)])]
  = [("a", GMap [("b", GNum 1); ("c", GNum 2)])].
Proof.
  split; [|reflexivity].
  intros dst src k Hd. rewrite mergeMap_lookup by exact Hd.
  destruct (map_get k src) as [sv|]; [|reflexivity].
  rewrite merge_value_eq. destruct sv; try reflexivity.
  destruct (map_get k dst) as [[]|]; reflexivity.
Qed.

Lemma mergeMap_semantics_witness :
  distinct_keys [("b", GNum 1)] = true /\
  map_get "b" (mergeMap [("b", GNum 0); ("c", GNum 2)] [("b", GNum 1)]) = Some (GNum 1).
Proof.
  split; [reflexivity|].
  exact (proj1 mergeMap_semantics [("b", GNum 0); ("c", GNum 2)] [("b", GNum 1)] "b" eq_refl).
Defined.

(** ** [overrideJSON] *)

(** C7 (failing input): the original "null" is not a JSON object, yet
    [overrideJSON] returns no error: with empty overrides it returns "null",
    and with any override it panics on the assignment into the nil map. *)
Theorem overrideJSON_null :
  json_parse "null" = Some GNull /\
  overrideJSON "null" [] = Ok "null" /\
  overrideJSON "null" [("timestamp", GStr "0x1")] = Panic "assignment to entry in nil map".
Proof. repeat split; vm_compute; reflexivity. Qed.

(** C9 (corrected): [overrideJSON doc {}], with [json.Unmarshal] and
    [json.Marshal] as [encoding/json] runs them ([Unmarshal_map],
    [Marshal_value]) and for any float64 codec whose [FormatFloat] writes an
    RFC 8259 number that [ParseFloat] reads back to the same value: for every
    document that [json.Unmarshal] decodes into a map [m] without error,
    [overrideJSON(doc, {})] returns without error a document that
    [json.Unmarshal] decodes to the same map [m]. *)
Theorem overrideJSON_empty_roundtrip (float64 : Type) (ParseFloat : string -> option float64)
    (FormatFloat : float64 -> string)
    (FormatFloat_number : forall x, json_number_literal (list_ascii_of_string (FormatFloat x)) = true)
    (ParseFloat_FormatFloat : forall x, ParseFloat (FormatFloat x) = Some x)
    (doc : string) (m : jmap float64) :
  Unmarshal_map float64 ParseFloat doc = Ok (Some m) ->
  exists out, overrideJSON_go float64 ParseFloat FormatFloat doc [] = Ok out /\
              Unmarshal_map float64 ParseFloat out = Ok (Some m).
Proof.
  intros H. pose proof (Unmarshal_map_okv float64 ParseFloat doc m H) as Hok.
  exists (string_of_list_ascii (Marshal_value float64 FormatFloat (JObj m))). split.
  - unfold overrideJSON_go. rewrite H. reflexivity.
  - exact (Unmarshal_Marshal_obj float64 ParseFloat FormatFloat FormatFloat_number
             ParseFloat_FormatFloat m Hok).
Qed.

Lemma overrideJSON_empty_roundtrip_witness :
  Unmarshal_map Z ParseFloat_Z c9_doc = Ok (Some c9_map) /\
  exists out, overrideJSON_go Z ParseFloat_Z FormatFloat_Z c9_doc [] = Ok out /\
              Unmarshal_map Z ParseFloat_Z out = Ok (Some c9_map).
Proof.
  split; [vm_compute; reflexivity|].
  apply (overrideJSON_empty_roundtrip Z ParseFloat_Z FormatFloat_Z FormatFloat_Z_number
           ParseFloat_FormatFloat_Z).
  vm_compute. reflexivity.
Defined.

(** C9 (counterexample): a JSON text that RFC 8259 accepts, an object
    holding an array nested 10000 deep, for which [overrideJSON(doc, {})]
    returns an error: the scanner of [encoding/json] stops at nesting depth
    10000 ([maxNestingDepth]), before any number is decoded. *)
Lemma overrideJSON_deep_counterexample :
  rfc8259_object_text deep_doc /\
  overrideJSON_go Z ParseFloat_Z FormatFloat_Z deep_doc [] =
  Err "failed to unmarshal original JSON: invalid character '[' exceeded max depth".
Proof.
  split.
  - split; [apply valid_utf8_ascii; vm_compute; reflexivity|].
    vm_compute. split; reflexivity.
  - vm_compute. reflexivity.
Qed.

(** ** [output.WriteFile] and [output.Exists] *)

(** C8: for a plain value (none of the byte, string, SSZ, encoder or function
    cases), [WriteFile] dispatches on the extension of the joined path: ".json"
    writes [json.MarshalIndent(v, "", "\t")] and succeeds, ".yaml" writes
    [yaml.Marshal(v)] (or returns its error), any other extension returns
    "unsupported file extension" and writes nothing.  A mapping written to
    "foo.txt" fails, the same mapping written to "foo.json" succeeds and its
    file parses back to the mapping. *)
Theorem WriteFile_value_dispatch
    (yaml_Marshal : gval -> go_result string) (o : output) (dst0 : string) (v : gval)
    (fs : fs_log) :
  (filepath_Ext (filepath_Join [o.(dst); dst0]) = ".json" ->
   WriteFile yaml_Marshal o dst0 (AValue v) fs
   = (Ok tt, fs ++ [(filepath_Join [o.(dst); dst0], json_MarshalIndent v)])) /\
  (filepath_Ext (filepath_Join [o.(dst); dst0]) = ".yaml" ->
   WriteFile yaml_Marshal o dst0 (AValue v) fs
   = match yaml_Marshal v with
     | Ok y => (Ok tt, fs ++ [(filepath_Join [o.(dst); dst0], y)])
     | Err e => (Err e, fs)
     | Panic p => (Panic p, fs)
     end) /\
  (filepath_Ext (filepath_Join [o.(dst); dst0]) <> ".json" ->
   filepath_Ext (filepath_Join [o.(dst); dst0]) <> ".yaml" ->
   WriteFile yaml_Marshal o dst0 (AValue v) fs
   = (Err ("unsupported file extension: " ++ filepath_Ext (filepath_Join [o.(dst); dst0])), fs)) /\
  WriteFile yaml_Marshal {| dst := "out" |} "foo.txt" (AValue (GMap [("a", GNum 1)])) fs
  = (Err "unsupported file extension: .txt", fs) /\
  (exists contents,
      WriteFile yaml_Marshal {| dst := "out" |} "foo.json" (AValue (GMap [("a", GNum 1)])) fs
      = (Ok tt, fs ++ [("out/foo.json", contents)]) /\
      json_parse contents = Some (GMap [("a", GNum 1)])).
Proof.
  unfold WriteFile. repeat split.
  - intros H. rewrite H. reflexivity.
  - intros H. rewrite H. cbn. destruct (yaml_Marshal v); reflexivity.
  - intros H1 H2.
    rewrite (proj2 (String.eqb_neq _ _) H1), (proj2 (String.eqb_neq _ _) H2). reflexivity.
  - eexists. split; [reflexivity|]. vm_compute. reflexivity.
Qed.

Lemma WriteFile_value_dispatch_witness :
  filepath_Ext (filepath_Join ["out"; "foo.json"]) = ".json" /\
  WriteFile (fun _ => Err "yaml") {| dst := "out" |} "foo.json" (AValue GNull) []
  = (Ok tt, [("out/foo.json", json_MarshalIndent GNull)]).
Proof.
  split; [vm_compute; reflexivity|].
  apply (proj1 (WriteFile_value_dispatch (fun _ => Err "yaml") {| dst := "out" |} "foo.json" GNull [])).
  vm_compute. reflexivity.
Defined.

(** C10: [Exists] stats the root directory [o.dst] and ignores its argument:
    [Exists p = Exists ""] for every [p], so with a root "out" that exists and
    no file "out/missing.txt", [Exists "missing.txt"] is still true. *)
Theorem Exists_ignores_path :
  (forall (stat : string -> bool) (o : output) (p : string),
      Exists stat o p = Exists stat o "" /\ Exists stat o p = stat (filepath_Join [o.(dst)])) /\
  (let stat := fun s => String.eqb s "out" in
   Exists stat {| dst := "out" |} "missing.txt" = true /\
   stat (filepath_Join ["out"; "missing.txt"]) = false).
Proof. split; [intros; split; reflexivity|]. vm_compute. split; reflexivity. Qed.

(** ** [lighthouseKeystore.Encode] *)

(** C5 (counterexample): the keystore document has no top-level "id" field;
    the random identifier is stored under "uuid".  For one key with public key
    bytes "k", the run writes out/validators/0x6b/voting-keystore.json and
    out/secrets/0x6b, and the first file's document has "uuid" but no "id". *)
Theorem keystore_no_id_field :
  fst keystore_example_run = Ok tt /\
  map fst (snd keystore_example_run)
  = ["out/validators/0x6b/voting-keystore.json"; "out/secrets/0x6b"] /\
  top_field (nth 0 (map snd (snd keystore_example_run)) "") "id" = None /\
  top_field (nth 0 (map snd (snd keystore_example_run)) "") "uuid" = Some (GStr "u").
Proof. vm_compute. repeat split; reflexivity. Qed.

(** C5 (amended): when [Encode] succeeds, it has written, for each key in
    order, exactly two files: validators/0x<pubkey>/voting-keystore.json,
    holding the indented JSON document with top-level fields crypto (the
    encrypted secret), uuid (the generated identifier), pubkey (the hex public
    key without 0x), version 4 and description "", and secrets/0x<pubkey>,
    holding the password "secret".  (The two files of a key are written in
    the order of the map literal here; Go's map iteration order is
    unspecified.) *)
Theorem lighthouseKeystore_Encode_files
    (yaml_Marshal : gval -> go_result string) (SecretKey : Type)
    (key_Marshal pubkey_Marshal : SecretKey -> string)
    (Encrypt : nat -> string -> string -> go_result gomap) (GenerateUUID : nat -> string)
    (privKeys : list SecretKey) (o : output) (fs fs' : fs_log) :
  lighthouseKeystore_Encode yaml_Marshal SecretKey key_Marshal pubkey_Marshal Encrypt
    GenerateUUID privKeys o fs = (Ok tt, fs') ->
  fs' = fs ++ concat (imap (keystore_files SecretKey key_Marshal pubkey_Marshal Encrypt
                                            GenerateUUID o) privKeys) /\
  (forall i key, privKeys !! i = Some key ->
     exists cryptoFields, Encrypt i (key_Marshal key) secret = Ok cryptoFields /\
     keystore_files SecretKey key_Marshal pubkey_Marshal Encrypt GenerateUUID o i key
     = [(filepath_Join [o.(dst); ("validators/0x" ++ hex_EncodeToString (pubkey_Marshal key)
                                   ++ "/voting-keystore.json")%string],
         json_MarshalIndent (GMap (keystore_document cryptoFields (GenerateUUID i)
                                     (hex_EncodeToString (pubkey_Marshal key)))));
        (filepath_Join [o.(dst); ("secrets/0x" ++ hex_EncodeToString (pubkey_Marshal key))%string],
         "secret")]).
Proof.
  intros H. split.
  - rewrite (encode_keys_files yaml_Marshal SecretKey key_Marshal pubkey_Marshal Encrypt GenerateUUID o privKeys 0 fs fs' H).
    reflexivity.
  - intros i key Hi.
    destruct (encode_keys_encrypt yaml_Marshal SecretKey key_Marshal pubkey_Marshal Encrypt GenerateUUID o privKeys 0 fs fs' H i key Hi)
      as [cf Hcf].
    cbn [Nat.add] in Hcf. exists cf. split; [exact Hcf|].
    unfold keystore_files. rewrite Hcf. reflexivity.
Qed.

Lemma lighthouseKeystore_Encode_files_witness :
  lighthouseKeystore_Encode (fun _ => Err "yaml") string (fun k => k) (fun k => k)
    (fun _ _ _ => Ok [("cipher", GStr "c")]) (fun _ => "u") ["k"] {| dst := "out" |} []
  = (Ok tt, snd keystore_example_run) /\
  snd keystore_example_run
  = ([] : fs_log) ++ concat (imap (keystore_files string (fun k => k) (fun k => k)
                          (fun _ _ _ => Ok [("cipher", GStr "c")]) (fun _ => "u")
                          {| dst := "out" |}) ["k"]).
Proof.
  split; [vm_compute; reflexivity|].
  exact (proj1 (lighthouseKeystore_Encode_files (fun _ => Err "yaml") string (fun k => k)
                  (fun k => k) (fun _ _ _ => Ok [("cipher", GStr "c")]) (fun _ => "u")
                  ["k"] {| dst := "out" |} [] (snd keystore_example_run)
                  ltac:(vm_compute; reflexivity))).
Defined.

(** ** [ArtifactsBuilder.Build]: the genesis delay *)

(** C4: when [Build] reaches the genesis-time computation, the delay it
    uses is [MinimumGenesisDelay] if the configured delay [d] is below it and
    [d] otherwise; the genesis time is computed from that delay, and is the
    current second plus it when the delay fits a [time.Duration]. *)
Theorem Build_effective_delay (env : BuildEnv) (b b' : ArtifactsBuilder) (out : output)
    (genesisTime : Z) :
  Build_prelude env b = (b', Ok (out, genesisTime)) ->
  (b.(genesisDelay) < MinimumGenesisDelay -> b'.(genesisDelay) = MinimumGenesisDelay) /\
  (MinimumGenesisDelay <= b.(genesisDelay) -> b'.(genesisDelay) = b.(genesisDelay)) /\
  genesisTime = genesis_time env b'.(genesisDelay) /\
  (b'.(genesisDelay) <= 9223372036 -> 0 <= env.(env_now_nsec) < 1000000000 ->
   genesisTime = wrap_uint64 (env.(env_now_sec) + b'.(genesisDelay))).
Proof.
  intros H. destruct (Build_prelude_ok env b b' out genesisTime H) as [Hd Ht].
  unfold MinimumGenesisDelay in *.
  assert (H10 : 10 <= genesisDelay b').
  { rewrite Hd. destruct (Z.ltb_spec (genesisDelay b) 10); lia. }
  repeat split.
  - intros Hlt. rewrite Hd. destruct (Z.ltb_spec (genesisDelay b) 10); lia.
  - intros Hle. rewrite Hd. destruct (Z.ltb_spec (genesisDelay b) 10); lia.
  - exact Ht.
  - intros Hmax Hn. rewrite Ht. apply genesis_time_no_overflow; [lia|exact Hn].
Qed.

Lemma Build_effective_delay_witness :
  let env := {| env_GetHomeDir := Ok "/home/u"; env_stat := fun _ => false;
                env_RemoveAll := fun _ => Ok tt; env_loadConfig := fun _ => Ok tt;
                env_now_sec := 1700000000; env_now_nsec := 0 |} in
  Build_prelude env (GenesisDelay NewArtifactsBuilder 5)
  = (GenesisDelay (OutputDir (GenesisDelay NewArtifactsBuilder 5) "/home/u/devnet") 10,
     Ok ({| dst := "/home/u/devnet" |}, 1700000010)) /\
  (5 < MinimumGenesisDelay ->
   genesisDelay (GenesisDelay (OutputDir (GenesisDelay NewArtifactsBuilder 5) "/home/u/devnet") 10)
   = MinimumGenesisDelay).
Proof.
  intros env. split; [vm_compute; reflexivity|].
  exact (proj1 (Build_effective_delay env (GenesisDelay NewArtifactsBuilder 5) _
                  {| dst := "/home/u/devnet" |} 1700000010 ltac:(vm_compute; reflexivity))).
Defined.

(** ** [ArtifactsBuilder]: the delay invariant *)

(** C6 (counterexample): the [GenesisDelay] setter stores its argument
    unchecked, so [NewArtifactsBuilder().GenesisDelay(5)] holds a delay of 5,
    below [MinimumGenesisDelay]; the setter does not preserve the invariant. *)
Theorem GenesisDelay_breaks_invariant :
  genesisDelay (GenesisDelay NewArtifactsBuilder 5) = 5 /\
  genesisDelay (GenesisDelay NewArtifactsBuilder 5) < MinimumGenesisDelay /\
  ~ (forall (b : ArtifactsBuilder) (d : Z),
       MinimumGenesisDelay <= genesisDelay b ->
       MinimumGenesisDelay <= genesisDelay (GenesisDelay b d)).
Proof.
  split; [reflexivity|]. split; [reflexivity|].
  intros H. specialize (H NewArtifactsBuilder 5 ltac:(reflexivity)).
  vm_compute in H. apply H. reflexivity.
Qed.

(** C6 (amended): [genesisDelay >= MinimumGenesisDelay] holds for
    [NewArtifactsBuilder()] and is preserved by [OutputDir] and
    [ApplyLatestL1Fork]; [GenesisDelay(d)] stores [d] unchecked, so the
    invariant holds after it exactly when [d >= MinimumGenesisDelay]; [Build]
    preserves it, and re-establishes it (raising a smaller delay to
    [MinimumGenesisDelay]) whenever it gets past the output-directory steps,
    in particular before computing the genesis time.  ([Build] assigns no
    builder field after line 116.) *)
Theorem ArtifactsBuilder_delay_invariant :
  MinimumGenesisDelay <= genesisDelay NewArtifactsBuilder /\
  (forall (b : ArtifactsBuilder) (outputDir0 : string),
      genesisDelay (OutputDir b outputDir0) = genesisDelay b) /\
  (forall (b : ArtifactsBuilder) (applyLatestL1Fork0 : bool),
      genesisDelay (ApplyLatestL1Fork b applyLatestL1Fork0) = genesisDelay b) /\
  (forall (b : ArtifactsBuilder) (d : Z),
      MinimumGenesisDelay <= genesisDelay (GenesisDelay b d) <-> MinimumGenesisDelay <= d) /\
  (forall (env : BuildEnv) (b : ArtifactsBuilder),
      MinimumGenesisDelay <= genesisDelay b ->
      MinimumGenesisDelay <= genesisDelay (fst (Build_prelude env b))) /\
  (forall (env : BuildEnv) (b b' : ArtifactsBuilder) (out : output) (genesisTime : Z),
      Build_prelude env b = (b', Ok (out, genesisTime)) ->
      MinimumGenesisDelay <= genesisDelay b').
Proof.
  split; [unfold NewArtifactsBuilder; cbn; lia|].
  split; [reflexivity|]. split; [reflexivity|]. split; [reflexivity|].
  split.
  - intros env b Hb. destruct (Build_prelude_delay env b) as [->|[-> _]]; lia.
  - intros env b b' out gt H. destruct (Build_prelude_ok env b b' out gt H) as [-> _].
    destruct (Z.ltb_spec (genesisDelay b) MinimumGenesisDelay); lia.
Qed.

Lemma ArtifactsBuilder_delay_invariant_witness :
  let env := {| env_GetHomeDir := Ok "/home/u"; env_stat := fun _ => false;
                env_RemoveAll := fun _ => Ok tt; env_loadConfig := fun _ => Ok tt;
                env_now_sec := 1700000000; env_now_nsec := 0 |} in
  Build_prelude env (GenesisDelay NewArtifactsBuilder 5)
  = (GenesisDelay (OutputDir (GenesisDelay NewArtifactsBuilder 5) "/home/u/devnet") 10,
     Ok ({| dst := "/home/u/devnet" |}, 1700000010)) /\
  MinimumGenesisDelay <=
  genesisDelay (GenesisDelay (OutputDir (GenesisDelay NewArtifactsBuilder 5) "/home/u/devnet") 10).
Proof.
  intros env. split; [vm_compute; reflexivity|].
  exact (proj2 (proj2 (proj2 (proj2 (proj2 ArtifactsBuilder_delay_invariant))))
           env (GenesisDelay NewArtifactsBuilder 5) _ {| dst := "/home/u/devnet" |} 1700000010
           ltac:(vm_compute; reflexivity)).
Defined.

(** ** [Build]: the execution-genesis allocation *)

(** C3: after the prefunded accounts are inserted and the decoded L1 state
    dump is copied in, every address of the dump holds the dump's entry
    (whether or not it is prefunded, so never the prefunded value and never a
    sum), and every prefunded address absent from the dump holds the fixed
    prefunded account: balance 0x10000000000000000000000 and nonce 1. *)
Theorem Build_alloc_dump_wins (keyAddress : string -> go_result Z)
    (alloc0 dump final : GenesisAlloc) :
  Build_alloc keyAddress alloc0 (Ok dump) = Ok final ->
  (forall addr account, dump !! addr = Some account -> final !! addr = Some account) /\
  (forall privStr addr, In privStr prefundedAccounts -> keyAddress privStr = Ok addr ->
     dump !! addr = None ->
     final !! addr = Some prefundedAccount /\
     Balance prefundedAccount = 16 ^ 22 /\ Nonce prefundedAccount = 1).
Proof.
  unfold Build_alloc. destruct (prefund keyAddress prefundedAccounts alloc0) as [alloc1| |] eqn:Hp;
    try discriminate.
  intros H. injection H as <-. split.
  - intros addr account Hd. rewrite apply_dump_lookup, Hd. reflexivity.
  - intros privStr addr Hin Hk Hd. rewrite apply_dump_lookup, Hd.
    split; [exact (prefund_lookup keyAddress _ _ _ _ _ Hp Hin Hk)|].
    split; reflexivity.
Qed.

Lemma Build_alloc_dump_wins_witness :
  let keyAddress := fun privStr : string => Ok (Z.of_nat (String.length privStr) +
                      Z.of_nat (nat_of_ascii (nth 2 (list_ascii_of_string privStr) "0"%char))) in
  let dumpAccount := {| Code := ""; Storage := ∅; Balance := 7; Nonce := 0; PrivateKey := "" |} in
  exists final,
    Build_alloc keyAddress ∅ (Ok {[163 := dumpAccount]}) = Ok final /\
    final !! 163 = Some dumpAccount /\
    final !! 119 = Some prefundedAccount /\
    Balance prefundedAccount = 16 ^ 22 /\ Nonce prefundedAccount = 1.
Proof.
  intros keyAddress dumpAccount. eexists. split; [vm_compute; reflexivity|].
  destruct (Build_alloc_dump_wins keyAddress ∅ {[163 := dumpAccount]} _
              ltac:(vm_compute; reflexivity)) as [H1 H2].
  split; [apply H1; vm_compute; reflexivity|].
  apply (H2 "0x59c6995e998f97a5a0044966f0945389dc9e86dae88c7a8412f4603b6b78690d");
    [cbn; tauto|vm_compute; reflexivity|vm_compute; reflexivity].
Defined.

(** ** [Build]: the L2 genesis hash in rollup.json *)

(** C1: assume that decoding a patched L2 genesis document reads its
    "timestamp" field as [hexutil.Uint64], and that the block hash is
    timestamp-sensitive (genesis values with different timestamps have
    different hashes).  When the L2 step of [Build] succeeds, it writes
    l2-genesis.json, the template patched with timestamp genesisTime + 2
    (in [uint64]), and rollup.json, whose genesis.l2_time is that timestamp and
    whose genesis.l2.hash is the hash recomputed from the patched document;
    this hash differs from the hash of the unpatched template whenever the
    template's timestamp differs. *)
Theorem Build_l2_rollup_hash (yaml_Marshal : gval -> go_result string) (Genesis : Type)
    (genesis_Unmarshal : string -> go_result Genesis) (genesis_timestamp : Genesis -> Z)
    (ToBlock_Hash : Genesis -> string) (opGenesis opRollupConfig l1BlockHash : string)
    (out : output) (genesisTime : Z) (fs fs' : fs_log) :
  (forall m g t, wf_value (GMap m) = true -> 0 <= t ->
     genesis_Unmarshal (json_Marshal (GMap m)) = Ok g ->
     map_get "timestamp" m = Some (GStr (hexutil_Uint64 t)) -> genesis_timestamp g = t) ->
  (forall g1 g2, genesis_timestamp g1 <> genesis_timestamp g2 -> ToBlock_Hash g1 <> ToBlock_Hash g2) ->
  Build_l2 yaml_Marshal Genesis genesis_Unmarshal ToBlock_Hash opGenesis opRollupConfig
    l1BlockHash out genesisTime fs = (Ok tt, fs') ->
  exists newOpGenesis newOpRollup opGenesisObj rollup,
    fs' = fs ++ [(filepath_Join [out.(dst); "l2-genesis.json"], newOpGenesis);
                 (filepath_Join [out.(dst); "rollup.json"], newOpRollup)] /\
    genesis_Unmarshal newOpGenesis = Ok opGenesisObj /\
    genesis_timestamp opGenesisObj = wrap_uint64 (genesisTime + 2) /\
    json_parse newOpRollup = Some (GMap rollup) /\
    path_get ["genesis"; "l2_time"] (GMap rollup) = Some (GNum (wrap_uint64 (genesisTime + 2))) /\
    path_get ["genesis"; "l2"; "hash"] (GMap rollup) = Some (GStr (ToBlock_Hash opGenesisObj)) /\
    (forall template, genesis_Unmarshal opGenesis = Ok template ->
       genesis_timestamp template <> wrap_uint64 (genesisTime + 2) ->
       ToBlock_Hash opGenesisObj <> ToBlock_Hash template).
Proof.
  intros Hts Hhash H.
  unfold Build_l2, mbind, M_bind, lift in H.
  destruct (overrideJSON opGenesis _) as [newG|e|p] eqn:E1; cbn in H; try discriminate.
  destruct (genesis_Unmarshal newG) as [g|e|p] eqn:Eg; cbn in H; try discriminate.
  destruct (overrideJSON opRollupConfig _) as [newR|e|p] eqn:E2; cbn in H; try discriminate.
  injection H as <-.
  apply overrideJSON_ok_object in E1 as [m0 [Hm0 ->]]; [|discriminate].
  apply overrideJSON_ok_object in E2 as [r0 [Hr0 ->]]; [|discriminate].
  assert (Hwf0 := json_parse_wf _ _ Hm0). assert (Hwr0 := json_parse_wf _ _ Hr0).
  assert (Hts' : genesis_timestamp g = wrap_uint64 (genesisTime + 2)).
  { apply (Hts (mergeMap m0 [("timestamp", GStr (hexutil_Uint64 (wrap_uint64 (genesisTime + 2))))]) g);
      [apply mergeMap_wf; [exact Hwf0|reflexivity]
                    |unfold wrap_uint64; apply Z.mod_pos_bound; lia
                    |exact Eg|].
    match goal with
    | |- map_get _ (mergeMap _ ?src) = Some ?v =>
        pose proof (path_get_mergeMap ["timestamp"] m0 src v eq_refl eq_refl
                      ltac:(discriminate)) as P
    end.
    cbn [path_get] in P. destruct (map_get "timestamp" _); congruence. }
  eexists _, _, g, _. split; [rewrite <- app_assoc; reflexivity|].
  split; [exact Eg|]. split; [exact Hts'|].
  split; [apply json_parse_Marshal, mergeMap_wf; [exact Hwr0|reflexivity]|].
  split; [apply path_get_mergeMap; [reflexivity|reflexivity|discriminate]|].
  split; [apply path_get_mergeMap; [reflexivity|reflexivity|discriminate]|].
  intros template Ht Hne. apply Hhash. rewrite Hts'. intros Heq. apply Hne. symmetry. exact Heq.
Qed.

Lemma Build_l2_rollup_hash_witness :
  fst (Build_l2 (fun _ => Err "yaml") gomap example_genesis_Unmarshal example_ToBlock_Hash
         example_opGenesis example_opRollupConfig "0xl1" {| dst := "out" |} 1700000010 [])
  = Ok tt /\
  exists newOpGenesis newOpRollup opGenesisObj rollup,
    snd (Build_l2 (fun _ => Err "yaml") gomap example_genesis_Unmarshal example_ToBlock_Hash
           example_opGenesis example_opRollupConfig "0xl1" {| dst := "out" |} 1700000010 [])
    = [] ++ [(filepath_Join ["out"; "l2-genesis.json"], newOpGenesis);
             (filepath_Join ["out"; "rollup.json"], newOpRollup)] /\
    example_genesis_Unmarshal newOpGenesis = Ok opGenesisObj /\
    example_genesis_timestamp opGenesisObj = wrap_uint64 (1700000010 + 2) /\
    json_parse newOpRollup = Some (GMap rollup) /\
    path_get ["genesis"; "l2_time"] (GMap rollup) = Some (GNum (wrap_uint64 (1700000010 + 2))) /\
    path_get ["genesis"; "l2"; "hash"] (GMap rollup)
    = Some (GStr (example_ToBlock_Hash opGenesisObj)) /\
    (forall template, example_genesis_Unmarshal example_opGenesis = Ok template ->
       example_genesis_timestamp template <> wrap_uint64 (1700000010 + 2) ->
       example_ToBlock_Hash opGenesisObj <> example_ToBlock_Hash template).
Proof.
  split; [vm_compute; reflexivity|].
  exact (Build_l2_rollup_hash (fun _ => Err "yaml") gomap example_genesis_Unmarshal
           example_genesis_timestamp example_ToBlock_Hash example_opGenesis example_opRollupConfig
           "0xl1" {| dst := "out" |} 1700000010 []
           (snd (Build_l2 (fun _ => Err "yaml") gomap example_genesis_Unmarshal
                   example_ToBlock_Hash example_opGenesis example_opRollupConfig "0xl1"
                   {| dst := "out" |} 1700000010 []))
           example_genesis_timestamp_read example_ToBlock_Hash_sensitive
           ltac:(vm_compute; reflexivity)).
Defined.

(* ================================================================== *)
(** * Further properties of the code *)

(** ** [mergeMap] and [overrideJSON] *)

(** X1: merging the same overrides a second time changes nothing: for maps
    as Go builds them (distinct keys, at every level), [mergeMap] is
    idempotent. *)
Theorem mergeMap_idempotent (dst src : gomap) :
  wf_value (GMap dst) = true -> wf_value (GMap src) = true ->
  mergeMap (mergeMap dst src) src = mergeMap dst src.
Proof.
  exact (merge_value_idem_map dst src).
Qed.

Lemma mergeMap_idempotent_witness :
  wf_value (GMap [("a", GMap [("b", GNum 1)]); ("x", GNull)]) = true /\
  wf_value (GMap [("a", GMap [("c", GNum 2)]); ("x", GArr [])]) = true /\
  mergeMap (mergeMap [("a", GMap [("b", GNum 1)]); ("x", GNull)]
                     [("a", GMap [("c", GNum 2)]); ("x", GArr [])])
           [("a", GMap [("c", GNum 2)]); ("x", GArr [])]
  = mergeMap [("a", GMap [("b", GNum 1)]); ("x", GNull)]
             [("a", GMap [("c", GNum 2)]); ("x", GArr [])].
Proof.
  split; [reflexivity|]. split; [reflexivity|].
  apply mergeMap_idempotent; reflexivity.
Defined.

(** X2: with [json.Unmarshal] and [json.Marshal] as [encoding/json] runs
    them (any float64 codec whose [FormatFloat] writes an RFC 8259 number
    that [ParseFloat] reads back): when [json.Unmarshal] decodes the input
    into a map [m] without error, and the overrides are a map that
    [json.Unmarshal] decodes from some document, [overrideJSON] succeeds and
    its output decodes back to [mergeMap(m, overrides)]. *)
Theorem overrideJSON_output_parses (float64 : Type) (ParseFloat : string -> option float64)
    (FormatFloat : float64 -> string)
    (FormatFloat_number : forall x, json_number_literal (list_ascii_of_string (FormatFloat x)) = true)
    (ParseFloat_FormatFloat : forall x, ParseFloat (FormatFloat x) = Some x)
    (doc ovdoc : string) (m overrides : jmap float64) :
  Unmarshal_map float64 ParseFloat doc = Ok (Some m) ->
  Unmarshal_map float64 ParseFloat ovdoc = Ok (Some overrides) ->
  exists out, overrideJSON_go float64 ParseFloat FormatFloat doc overrides = Ok out /\
              Unmarshal_map float64 ParseFloat out = Ok (Some (jmergeMap float64 m overrides)).
Proof.
  intros Hd Ho.
  pose proof (jmergeMap_okv float64 m overrides (Unmarshal_map_okv float64 ParseFloat doc m Hd)
                (Unmarshal_map_okv float64 ParseFloat ovdoc overrides Ho)) as Hok.
  exists (string_of_list_ascii (Marshal_value float64 FormatFloat (JObj (jmergeMap float64 m overrides)))).
  split.
  - unfold overrideJSON_go. rewrite Hd. reflexivity.
  - exact (Unmarshal_Marshal_obj float64 ParseFloat FormatFloat FormatFloat_number
             ParseFloat_FormatFloat _ Hok).
Qed.

Lemma overrideJSON_output_parses_witness :
  Unmarshal_map Z ParseFloat_Z x2_doc = Ok (Some x2_map) /\
  Unmarshal_map Z ParseFloat_Z x2_overrides_doc = Ok (Some x2_overrides) /\
  exists out, overrideJSON_go Z ParseFloat_Z FormatFloat_Z x2_doc x2_overrides = Ok out /\
              Unmarshal_map Z ParseFloat_Z out = Ok (Some (jmergeMap Z x2_map x2_overrides)).
Proof.
  split; [vm_compute; reflexivity|]. split; [vm_compute; reflexivity|].
  apply (overrideJSON_output_parses Z ParseFloat_Z FormatFloat_Z FormatFloat_Z_number
           ParseFloat_FormatFloat_Z x2_doc x2_overrides_doc); vm_compute; reflexivity.
Defined.

(** X3: under the same conditions [overrideJSON] is idempotent: applying
    the same overrides to its output returns that output byte for byte. *)
Theorem overrideJSON_idempotent (float64 : Type) (ParseFloat : string -> option float64)
    (FormatFloat : float64 -> string)
    (FormatFloat_number : forall x, json_number_literal (list_ascii_of_string (FormatFloat x)) = true)
    (ParseFloat_FormatFloat : forall x, ParseFloat (FormatFloat x) = Some x)
    (doc ovdoc : string) (m overrides : jmap float64) :
  Unmarshal_map float64 ParseFloat doc = Ok (Some m) ->
  Unmarshal_map float64 ParseFloat ovdoc = Ok (Some overrides) ->
  exists out, overrideJSON_go float64 ParseFloat FormatFloat doc overrides = Ok out /\
              overrideJSON_go float64 ParseFloat FormatFloat out overrides = Ok out.
Proof.
  intros Hd Ho.
  pose proof (Unmarshal_map_okv float64 ParseFloat doc m Hd) as Hm.
  pose proof (Unmarshal_map_okv float64 ParseFloat ovdoc overrides Ho) as Hov.
  pose proof (jmergeMap_okv float64 m overrides Hm Hov) as Hok.
  exists (string_of_list_ascii (Marshal_value float64 FormatFloat (JObj (jmergeMap float64 m overrides)))).
  split.
  - unfold overrideJSON_go. rewrite Hd. reflexivity.
  - unfold overrideJSON_go.
    rewrite (Unmarshal_Marshal_obj float64 ParseFloat FormatFloat FormatFloat_number
               ParseFloat_FormatFloat _ Hok).
    rewrite (jmergeMap_idem float64 m overrides (proj1 Hm) (proj1 Hov)). reflexivity.
Qed.

Lemma overrideJSON_idempotent_witness :
  Unmarshal_map Z ParseFloat_Z x2_doc = Ok (Some x2_map) /\
  Unmarshal_map Z ParseFloat_Z x2_overrides_doc = Ok (Some x2_overrides) /\
  exists out, overrideJSON_go Z ParseFloat_Z FormatFloat_Z x2_doc x2_overrides = Ok out /\
              overrideJSON_go Z ParseFloat_Z FormatFloat_Z out x2_overrides = Ok out.
Proof.
  split; [vm_compute; reflexivity|]. split; [vm_compute; reflexivity|].
  apply (overrideJSON_idempotent Z ParseFloat_Z FormatFloat_Z FormatFloat_Z_number
           ParseFloat_FormatFloat_Z x2_doc x2_overrides_doc x2_map); vm_compute; reflexivity.
Defined.

(** ** [output.Remove] *)

(** X4: [Remove("")], which [Build] calls after [Exists("")] succeeds,
    removes exactly the path that [Exists] checked: [filepath.Join(o.dst, "")]
    is [filepath.Join(o.dst)]. *)
Theorem Remove_root_is_Exists_path (removeAll : string -> go_result unit)
    (stat : string -> bool) (o : output) :
  Remove removeAll o "" = removeAll (filepath_Join [o.(dst)]) /\
  Exists stat o "" = stat (filepath_Join [o.(dst)]).
Proof.
  split; [|reflexivity]. unfold Remove. rewrite filepath_Join_empty_last. reflexivity.
Qed.

(** ** [Build]: the genesis allocation *)

(** X8: the accounts of the testnet genesis allocation that neither a
    pre-funded key nor the Optimism state dump names are left as they were
    (present with the same account, or absent). *)
Theorem Build_alloc_keeps_other_accounts (keyAddress : string -> go_result Z)
    (alloc0 dump final : GenesisAlloc) (addr : Z) :
  Build_alloc keyAddress alloc0 (Ok dump) = Ok final ->
  dump !! addr = None ->
  (forall privStr, In privStr prefundedAccounts -> keyAddress privStr <> Ok addr) ->
  final !! addr = alloc0 !! addr.
Proof.
  unfold Build_alloc. intros H Hd Hno.
  destruct (prefund keyAddress prefundedAccounts alloc0) as [alloc1| |] eqn:E;
    try discriminate.
  injection H as <-. rewrite apply_dump_lookup, Hd.
  exact (prefund_other keyAddress _ _ _ _ E Hno).
Qed.

Lemma Build_alloc_keeps_other_accounts_witness :
  let keyAddress := fun privStr : string => Ok (Z.of_nat (String.length privStr) +
                      Z.of_nat (nat_of_ascii (nth 2 (list_ascii_of_string privStr) "0"%char))) in
  let baseAccount := {| Code := "c"; Storage := ∅; Balance := 3; Nonce := 0; PrivateKey := "" |} in
  let dumpAccount := {| Code := ""; Storage := ∅; Balance := 7; Nonce := 0; PrivateKey := "" |} in
  exists final,
    Build_alloc keyAddress {[5 := baseAccount]} (Ok {[163 := dumpAccount]}) = Ok final /\
    ({[163 := dumpAccount]} : GenesisAlloc) !! 5 = None /\
    (forall privStr, In privStr prefundedAccounts -> keyAddress privStr <> Ok 5) /\
    final !! 5 = Some baseAccount.
Proof.
  intros keyAddress baseAccount dumpAccount. eexists. split; [vm_compute; reflexivity|].
  assert (Hno : forall privStr, In privStr prefundedAccounts -> keyAddress privStr <> Ok 5).
  { intros ps Hin. cbn [prefundedAccounts In] in Hin.
    repeat destruct Hin as [<-|Hin]; try contradiction; vm_compute; discriminate. }
  split; [reflexivity|]. split; [exact Hno|].
  exact (Build_alloc_keeps_other_accounts keyAddress {[5 := baseAccount]} {[163 := dumpAccount]}
           _ 5 ltac:(vm_compute; reflexivity) eq_refl Hno).
Defined.

(** ** [Build]: the L2 genesis and rollup configuration *)

(** X10: the l2-genesis.json that [Build] writes is the genesis template
    (a JSON object) with only its "timestamp" field changed, set to
    [hexutil.Uint64(genesisTime + 2)]; every other field is kept. *)
Theorem Build_l2_genesis_only_timestamp (yaml_Marshal : gval -> go_result string)
    (Genesis : Type) (genesis_Unmarshal : string -> go_result Genesis)
    (ToBlock_Hash : Genesis -> string) (opGenesis opRollupConfig l1BlockHash : string)
    (out : output) (genesisTime : Z) (fs fs' : fs_log) :
  Build_l2 yaml_Marshal Genesis genesis_Unmarshal ToBlock_Hash opGenesis opRollupConfig
    l1BlockHash out genesisTime fs = (Ok tt, fs') ->
  exists template newOpGenesis patched newOpRollup,
    json_parse opGenesis = Some (GMap template) /\
    fs' = fs ++ [(filepath_Join [out.(dst); "l2-genesis.json"], newOpGenesis);
                 (filepath_Join [out.(dst); "rollup.json"], newOpRollup)] /\
    json_parse newOpGenesis = Some (GMap patched) /\
    map_get "timestamp" patched = Some (GStr (hexutil_Uint64 (wrap_uint64 (genesisTime + 2)))) /\
    (forall k, k <> "timestamp" -> map_get k patched = map_get k template).
Proof.
  intros H. destruct (Build_l2_run yaml_Marshal Genesis genesis_Unmarshal ToBlock_Hash opGenesis
                        opRollupConfig l1BlockHash out genesisTime fs fs' _ H)
    as [(_ & newG & newR & g & E1 & _ & _ & Hfs)|[Hr _]]; [|contradiction].
  apply overrideJSON_ok_object in E1 as [m0 [Hm0 ->]]; [|discriminate].
  exists m0, (json_Marshal (GMap (mergeMap m0 (l2_genesis_overrides genesisTime)))),
    (mergeMap m0 (l2_genesis_overrides genesisTime)), newR.
  split; [exact Hm0|]. split; [exact Hfs|].
  split; [apply json_parse_Marshal, mergeMap_wf; [exact (json_parse_wf _ _ Hm0)|reflexivity]|].
  split.
  - rewrite mergeMap_lookup by reflexivity. unfold l2_genesis_overrides. cbn [map_get].
    rewrite String.eqb_refl, merge_value_eq. reflexivity.
  - intros k Hk. apply mergeMap_untouched; [reflexivity|].
    cbn. destruct (String.eqb_spec k "timestamp"); [contradiction|reflexivity].
Qed.

Lemma Build_l2_genesis_only_timestamp_witness :
  fst (Build_l2 (fun _ => Err "yaml") gomap example_genesis_Unmarshal example_ToBlock_Hash
         example_opGenesis example_opRollupConfig "0xl1" {| dst := "out" |} 1700000010 [])
  = Ok tt /\
  exists template newOpGenesis patched newOpRollup,
    json_parse example_opGenesis = Some (GMap template) /\
    snd (Build_l2 (fun _ => Err "yaml") gomap example_genesis_Unmarshal example_ToBlock_Hash
           example_opGenesis example_opRollupConfig "0xl1" {| dst := "out" |} 1700000010 [])
    = [] ++ [(filepath_Join ["out"; "l2-genesis.json"], newOpGenesis);
             (filepath_Join ["out"; "rollup.json"], newOpRollup)] /\
    json_parse newOpGenesis = Some (GMap patched) /\
    map_get "timestamp" patched = Some (GStr (hexutil_Uint64 (wrap_uint64 (1700000010 + 2)))) /\
    (forall k, k <> "timestamp" -> map_get k patched = map_get k template).
Proof.
  split; [vm_compute; reflexivity|].
  exact (Build_l2_genesis_only_timestamp (fun _ => Err "yaml") gomap example_genesis_Unmarshal
           example_ToBlock_Hash example_opGenesis example_opRollupConfig "0xl1"
           {| dst := "out" |} 1700000010 []
           (snd (Build_l2 (fun _ => Err "yaml") gomap example_genesis_Unmarshal
                   example_ToBlock_Hash example_opGenesis example_opRollupConfig "0xl1"
                   {| dst := "out" |} 1700000010 []))
           ltac:(vm_compute; reflexivity)).
Defined.

(** X11: the rollup.json that [Build] writes is the rollup template (a JSON
    object) with genesis.l1 set to the L1 genesis block hash and number 0,
    genesis.l2.number set to 0 and the three chain_op_config fee
    parameters set to 6, 50 and 250; every other top-level field, and every
    field of "genesis" other than l2_time, l1 and l2, is kept. *)
Theorem Build_l2_rollup_fields (yaml_Marshal : gval -> go_result string)
    (Genesis : Type) (genesis_Unmarshal : string -> go_result Genesis)
    (ToBlock_Hash : Genesis -> string) (opGenesis opRollupConfig l1BlockHash : string)
    (out : output) (genesisTime : Z) (fs fs' : fs_log) :
  Build_l2 yaml_Marshal Genesis genesis_Unmarshal ToBlock_Hash opGenesis opRollupConfig
    l1BlockHash out genesisTime fs = (Ok tt, fs') ->
  exists template newOpGenesis newOpRollup rollup,
    json_parse opRollupConfig = Some (GMap template) /\
    fs' = fs ++ [(filepath_Join [out.(dst); "l2-genesis.json"], newOpGenesis);
                 (filepath_Join [out.(dst); "rollup.json"], newOpRollup)] /\
    json_parse newOpRollup = Some (GMap rollup) /\
    path_get ["genesis"; "l1"; "hash"] (GMap rollup) = Some (GStr l1BlockHash) /\
    path_get ["genesis"; "l1"; "number"] (GMap rollup) = Some (GNum 0) /\
    path_get ["genesis"; "l2"; "number"] (GMap rollup) = Some (GNum 0) /\
    path_get ["chain_op_config"; "eip1559Elasticity"] (GMap rollup) = Some (GNum 6) /\
    path_get ["chain_op_config"; "eip1559Denominator"] (GMap rollup) = Some (GNum 50) /\
    path_get ["chain_op_config"; "eip1559DenominatorCanyon"] (GMap rollup) = Some (GNum 250) /\
    (forall k, k <> "genesis" -> k <> "chain_op_config" ->
       map_get k rollup = map_get k template) /\
    (forall k, k <> "l2_time" -> k <> "l1" -> k <> "l2" ->
       path_get ["genesis"; k] (GMap rollup) = path_get ["genesis"; k] (GMap template)).
Proof.
  intros H. destruct (Build_l2_run yaml_Marshal Genesis genesis_Unmarshal ToBlock_Hash opGenesis
                        opRollupConfig l1BlockHash out genesisTime fs fs' _ H)
    as [(_ & newG & newR & g & _ & _ & E2 & Hfs)|[Hr _]]; [|contradiction].
  apply overrideJSON_ok_object in E2 as [r0 [Hr0 ->]]; [|discriminate].
  set (ov := rollup_overrides l1BlockHash genesisTime (ToBlock_Hash g)) in *.
  assert (Hw : wf_value (GMap ov) = true) by reflexivity.
  exists r0, newG, (json_Marshal (GMap (mergeMap r0 ov))), (mergeMap r0 ov).
  split; [exact Hr0|]. split; [exact Hfs|].
  split; [apply json_parse_Marshal, mergeMap_wf; [exact (json_parse_wf _ _ Hr0)|exact Hw]|].
  do 6 (split; [apply path_get_mergeMap; [exact Hw|reflexivity|discriminate]|]).
  split.
  - intros k Hk1 Hk2. apply mergeMap_untouched; [reflexivity|]. cbn.
    destruct (String.eqb_spec k "genesis"); [contradiction|].
    destruct (String.eqb_spec k "chain_op_config"); [contradiction|reflexivity].
  - intros k Hk1 Hk2 Hk3. cbn [path_get]. rewrite mergeMap_lookup by reflexivity.
    cbn [ov rollup_overrides map_get]. rewrite String.eqb_refl, merge_value_eq.
    assert (Hk : map_get k [("l2_time", GNum (wrap_uint64 (genesisTime + 2)));
                            ("l1", GMap [("hash", GStr l1BlockHash); ("number", GNum 0)]);
                            ("l2", GMap [("hash", GStr (ToBlock_Hash g)); ("number", GNum 0)])]
                 = None).
    { cbn. destruct (String.eqb_spec k "l2_time"); [contradiction|].
      destruct (String.eqb_spec k "l1"); [contradiction|].
      destruct (String.eqb_spec k "l2"); [contradiction|reflexivity]. }
    destruct (map_get "genesis" r0) as [[| | | | |gm]|]; cbn [path_get]; rewrite ?Hk;
      try reflexivity.
    rewrite mergeMap_untouched by (reflexivity || exact Hk). reflexivity.
Qed.

Lemma Build_l2_rollup_fields_witness :
  fst (Build_l2 (fun _ => Err "yaml") gomap example_genesis_Unmarshal example_ToBlock_Hash
         example_opGenesis example_opRollupConfig "0xl1" {| dst := "out" |} 1700000010 [])
  = Ok tt /\
  exists template newOpGenesis newOpRollup rollup,
    json_parse example_opRollupConfig = Some (GMap template) /\
    snd (Build_l2 (fun _ => Err "yaml") gomap example_genesis_Unmarshal example_ToBlock_Hash
           example_opGenesis example_opRollupConfig "0xl1" {| dst := "out" |} 1700000010 [])
    = [] ++ [(filepath_Join ["out"; "l2-genesis.json"], newOpGenesis);
             (filepath_Join ["out"; "rollup.json"], newOpRollup)] /\
    json_parse newOpRollup = Some (GMap rollup) /\
    path_get ["genesis"; "l1"; "hash"] (GMap rollup) = Some (GStr "0xl1") /\
    path_get ["genesis"; "l1"; "number"] (GMap rollup) = Some (GNum 0) /\
    path_get ["genesis"; "l2"; "number"] (GMap rollup) = Some (GNum 0) /\
    path_get ["chain_op_config"; "eip1559Elasticity"] (GMap rollup) = Some (GNum 6) /\
    path_get ["chain_op_config"; "eip1559Denominator"] (GMap rollup) = Some (GNum 50) /\
    path_get ["chain_op_config"; "eip1559DenominatorCanyon"] (GMap rollup) = Some (GNum 250) /\
    (forall k, k <> "genesis" -> k <> "chain_op_config" ->
       map_get k rollup = map_get k template) /\
    (forall k, k <> "l2_time" -> k <> "l1" -> k <> "l2" ->
       path_get ["genesis"; k] (GMap rollup) = path_get ["genesis"; k] (GMap template)).
Proof.
  split; [vm_compute; reflexivity|].
  exact (Build_l2_rollup_fields (fun _ => Err "yaml") gomap example_genesis_Unmarshal
           example_ToBlock_Hash example_opGenesis example_opRollupConfig "0xl1"
           {| dst := "out" |} 1700000010 []
           (snd (Build_l2 (fun _ => Err "yaml") gomap example_genesis_Unmarshal
                   example_ToBlock_Hash example_opGenesis example_opRollupConfig "0xl1"
                   {| dst := "out" |} 1700000010 []))
           ltac:(vm_compute; reflexivity)).
Defined.

(** ** [Build]: the genesis time *)

(** X12: for a genesis delay from 9223372037 to 18446744073 seconds,
    [time.Duration(b.genesisDelay) * time.Second] overflows [int64]: the
    genesis time [Build] computes is not now + delay, but the current second
    minus between 0 and 9223372037 seconds (modulo 2^64), never later than
    now. *)
Theorem Build_genesis_time_overflow (env : BuildEnv) (b b' : ArtifactsBuilder) (out : output)
    (genesisTime : Z) :
  Build_prelude env b = (b', Ok (out, genesisTime)) ->
  9223372037 <= b.(genesisDelay) <= 18446744073 -> 0 <= env.(env_now_nsec) < 1000000000 ->
  genesisTime <> wrap_uint64 (env.(env_now_sec) + b.(genesisDelay)) /\
  exists s, -9223372037 <= s <= 0 /\ genesisTime = wrap_uint64 (env.(env_now_sec) + s).
Proof.
  intros H Hd Hn. apply Build_prelude_ok in H as [Hb' ->].
  destruct (Z.ltb_spec (genesisDelay b) MinimumGenesisDelay) as [Hlt|_];
    [unfold MinimumGenesisDelay in Hlt; lia|].
  rewrite Hb'. destruct (genesis_time_overflow_range env (genesisDelay b) Hd Hn) as (s & Hs & ->).
  split; [|exists s; auto].
  apply not_eq_sym, wrap_uint64_ne. lia.
Qed.

Lemma Build_genesis_time_overflow_witness :
  let env := {| env_GetHomeDir := Ok "/home/u"; env_stat := fun _ => false;
                env_RemoveAll := fun _ => Ok tt; env_loadConfig := fun _ => Ok tt;
                env_now_sec := 1700000000; env_now_nsec := 0 |} in
  Build_prelude env (GenesisDelay NewArtifactsBuilder 9223372037)
  = (GenesisDelay (OutputDir (GenesisDelay NewArtifactsBuilder 9223372037) "/home/u/devnet")
       9223372037,
     Ok ({| dst := "/home/u/devnet" |}, 18446744066186179579)) /\
  18446744066186179579 <> wrap_uint64 (1700000000 + 9223372037) /\
  exists s, -9223372037 <= s <= 0 /\ 18446744066186179579 = wrap_uint64 (1700000000 + s).
Proof.
  intros env. split; [vm_compute; reflexivity|].
  apply (Build_genesis_time_overflow env (GenesisDelay NewArtifactsBuilder 9223372037) _ _ _
           ltac:(vm_compute; reflexivity)); cbn; lia.
Defined.

(** ** [getPrivKey] *)

(** X13: for any byte string [b], [getPrivKey] of the lowercase hex
    encoding of [b], with or without the "0x" prefix, passes exactly [b] to
    [ecrypto.ToECDSA] and returns what [ToECDSA b] returns, the key or its
    error. *)
Theorem getPrivKey_hex_roundtrip (PrivateKeyECDSA : Type)
    (ToECDSA : string -> go_result PrivateKeyECDSA) (b : string) :
  getPrivKey PrivateKeyECDSA ToECDSA ("0x" ++ hex_EncodeToString b) = ToECDSA b /\
  getPrivKey PrivateKeyECDSA ToECDSA (hex_EncodeToString b) = ToECDSA b.
Proof.
  unfold getPrivKey. rewrite TrimPrefix_0x, TrimPrefix_hex, hex_DecodeString_Encode.
  split; destruct (ToECDSA b); reflexivity.
Qed.

(** X14: a key whose hex digits (after an optional "0x") are odd in number
    is rejected by [hex.DecodeString] with an error, and [ToECDSA] is never
    called. *)
Theorem getPrivKey_odd_length (PrivateKeyECDSA : Type)
    (ToECDSA : string -> go_result PrivateKeyECDSA) (privStr : string) :
  Nat.odd (String.length (strings_TrimPrefix privStr "0x")) = true ->
  exists e, getPrivKey PrivateKeyECDSA ToECDSA privStr = Err e.
Proof.
  intros Hodd. unfold getPrivKey, hex_DecodeString.
  rewrite <- length_list_ascii_of_string in Hodd.
  destruct (hex_Decode_odd _ _ (le_n _) Hodd) as [e ->]. eauto.
Qed.

Lemma getPrivKey_odd_length_witness :
  Nat.odd (String.length (strings_TrimPrefix "0xabc" "0x")) = true /\
  getPrivKey unit (fun _ => Ok tt) "0xabc" = Err "encoding/hex: odd length hex string" /\
  exists e, getPrivKey unit (fun _ => Ok tt) "0xabc" = Err e.
Proof.
  split; [vm_compute; reflexivity|]. split; [vm_compute; reflexivity|].
  apply getPrivKey_odd_length. vm_compute. reflexivity.
Defined.

(** X15: [convert] skips the fields without a [yaml] tag: its result is the
    result on the tagged fields alone, whatever the untagged ones hold, and
    it never returns an error (only a config string or a panic). *)
Theorem convert_ignores_untagged (fields : list struct_field) :
  convert fields = convert (List.filter tagged fields) /\ forall e, convert fields <> Err e.
Proof.
  unfold convert. rewrite <- convert_fields_filter. split; [reflexivity|].
  intros e. pose proof (convert_fields_not_err fields e) as H.
  destruct (convert_fields fields) as [|m|]; [discriminate| |discriminate].
  intros Heq. injection Heq as ->. exact (H eq_refl).
Qed.

(** X16: if the first tagged field of an unsupported kind comes after
    supported tagged fields only, [convert] panics with the message naming
    that field's tag and kind. *)
Theorem convert_first_unsupported_panics (fields pre post : list struct_field)
    (f : struct_field) (kind : string) :
  List.filter tagged fields = pre ++ f :: post ->
  Forall (fun g => forall k, fvalue g <> FOther k) pre ->
  fvalue f = FOther kind ->
  convert fields
  = Panic ("BUG: unsupported type, tag '" ++ yaml_tag f ++ "', err: '" ++ kind ++ "'")%string.
Proof.
  intros Hsplit Hpre Hk. unfold convert.
  rewrite convert_fields_filter, Hsplit, (convert_fields_first_panic pre post f kind);
    [reflexivity| | |exact Hk].
  - apply List.Forall_forall. intros g Hg. split.
    + assert (Hin : In g (List.filter tagged fields))
        by (rewrite Hsplit; apply in_or_app; left; exact Hg).
      apply filter_In in Hin. exact (proj2 Hin).
    + exact (proj1 (List.Forall_forall _ _) Hpre g Hg).
  - assert (Hin : In f (List.filter tagged fields))
      by (rewrite Hsplit; apply in_or_app; right; left; reflexivity).
    apply filter_In in Hin. exact (proj2 Hin).
Qed.

(** X17: when every tagged field has a supported kind and neither its tag nor
    its string value holds a newline, and some field is tagged, [convert]
    succeeds and its output, split at newlines, is one line
    ["tag: value"] per tagged field, in field order. *)
Theorem convert_lines (fields : list struct_field) :
  (forall f, In f fields -> tagged f = true ->
     no_newline (yaml_tag f) /\ (forall s, fvalue f = FString s -> no_newline s) /\
     (forall kind, fvalue f <> FOther kind)) ->
  List.filter tagged fields <> [] ->
  exists out, convert fields = Ok out /\
    Forall2 convert_line (strings_Split_nl out) (List.filter tagged fields).
Proof.
  intros Hok Hne.
  destruct (convert_fields_ok fields) as (vals & Hv & Hf);
    [intros f Hin Ht; exact (proj2 (proj2 (Hok f Hin Ht)))|].
  unfold convert. rewrite Hv. eexists; split; [reflexivity|].
  destruct vals as [|v vals]; [inversion Hf; congruence|].
  rewrite strings_Split_Join; [exact Hf|].
  apply List.Forall_forall. intros line Hline.
  destruct (Forall2_In_left _ _ _ _ Hf Hline) as (f & Hfin & Hl).
  apply filter_In in Hfin as [Hin Ht]. destruct (Hok f Hin Ht) as (Htag & Hs & _).
  exact (convert_line_no_newline line f Hl Htag Hs).
Qed.

Lemma convert_first_unsupported_panics_witness :
  let fields := [{| yaml_tag := "a"; fvalue := FString "x" |};
                 {| yaml_tag := ""; fvalue := FOther "map" |};
                 {| yaml_tag := "b"; fvalue := FOther "map" |}] in
  List.filter tagged fields
    = [{| yaml_tag := "a"; fvalue := FString "x" |}] ++ {| yaml_tag := "b"; fvalue := FOther "map" |} :: [] /\
  convert fields = Panic "BUG: unsupported type, tag 'b', err: 'map'".
Proof.
  intros fields. split; [reflexivity|].
  apply (convert_first_unsupported_panics fields [{| yaml_tag := "a"; fvalue := FString "x" |}] []
           {| yaml_tag := "b"; fvalue := FOther "map" |} "map").
  - reflexivity.
  - constructor; [intros k; discriminate|constructor].
  - reflexivity.
Defined.

Lemma convert_lines_witness :
  let fields := [{| yaml_tag := "a"; fvalue := FUint 5 |};
                 {| yaml_tag := ""; fvalue := FOther "map" |};
                 {| yaml_tag := "b"; fvalue := FBytes "Jk" |}] in
  convert fields = Ok ("a: 5" ++ nl ++ "b: 0x4a6b")%string /\
  exists out, convert fields = Ok out /\
    Forall2 convert_line (strings_Split_nl out) (List.filter tagged fields).
Proof.
  intros fields. split; [vm_compute; reflexivity|].
  apply convert_lines.
  - intros f Hin Ht. cbn in Hin.
    destruct Hin as [<-|[<-|[<-|[]]]]; [| discriminate Ht |];
      (split; [no_newline_lit|split; [intros s Hs; discriminate Hs|intros k; discriminate]]).
  - discriminate.
Defined.
